(** * DeployNet: the content cache, the request resolver, the signaling
      handlers of the browser client (src/web/client.js) and the relay hub
      (src/cmd/signaling-server/main.go), embedded in Rocq.

    The JavaScript [Map] keeps its keys in insertion order and the cache's
    eviction iterates it, so it is embedded as an association list.  The Go
    maps of the hub have no iteration order and are embedded as [gmap]s; the
    [*Client] pointers they share are addresses into a heap. *)

From Stdlib Require Import ZArith.
From stdpp Require Import gmap strings list sorting.

Local Open Scope string_scope.
Local Open Scope list_scope.
Local Open Scope Z_scope.

(** ** JavaScript [Map] with string keys *)

Module JsMap.

Definition t (V : Type) : Type := list (string * V).

Definition empty {V} : t V := [].

(** [Map.prototype.get]: [None] is JavaScript's [undefined]. *)
Fixpoint get {V} (k : string) (m : t V) : option V :=
  match m with
  | [] => None
  | (k', v) :: rest => if decide (k = k') then Some v else get k rest
  end.

(** [Map.prototype.set]: an existing key keeps its place in the iteration
    order, a new key goes last. *)
Fixpoint set {V} (k : string) (v : V) (m : t V) : t V :=
  match m with
  | [] => [(k, v)]
  | (k', v') :: rest =>
      if decide (k = k') then (k, v) :: rest else (k', v') :: set k v rest
  end.

(** [Map.prototype.delete]. *)
Fixpoint delete {V} (k : string) (m : t V) : t V :=
  match m with
  | [] => []
  | (k', v') :: rest =>
      if decide (k = k') then delete k rest else (k', v') :: delete k rest
  end.

Definition has {V} (k : string) (m : t V) : bool :=
  match get k m with Some _ => true | None => false end.

(** [Map.prototype.keys], in iteration order. *)
Definition keys {V} (m : t V) : list string := fst <$> m.

Definition size {V} (m : t V) : nat := length m.

End JsMap.

(** ** class ContentCache *)

Module ContentCache.

(** Content is a string, held here as the bytes of its UTF-8 encoding:
    [new Blob([content]).size] is their number, and the string is truthy
    exactly when there is at least one. *)
Definition blob_size (content : string) : Z := Z.of_nat (String.length content).

Definition truthy (content : string) : bool :=
  match content with EmptyString => false | String _ _ => true end.

Record t : Type := mk {
  maxSize : Z;
  currentSize : Z;
  entries : JsMap.t string;   (* URL -> content *)
  accessTime : JsMap.t Z      (* URL -> timestamp *)
}.

(** [constructor(maxSize)] *)
Definition new (maxSize : Z) : t :=
  {| maxSize := maxSize; currentSize := 0;
     entries := JsMap.empty; accessTime := JsMap.empty |}.

(** [.sort((a, b) => a[1] - b[1])]: the array sort is stable, so entries
    with equal timestamps stay in the map's iteration order. *)
Fixpoint sort_insert (x : string * Z) (sorted : list (string * Z)) : list (string * Z) :=
  match sorted with
  | [] => [x]
  | y :: rest =>
      if x.2 <=? y.2 then x :: y :: rest else y :: sort_insert x rest
  end.

Fixpoint sort_by_time (l : list (string * Z)) : list (string * Z) :=
  match l with
  | [] => []
  | x :: rest => sort_insert x (sort_by_time rest)
  end.

(** The [for] loop of [evictLRU].  The second component logs the urls in
    the order the loop deletes them. *)
Fixpoint evict_loop (sortedEntries : list (string * Z)) (requiredSpace freedSpace : Z)
    (c : t) : t * list string :=
  match sortedEntries with
  | [] => (c, [])
  | (url, _) :: rest =>
      match JsMap.get url (entries c) with
      | Some content =>
          if truthy content then
            let size := blob_size content in
            let c' := {| maxSize := maxSize c;
                         currentSize := currentSize c - size;
                         entries := JsMap.delete url (entries c);
                         accessTime := JsMap.delete url (accessTime c) |} in
            let freedSpace' := freedSpace + size in
            if freedSpace' >=? requiredSpace then (c', [url])
            else
              let '(c'', log) := evict_loop rest requiredSpace freedSpace' c' in
              (c'', url :: log)
          else evict_loop rest requiredSpace freedSpace c
      | None => evict_loop rest requiredSpace freedSpace c
      end
  end.

(** [evictLRU(requiredSpace)] *)
Definition evictLRU (requiredSpace : Z) (c : t) : t * list string :=
  evict_loop (sort_by_time (accessTime c)) requiredSpace 0 c.

(** [store(url, content)] is an [async] method with one [await], on the
    call of [evictLRU].  This is the part before it: the capacity test and
    the eviction. *)
Definition store_evict (content : string) (c : t) : t :=
  let size := blob_size content in
  if currentSize c + size >? maxSize c then (evictLRU size c).1 else c.

(** The part of [store] after the [await]: the insertion, on the cache as
    it is then.  [now] is the value [Date.now()] returns. *)
Definition store_insert (url content : string) (now : Z) (c1 : t) : t :=
  let size := blob_size content in
  {| maxSize := maxSize c1;
     currentSize := currentSize c1 + size;
     entries := JsMap.set url content (entries c1);
     accessTime := JsMap.set url now (accessTime c1) |}.

(** [store(url, content)] as a caller that awaits it sees it, with no other
    call on the cache in between. *)
Definition store (url content : string) (now : Z) (c : t) : t :=
  store_insert url content now (store_evict content c).

(** [get(url)]: the result ([None] is [null]) and the cache afterwards. *)
Definition get (url : string) (now : Z) (c : t) : option string * t :=
  match JsMap.get url (entries c) with
  | Some content =>
      if truthy content then
        (Some content,
         {| maxSize := maxSize c; currentSize := currentSize c;
            entries := entries c;
            accessTime := JsMap.set url now (accessTime c) |})
      else (None, c)
  | None => (None, c)
  end.

(** The bytes actually held: the sum of the sizes of the entries present. *)
Definition sum_sizes (m : JsMap.t string) : Z :=
  foldr (fun kv acc => blob_size kv.2 + acc) 0 m.

Definition stored_size (c : t) : Z := sum_sizes (entries c).

(** A sequence of calls on one cache, each with the clock value it reads. *)
Inductive op : Type :=
| Store (url content : string) (now : Z)
| Get (url : string) (now : Z).

Definition apply (o : op) (c : t) : t :=
  match o with
  | Store url content now => store url content now c
  | Get url now => (get url now c).2
  end.

Definition run (ops : list op) (c : t) : t := foldl (fun c o => apply o c) c ops.

(** The two maps hold the same urls in the same order, each url once. *)
Definition wf (c : t) : Prop :=
  NoDup (JsMap.keys (entries c)) /\ JsMap.keys (accessTime c) = JsMap.keys (entries c).

(** [url] has an entry whose content passes the test [if (content)] of
    [get] and [evictLRU]. *)
Definition holds_content (url : string) (c : t) : bool :=
  match JsMap.get url (entries c) with
  | Some content => truthy content
  | None => false
  end.

(** No content stored by [ops] is larger than [C]. *)
Definition sizes_within (C : Z) (ops : list op) : Prop :=
  Forall (fun o => match o with
                   | Store _ content _ => blob_size content <= C
                   | Get _ _ => True
                   end) ops.

(** No [Store] of [ops], run from [c], is to a url that has an entry at the
    time of the call. *)
Fixpoint fresh_stores (ops : list op) (c : t) : Prop :=
  match ops with
  | [] => True
  | o :: rest =>
      match o with
      | Store url _ _ => JsMap.get url (entries c) = None
      | Get _ _ => True
      end /\ fresh_stores rest (apply o c)
  end.

(** The entries fit the capacity and the counter does not undercount them. *)
Definition bounded (c : t) : Prop :=
  wf c /\ stored_size c <= currentSize c /\ stored_size c <= maxSize c.

(** The counter is exact. *)
Definition exact (c : t) : Prop :=
  wf c /\ currentSize c = stored_size c.

(** Every entry holds non-empty content. *)
Definition validated (c : t) : Prop :=
  wf c /\
  forall url content, JsMap.get url (entries c) = Some content -> truthy content = true.

(** The order of [sortedEntries]. *)
Definition time_le (x y : string * Z) : Prop := x.2 <= y.2.

(** The entries [evictLRU] removes if it goes through all of
    [sortedEntries]: those that hold content, oldest access first. *)
Definition eviction_order (c : t) : list (string * Z) :=
  List.filter (fun kv => holds_content kv.1 c) (sort_by_time (accessTime c)).

(** The counter does not undercount the bytes held. *)
Definition counted (c : t) : Prop :=
  wf c /\ stored_size c <= currentSize c.

(** [u] comes before [v] in the eviction log. *)
Definition evicted_before (u v : string) (log : list string) : Prop :=
  exists l1 l2 l3, log = l1 ++ u :: l2 ++ v :: l3.

(** *** Calls of [store] that overlap

    A caller that does not await [store], as [interceptRequest] does not,
    can call the cache again while an earlier [store] is suspended at its
    [await].  A call of [store] that finds the cache over capacity runs
    [evictLRU] at once and is suspended; the suspended calls resume in the
    order they were made, each with its insertion.  A call that finds room
    meets no [await] and inserts at once. *)
Inductive turn : Type :=
| CallStore (url content : string) (now : Z)   (* store(url, content) is called *)
| ResumeStore (now : Z)                        (* the store suspended first resumes *)
| CallGet (url : string) (now : Z).            (* get(url) is called *)

(** The cache and the suspended calls of [store], oldest first, each with
    its arguments. *)
Definition turn_apply (e : turn) (st : t * list (string * string))
    : t * list (string * string) :=
  match e with
  | CallStore url content now =>
      if currentSize st.1 + blob_size content >? maxSize st.1
      then ((evictLRU (blob_size content) st.1).1, st.2 ++ [(url, content)])
      else (store_insert url content now st.1, st.2)
  | ResumeStore now =>
      match st.2 with
      | (url, content) :: rest => (store_insert url content now st.1, rest)
      | [] => st
      end
  | CallGet url now => ((get url now st.1).2, st.2)
  end.

Definition turns (es : list turn) (st : t * list (string * string))
    : t * list (string * string) :=
  foldl (fun st e => turn_apply e st) st es.

(** No [store] is called while another is suspended. *)
Fixpoint awaited (es : list turn) (st : t * list (string * string)) : Prop :=
  match es with
  | [] => True
  | e :: rest =>
      match e with
      | CallStore _ _ _ => st.2 = []
      | _ => True
      end /\ awaited rest (turn_apply e st)
  end.

(** Every insertion of a [store] is for a url that has no entry at the
    time of the insertion. *)
Fixpoint fresh_inserts (es : list turn) (st : t * list (string * string)) : Prop :=
  match es with
  | [] => True
  | e :: rest =>
      match e with
      | CallStore url content _ =>
          if currentSize st.1 + blob_size content >? maxSize st.1 then True
          else JsMap.get url (entries st.1) = None
      | ResumeStore _ =>
          match st.2 with
          | (url, _) :: _ => JsMap.get url (entries st.1) = None
          | [] => True
          end
      | CallGet _ _ => True
      end /\ fresh_inserts rest (turn_apply e st)
  end.

(** What the capacity bound rests on: the entries fit, with the content of
    the one suspended [store] if there is one. *)
Definition fits (C : Z) (st : t * list (string * string)) : Prop :=
  wf st.1 /\ maxSize st.1 = C /\ stored_size st.1 <= currentSize st.1 /\
  match st.2 with
  | [] => stored_size st.1 <= C
  | [(_, content)] => stored_size st.1 + blob_size content <= C
  | _ => False
  end.

(** No content stored by [es] is larger than [C]. *)
Definition turn_sizes_within (C : Z) (es : list turn) : Prop :=
  Forall (fun e => match e with
                   | CallStore _ content _ => blob_size content <= C
                   | _ => True
                   end) es.

End ContentCache.

(** ** class DeployNetClient: request resolution and signaling handlers *)

Module DeployNetClient.

(** Messages of the signaling channel, as the client reads and writes
    them. *)
Record SignalMessage : Type := mkSignal {
  type : Z;
  payload : string;
  senderId : string;
  timestamp : string;
  roomId : string
}.

(** Messages of the peer data channel. *)
Inductive PeerMessage : Type :=
| contentRequest (url requesterId : string)
| contentResponse (url content responderId : string).

(** [RTCPeerConnection] belongs to the browser.  A connection is held as
    the calls the client has made on it, oldest first; the calls are taken
    to succeed. *)
Inductive PcCall : Type :=
| setRemoteDescription (description : string)
| createAnswer
| createOffer
| setLocalDescription (description : string)
| addIceCandidate (candidate : string)
| createDataChannel (label : string)
| close.

Definition RTCPeerConnection : Type := list PcCall.

(** [RTCDataChannel.readyState] *)
Inductive ReadyState : Type := connecting | open | closing | closed.

Record Response : Type := mkResponse {
  body : string;
  status : Z;
  headers : list (string * string)
}.

(** What the client does to the outside, in order. *)
Inductive effect : Type :=
| SignalingSend (m : SignalMessage)                (* signalingChannel.send *)
| ChannelSend (peerId : string) (m : PeerMessage)  (* channel.send *)
| OriginalFetch (url : string).                    (* originalFetch(url, init) *)

Record t : Type := mk {
  siteId : string;                               (* config.siteId *)
  maxPeers : Z;                                  (* config.maxPeers *)
  clientId : string;
  peers : JsMap.t string;
  cache : ContentCache.t;
  peerConnections : JsMap.t RTCPeerConnection;
  dataChannels : JsMap.t ReadyState
}.

(** [constructor(config)], with the client id [generateClientId] drew. *)
Definition new (siteId : string) (maxPeers cacheSize : Z) (clientId : string) : t :=
  {| siteId := siteId; maxPeers := maxPeers; clientId := clientId;
     peers := JsMap.empty; cache := ContentCache.new cacheSize;
     peerConnections := JsMap.empty; dataChannels := JsMap.empty |}.

Definition set_cache (c : ContentCache.t) (s : t) : t :=
  {| siteId := siteId s; maxPeers := maxPeers s; clientId := clientId s;
     peers := peers s; cache := c;
     peerConnections := peerConnections s; dataChannels := dataChannels s |}.

Definition set_peers (p : JsMap.t string) (s : t) : t :=
  {| siteId := siteId s; maxPeers := maxPeers s; clientId := clientId s;
     peers := p; cache := cache s;
     peerConnections := peerConnections s; dataChannels := dataChannels s |}.

Definition set_peerConnections (p : JsMap.t RTCPeerConnection) (s : t) : t :=
  {| siteId := siteId s; maxPeers := maxPeers s; clientId := clientId s;
     peers := peers s; cache := cache s;
     peerConnections := p; dataChannels := dataChannels s |}.

Definition set_dataChannels (d : JsMap.t ReadyState) (s : t) : t :=
  {| siteId := siteId s; maxPeers := maxPeers s; clientId := clientId s;
     peers := peers s; cache := cache s;
     peerConnections := peerConnections s; dataChannels := d |}.

(** Functions the handlers call and this file leaves open.  [JSON_parse]
    is [None] where [JSON.parse] throws.  [getContentType] is the method of
    that name; its table of MIME types is not embedded, since nothing below
    reads the Content-Type header. *)
Record Env : Type := mkEnv {
  JSON_parse : string -> option string;
  JSON_stringify : string -> string;
  getContentType : string -> string
}.

(** What the browser hands to one run of a signaling handler. *)
Record Browser : Type := mkBrowser {
  createAnswer_result : string;          (* what pc.createAnswer() resolves to *)
  createOffer_result : option string;    (* pc.createOffer(); None: it rejects *)
  toISOString : string                   (* new Date().toISOString() *)
}.

Section Handlers.

Variable env : Env.

(** *** Request resolution *)

Definition createResponseFromCache (content url : string) : Response :=
  {| body := content; status := 200;
     headers := [("Content-Type", getContentType env url);
                 ("X-DeployNet-Source", "cache")] |}.

Definition createResponseFromPeer (content peerId url : string) : Response :=
  {| body := content; status := 200;
     headers := [("Content-Type", getContentType env url);
                 ("X-DeployNet-Source", "peer");
                 ("X-DeployNet-Peer", peerId)] |}.

(** [sendToPeer(peerId, data)] *)
Definition sendToPeer (peerId : string) (data : PeerMessage) (s : t) : list effect :=
  match JsMap.get peerId (dataChannels s) with
  | Some open => [ChannelSend peerId data]
  | _ => []
  end.

(** [selectOptimalPeers(url, count)] *)
Definition selectOptimalPeers (count : nat) (s : t) : list string :=
  take count (JsMap.keys (peers s)).

(** How [requestContentFromPeer] ends for the peer it asks: it rejects
    after the timeout; it resolves with the [content] field of a response
    for the url ([None] when that field is not a string), whichever peer
    that response came from, since [handlePeerMessage] drops the sender
    before [emit] and the handler tests the type and the url only; or it
    stays pending, because a response for another url cleared its timer
    and no matching one follows. *)
Inductive reply : Type :=
| TimedOut
| Replied (content : option string)
| Unsettled.

(** [validateContent(content, url)] *)
Definition validateContent (content : option string) : bool :=
  match content with
  | Some c => ContentCache.truthy c
  | None => false
  end.

(** Where [requestFromPeers] ends. *)
Inductive peersResult : Type :=
| Accepted (content peerId : string)   (* the response it returns; peerId: the peer asked *)
| Exhausted                            (* it returns null *)
| Stuck.                               (* it never returns *)

(** The [for] loop of [requestFromPeers], with the requests sent. *)
Fixpoint requestFromPeers_loop (replies : string -> reply) (url : string)
    (optimalPeers : list string) (s : t) : peersResult * list effect :=
  match optimalPeers with
  | [] => (Exhausted, [])
  | peerId :: rest =>
      let sent := sendToPeer peerId (contentRequest url (clientId s)) s in
      let continue :=
        let '(r, effs) := requestFromPeers_loop replies url rest s in
        (r, sent ++ effs) in
      match replies peerId with
      | Replied content =>
          match content with
          | Some c => if validateContent content then (Accepted c peerId, sent) else continue
          | None => continue
          end
      | TimedOut => continue
      | Unsettled => (Stuck, sent)
      end
  end.

(** [requestFromPeers(url)] *)
Definition requestFromPeers (replies : string -> reply) (url : string) (s : t)
    : peersResult * list effect :=
  if decide (JsMap.size (peers s) = 0%nat) then (Exhausted, [])
  else requestFromPeers_loop replies url (selectOptimalPeers 3 s) s.

(** What the caller of [interceptRequest] gets: a response from one of
    the three tiers, the rejection of the origin fetch, or nothing
    ever. *)
Inductive tier : Type := FromCache | FromPeer | FromOrigin.

Inductive resolution : Type :=
| Resolved (response : Response) (from : tier)
| Rejected
| Pending.

(** [interceptRequest(url, init, originalFetch)], for a request the
    [fetch] override decided to intercept.  [now] is the clock read by
    [cache.get], [now'] the one read by [cache.store]; [originalFetch]
    is [None] where the origin fetch rejects.  The result is what the
    caller gets, the client afterwards and what was sent out.  The call of
    [cache.store] is not awaited in the source; the client afterwards is
    given with that call completed. *)
Definition interceptRequest (url : string) (now now' : Z)
    (replies : string -> reply) (originalFetch : string -> option Response) (s : t)
    : resolution * t * list effect :=
  let '(cached, cache1) := ContentCache.get url now (cache s) in
  match cached with
  | Some content =>
      (Resolved (createResponseFromCache content url) FromCache, set_cache cache1 s, [])
  | None =>
      let s1 := set_cache cache1 s in
      match requestFromPeers replies url s1 with
      | (Accepted content peerId, effs) =>
          (Resolved (createResponseFromPeer content peerId url) FromPeer,
           set_cache (ContentCache.store url content now' (cache s1)) s1, effs)
      | (Exhausted, effs) =>
          (match originalFetch url with
           | Some response => Resolved response FromOrigin
           | None => Rejected
           end, s1, effs ++ [OriginalFetch url])
      | (Stuck, effs) => (Pending, s1, effs)
      end
  end.

(** [handleContentRequest(peerId, request)] *)
Definition handleContentRequest (peerId url : string) (now : Z) (s : t) : t * list effect :=
  let '(content, cache1) := ContentCache.get url now (cache s) in
  let s1 := set_cache cache1 s in
  match content with
  | Some c => (s1, sendToPeer peerId (contentResponse url c (clientId s1)) s1)
  | None => (s1, [])
  end.

(** [handlePeerMessage(peerId, data)], on the parsed message.  A
    [contentResponse] only wakes the request waiting for it, which
    [replies] above stands for. *)
Definition handlePeerMessage (peerId : string) (m : PeerMessage) (now : Z) (s : t)
    : t * list effect :=
  match m with
  | contentRequest url _ => handleContentRequest peerId url now s
  | contentResponse _ _ _ => (s, [])
  end.

(** *** Signaling handlers *)

(** A call on the connection registered for [peerId]. *)
Definition pc_call (peerId : string) (call : PcCall) (s : t) : t :=
  match JsMap.get peerId (peerConnections s) with
  | Some pc => set_peerConnections (JsMap.set peerId (pc ++ [call]) (peerConnections s)) s
  | None => s
  end.

(** [cleanupPeerConnection(peerId)] *)
Definition cleanupPeerConnection (peerId : string) (s : t) : t :=
  let s1 := match JsMap.get peerId (peerConnections s) with
            | Some _ => set_peerConnections (JsMap.delete peerId (peerConnections s)) s
            | None => s
            end in
  let s2 := match JsMap.get peerId (dataChannels s1) with
            | Some _ => set_dataChannels (JsMap.delete peerId (dataChannels s1)) s1
            | None => s1
            end in
  set_peers (JsMap.delete peerId (peers s2)) s2.

(** [handleOffer(message)], run to its end without another handler in
    between. *)
Definition handleOffer (io : Browser) (message : SignalMessage) (s : t) : t * list effect :=
  match JSON_parse env (payload message) with
  | None => (s, [])
  | Some offer =>
      let peerId := senderId message in
      let answer := createAnswer_result io in
      let pc := [setRemoteDescription offer; createAnswer; setLocalDescription answer] in
      let answerMsg := {| type := 1; payload := JSON_stringify env answer;
                          senderId := clientId s; timestamp := toISOString io;
                          roomId := siteId s |} in
      (set_peerConnections (JsMap.set peerId pc (peerConnections s)) s,
       [SignalingSend answerMsg])
  end.

(** [handleAnswer(message)] *)
Definition handleAnswer (message : SignalMessage) (s : t) : t * list effect :=
  match JSON_parse env (payload message) with
  | None => (s, [])
  | Some answer => (pc_call (senderId message) (setRemoteDescription answer) s, [])
  end.

(** [handleIceCandidate(message)] *)
Definition handleIceCandidate (message : SignalMessage) (s : t) : t * list effect :=
  match JSON_parse env (payload message) with
  | None => (s, [])
  | Some candidate =>
      let peerId := senderId message in
      match JsMap.get peerId (peerConnections s) with
      | Some pc =>
          (set_peerConnections
             (JsMap.set peerId (pc ++ [addIceCandidate candidate]) (peerConnections s)) s,
           [])
      | None => (s, [])
      end
  end.

(** [initiatePeerConnection(peerId)] *)
Definition initiatePeerConnection (io : Browser) (peerId : string) (s : t)
    : t * list effect :=
  if JsMap.has peerId (peerConnections s) then (s, [])
  else
    let label := String.append "deploy-" peerId in
    match createOffer_result io with
    | Some offer =>
        let pc := [createDataChannel label; createOffer; setLocalDescription offer] in
        let offerMsg := {| type := 0; payload := JSON_stringify env offer;
                           senderId := clientId s; timestamp := toISOString io;
                           roomId := siteId s |} in
        (set_peerConnections (JsMap.set peerId pc (peerConnections s)) s,
         [SignalingSend offerMsg])
    | None =>
        let pc := [createDataChannel label; createOffer] in
        (cleanupPeerConnection peerId
           (set_peerConnections (JsMap.set peerId pc (peerConnections s)) s),
         [])
    end.

(** [handlePeerDiscovery(message)]; [handlePeerRegistered(message)] has
    the same body. *)
Definition handlePeerDiscovery (io : Browser) (message : SignalMessage) (s : t)
    : t * list effect :=
  match JSON_parse env (payload message) with
  | None => (s, [])
  | Some peerInfo =>
      let s1 := set_peers (JsMap.set (senderId message) peerInfo (peers s)) s in
      if Z.of_nat (JsMap.size (peerConnections s1)) <? maxPeers s1
      then initiatePeerConnection io (senderId message) s1
      else (s1, [])
  end.

Definition handlePeerRegistered (io : Browser) (message : SignalMessage) (s : t)
    : t * list effect :=
  handlePeerDiscovery io message s.

(** [handleSignalingMessage(message)] *)
Definition handleSignalingMessage (io : Browser) (message : SignalMessage) (s : t)
    : t * list effect :=
  match type message with
  | 0 => handleOffer io message s
  | 1 => handleAnswer message s
  | 2 => handleIceCandidate message s
  | 3 => handlePeerDiscovery io message s
  | 6 => handlePeerRegistered io message s
  | _ => (s, [])
  end.

(** The signaling messages of a session, handled one after the other. *)
Definition handleSignalingMessages (ms : list (Browser * SignalMessage)) (s : t) : t :=
  foldl (fun s m => (handleSignalingMessage m.1 m.2 s).1) s ms.

(** [registerWithNetwork()].  [registration] is what [JSON.stringify]
    returns for the object of the client's id, its site id and its
    capabilities, which are read from [navigator]. *)
Definition registerWithNetwork (io : Browser) (registration : string) (s : t) : list effect :=
  [SignalingSend {| type := 6; payload := registration; senderId := clientId s;
                    timestamp := toISOString io; roomId := siteId s |}].

(** The [pc.onicecandidate] callback that [initiatePeerConnection]
    installs.  [candidate] is [event.candidate], [None] for [null]. *)
Definition onicecandidate (io : Browser) (candidate : option string) (s : t) : list effect :=
  match candidate with
  | Some c =>
      [SignalingSend {| type := 2; payload := JSON_stringify env c; senderId := clientId s;
                        timestamp := toISOString io; roomId := siteId s |}]
  | None => []
  end.

(** *** The client as a whole: what can happen to it

    The events are those that change the client or make it send.  A lost
    connection is handled here for every peer, and a candidate event may
    come at any time, in the source only for connections the client
    initiated; so the client may take steps here that it does not take in
    the program, and what holds of every state reached here holds of every
    state the program reaches. *)

Inductive event : Type :=
| onSignalingMessage (io : Browser) (message : SignalMessage)
| onChannelOpen (peerId : string)
| onChannelClose (peerId : string)
| onChannelMessage (peerId : string) (m : PeerMessage) (now : Z)
| onConnectionLost (peerId : string)   (* connectionState disconnected or failed *)
| onFetch (url : string) (now now' : Z)
    (replies : string -> reply) (originalFetch : string -> option Response)
| onRegisterWithNetwork (io : Browser) (registration : string)
| onIceCandidate (io : Browser) (candidate : option string).

Definition step (e : event) (s : t) : t * list effect :=
  match e with
  | onSignalingMessage io message => handleSignalingMessage io message s
  | onChannelOpen peerId =>
      (set_dataChannels (JsMap.set peerId open (dataChannels s)) s, [])
  | onChannelClose peerId =>
      (set_dataChannels (JsMap.delete peerId (dataChannels s)) s, [])
  | onChannelMessage peerId m now => handlePeerMessage peerId m now s
  | onConnectionLost peerId => (cleanupPeerConnection peerId s, [])
  | onFetch url now now' replies originalFetch =>
      let '(_, s', effs) := interceptRequest url now now' replies originalFetch s in
      (s', effs)
  | onRegisterWithNetwork io registration => (s, registerWithNetwork io registration s)
  | onIceCandidate io candidate => (s, onicecandidate io candidate s)
  end.

(** The states a client goes through from its construction. *)
Inductive reachable : t -> Prop :=
| reachable_new siteId maxPeers cacheSize clientId :
    reachable (new siteId maxPeers cacheSize clientId)
| reachable_step e s : reachable s -> reachable (step e s).1.

End Handlers.

(** An environment for examples: every payload parses, to itself. *)
Definition plain_env : Env :=
  {| JSON_parse := Some; JSON_stringify := fun v => v;
     getContentType := fun _ => "application/octet-stream" |}.

Definition plain_browser : Browser :=
  {| createAnswer_result := "answer-sdp"; createOffer_result := Some "offer-sdp";
     toISOString := "2024-01-01T00:00:00.000Z" |}.

(** A signaling message of type [ty] from the peer "peer-b". *)
Definition from_peer_b (ty : Z) (payload : string) : Browser * SignalMessage :=
  (plain_browser,
   {| type := ty; payload := payload; senderId := "peer-b";
      timestamp := "2024-01-01T00:00:00.000Z"; roomId := "site" |}).

End DeployNetClient.

(** ** The event emitter of DeployNetClient: addListener, removeListener, emit *)

Module EventEmitter.

(** A handler is a function; it is held by its identity, which is what
    [indexOf] compares. *)
Definition handler : Type := nat.

(** [this.eventHandlers]: [None] until the first [addListener] creates the
    map. *)
Definition t : Type := option (JsMap.t (list handler)).

(** The handlers registered for [event], in the order of the array. *)
Definition listeners (event : string) (st : t) : list handler :=
  match st with
  | Some m => default [] (JsMap.get event m)
  | None => []
  end.

(** [addListener(event, handler)] *)
Definition addListener (event : string) (h : handler) (st : t) : t :=
  let m := match st with Some m => m | None => JsMap.empty end in
  let m1 := if JsMap.has event m then m else JsMap.set event [] m in
  Some (JsMap.set event (default [] (JsMap.get event m1) ++ [h]) m1).

(** [handlers.splice(handlers.indexOf(handler), 1)] when the index is
    [> -1]: the first occurrence goes. *)
Fixpoint remove_first (h : handler) (handlers : list handler) : list handler :=
  match handlers with
  | [] => []
  | x :: rest => if decide (x = h) then rest else x :: remove_first h rest
  end.

(** [removeListener(event, handler)] *)
Definition removeListener (event : string) (h : handler) (st : t) : t :=
  match st with
  | Some m =>
      match JsMap.get event m with
      | Some handlers => Some (JsMap.set event (remove_first h handlers) m)
      | None => st
      end
  | None => st
  end.

(** [handlers.forEach(handler => handler(data))].  [forEach] visits the
    indices below the length the array had at the start and skips an index
    the array no longer has.  The one handler the client registers,
    [responseHandler], calls [removeListener] on itself when the data
    matches its request; [removes] tells for which handlers the data does.
    The result is the handlers called, in order, and the array left. *)
Fixpoint emit_loop (removes : handler -> bool) (indices : list nat)
    (handlers : list handler) : list handler * list handler :=
  match indices with
  | [] => ([], handlers)
  | k :: rest =>
      match handlers !! k with
      | Some h =>
          let handlers' := if removes h then remove_first h handlers else handlers in
          let '(called, final) := emit_loop removes rest handlers' in
          (h :: called, final)
      | None => emit_loop removes rest handlers
      end
  end.

(** [emit(event, data)] *)
Definition emit (event : string) (removes : handler -> bool) (st : t) : list handler * t :=
  match st with
  | Some m =>
      match JsMap.get event m with
      | Some handlers =>
          let '(called, final) :=
            emit_loop removes (seq 0 (length handlers)) handlers in
          (called, Some (JsMap.set event final m))
      | None => ([], st)
      end
  | None => ([], st)
  end.

End EventEmitter.

(** ** The relay hub (signaling server) *)

Module Hub.

(** [type MessageType int] and its constants. *)
Definition MessageType : Type := Z.
Definition Offer : MessageType := 0.
Definition Answer : MessageType := 1.
Definition IceCandidate : MessageType := 2.
Definition PeerDiscovery : MessageType := 3.
Definition Heartbeat : MessageType := 4.
Definition Register : MessageType := 5.
Definition Unregister : MessageType := 6.
Definition Broadcast : MessageType := 7.

(** [Payload] is a [json.RawMessage], a byte slice; byte slices are held
    as strings.  [Timestamp] is a [time.Time], held as an integer. *)
Record SignalMessage : Type := mkSignal {
  Type_ : MessageType;
  Payload : string;
  SenderID : string;
  Timestamp : Z;
  RoomID : string
}.

(** A [chan []byte]: the buffered values, oldest first, the capacity, and
    whether it was closed. *)
Record chan : Type := mkChan {
  buf : list string;
  cap : nat;
  chan_closed : bool
}.

(** [make(chan []byte, n)] *)
Definition make_chan (n : nat) : chan := {| buf := []; cap := n; chan_closed := false |}.

Record Client : Type := mkClient {
  ID : string;
  Conn : list string;   (* the frames written with WriteMessage, oldest first *)
  Send : chan;
  Client_RoomID : string
}.

(** A [*Client]. *)
Definition ptr : Type := positive.

Record Hub_ : Type := mkHub {
  Clients : gmap string ptr;
  Rooms : gmap string (gmap string ptr)
}.

(** [NewHub()] *)
Definition NewHub : Hub_ := {| Clients := ∅; Rooms := ∅ |}.

(** The goroutine of [Hub.Run]: it loops; it is stuck for good in
    [h.Unregister <- client], a send on an unbuffered channel that only
    [Run] itself receives from; or it has panicked. *)
Inductive RunState : Type := Looping | Stuck | Panicked.

Record World : Type := mkWorld {
  hub : Hub_;
  heap : gmap ptr Client;
  run_state : RunState
}.

Definition set_Send (ch : chan) (c : Client) : Client :=
  {| ID := ID c; Conn := Conn c; Send := ch; Client_RoomID := Client_RoomID c |}.

Definition set_Conn (cn : list string) (c : Client) : Client :=
  {| ID := ID c; Conn := cn; Send := Send c; Client_RoomID := Client_RoomID c |}.

(** [case client := <-h.Register] *)
Definition Run_Register (client : Client) (p : ptr) (h : Hub_) : Hub_ :=
  let rooms1 :=
    match Rooms h !! Client_RoomID client with
    | Some _ => Rooms h
    | None => <[Client_RoomID client := ∅]> (Rooms h)
    end in
  {| Clients := <[ID client := p]> (Clients h);
     Rooms := <[Client_RoomID client :=
                 <[ID client := p]> (default ∅ (rooms1 !! Client_RoomID client))]> rooms1 |}.

(** [case client := <-h.Unregister], up to [close(client.Send)];
    [None] when the client is not in [h.Clients] and nothing is done. *)
Definition Run_Unregister (client : Client) (h : Hub_) : option Hub_ :=
  match Clients h !! ID client with
  | Some _ =>
      let rooms' :=
        match Rooms h !! Client_RoomID client with
        | Some room =>
            let room' := delete (ID client) room in
            if decide (size room' = 0%nat) then delete (Client_RoomID client) (Rooms h)
            else <[Client_RoomID client := room']> (Rooms h)
        | None => Rooms h
        end in
      Some {| Clients := delete (ID client) (Clients h); Rooms := rooms' |}
  | None => None
  end.

(** What one turn of the loop in [case message := <-h.Broadcast] does to a
    client of the room. *)
Inductive sendResult : Type :=
| Skipped                 (* client.ID == message.SenderID *)
| Sent (c : Client)       (* case client.Send <- message.Payload *)
| Full                    (* default: h.Unregister <- client *)
| SendOnClosed.           (* send on a closed channel *)

Definition Broadcast_one (message : SignalMessage) (client : Client) : sendResult :=
  if decide (ID client ≠ SenderID message) then
    if chan_closed (Send client) then SendOnClosed
    else if decide (length (buf (Send client)) < cap (Send client))%nat then
      Sent (set_Send {| buf := buf (Send client) ++ [Payload message];
                        cap := cap (Send client);
                        chan_closed := false |} client)
    else Full
  else Skipped.

(** [for _, client := range clientsInRoom], in the order [order] the
    runtime picks for the iteration. *)
Fixpoint Broadcast_loop (message : SignalMessage) (order : list ptr)
    (heap : gmap ptr Client) : gmap ptr Client * RunState :=
  match order with
  | [] => (heap, Looping)
  | p :: rest =>
      match heap !! p with
      | Some client =>
          match Broadcast_one message client with
          | Skipped => Broadcast_loop message rest heap
          | Sent client' => Broadcast_loop message rest (<[p := client']> heap)
          | Full => (heap, Stuck)
          | SendOnClosed => (heap, Panicked)
          end
      | None => Broadcast_loop message rest heap
      end
  end.

(** What the hub's loop receives. *)
Inductive received : Type :=
| fromRegister (p : ptr)
| fromUnregister (p : ptr)
| fromBroadcast (message : SignalMessage).

(** One turn of the [select] of [Hub.Run]. *)
Inductive Run : received -> World -> World -> Prop :=
| Run_case_Register p client w :
    run_state w = Looping ->
    heap w !! p = Some client ->
    Run (fromRegister p) w
      {| hub := Run_Register client p (hub w); heap := heap w; run_state := Looping |}
| Run_case_Unregister p client h' w :
    run_state w = Looping ->
    heap w !! p = Some client ->
    Run_Unregister client (hub w) = Some h' ->
    Run (fromUnregister p) w
      (if chan_closed (Send client)
       then {| hub := h'; heap := heap w; run_state := Panicked |}
       else {| hub := h';
               heap := <[p := set_Send {| buf := buf (Send client);
                                          cap := cap (Send client);
                                          chan_closed := true |} client]> (heap w);
               run_state := Looping |})
| Run_case_Unregister_absent p client w :
    run_state w = Looping ->
    heap w !! p = Some client ->
    Run_Unregister client (hub w) = None ->
    Run (fromUnregister p) w w
| Run_case_Broadcast message clientsInRoom order w :
    run_state w = Looping ->
    Rooms (hub w) !! RoomID message = Some clientsInRoom ->
    order ≡ₚ (map_to_list clientsInRoom).*2 ->
    Run (fromBroadcast message) w
      {| hub := hub w;
         heap := (Broadcast_loop message order (heap w)).1;
         run_state := (Broadcast_loop message order (heap w)).2 |}
| Run_case_Broadcast_no_room message w :
    run_state w = Looping ->
    Rooms (hub w) !! RoomID message = None ->
    Run (fromBroadcast message) w w.

(** What [c.Conn.ReadMessage()] and [json.Unmarshal] give [ReadPump] in
    one turn of its loop. *)
Inductive readResult : Type :=
| ReadError                           (* err != nil: break *)
| Malformed                           (* Unmarshal fails: continue *)
| Unmarshalled (signalMsg : SignalMessage).

(** What [ReadPump] puts on a channel of the hub in that turn. *)
Definition ReadPump (c : Client) (p : ptr) (r : readResult) : option received :=
  match r with
  | ReadError => Some (fromUnregister p)
  | Malformed => None
  | Unmarshalled signalMsg =>
      Some (fromBroadcast {| Type_ := Type_ signalMsg;
                             Payload := Payload signalMsg;
                             SenderID := ID c;
                             Timestamp := Timestamp signalMsg;
                             RoomID := RoomID signalMsg |})
  end.

(** One turn of the loop of [WritePump]: the next value of [c.Send] is
    taken and written to the connection; [err] tells whether
    [WriteMessage] fails.  The pump returns after a failed write and on a
    closed, drained channel, and waits on an open, empty one. *)
Inductive pumpTurn : Type :=
| Wrote (c' : Client)
| Returned (c' : Client)
| Waiting.

Definition WritePump (err : bool) (c : Client) : pumpTurn :=
  match buf (Send c) with
  | message :: rest =>
      let c1 := set_Send {| buf := rest; cap := cap (Send c);
                            chan_closed := chan_closed (Send c) |} c in
      if err then Returned c1
      else Wrote (set_Conn (Conn c ++ [message]) c1)
  | [] => if chan_closed (Send c) then Returned c else Waiting
  end.

Definition pumped (t : pumpTurn) : option Client :=
  match t with
  | Wrote c' | Returned c' => Some c'
  | Waiting => None
  end.

(** [serveWs]: the client built for a connection with query [id] and
    [room] (an absent [id] is replaced by [generated], the value of
    [generateClientID()]). *)
Definition serveWs_client (id room generated : string) : Client :=
  {| ID := if decide (id = "") then generated else id;
     Conn := [];
     Send := make_chan 256;
     Client_RoomID := if decide (room = "") then "default" else room |}.

(** The server as a whole: a connection is accepted and registered, a
    [ReadPump] or a [WritePump] takes a turn.  Which pumps have returned is
    not tracked, so a pump may take turns here that it no longer takes in
    the program; what holds of every world reached here holds of every
    world the program reaches. *)
Inductive step : World -> World -> Prop :=
| step_serveWs id room generated p w w' :
    heap w !! p = None ->
    Run (fromRegister p)
      {| hub := hub w; heap := <[p := serveWs_client id room generated]> (heap w);
         run_state := run_state w |} w' ->
    step w w'
| step_ReadPump p c r ev w w' :
    heap w !! p = Some c ->
    ReadPump c p r = Some ev ->
    Run ev w w' ->
    step w w'
| step_WritePump p c err c' w :
    heap w !! p = Some c ->
    pumped (WritePump err c) = Some c' ->
    step w {| hub := hub w; heap := <[p := c']> (heap w); run_state := run_state w |}.

Definition initial : World := {| hub := NewHub; heap := ∅; run_state := Looping |}.

(** Every client a room holds is in the heap, and is held under its own
    [ID] in the room of its own [RoomID]. *)
Definition wf (w : World) : Prop :=
  forall r room id p,
    Rooms (hub w) !! r = Some room -> room !! id = Some p ->
    exists c, heap w !! p = Some c /\ ID c = id /\ Client_RoomID c = r.

(** The client at [p] is a member of room [r]. *)
Definition registered_in (w : World) (r : string) (p : ptr) : Prop :=
  exists room id, Rooms (hub w) !! r = Some room /\ room !! id = Some p.

(** [c'] is [c] with [bytes] added to its [Send] channel. *)
Definition enqueued (bytes : string) (c c' : Client) : Prop :=
  c' = set_Send {| buf := buf (Send c) ++ [bytes]; cap := cap (Send c);
                   chan_closed := false |} c.

(** A server with three connections: alice and bob in room "site", carol
    in room "lobby". *)
Definition alice : Client := serveWs_client "alice" "site" "".
Definition bob : Client := serveWs_client "bob" "site" "".
Definition carol : Client := serveWs_client "carol" "lobby" "".

Definition one_client : World :=
  {| hub := Run_Register alice 1%positive NewHub;
     heap := <[1%positive := alice]> ∅;
     run_state := Looping |}.

Definition two_clients : World :=
  {| hub := Run_Register bob 2%positive (hub one_client);
     heap := <[2%positive := bob]> (heap one_client);
     run_state := Looping |}.

Definition three_clients : World :=
  {| hub := Run_Register carol 3%positive (hub two_clients);
     heap := <[3%positive := carol]> (heap two_clients);
     run_state := Looping |}.

(** Messages for examples: two from alice with one payload and different
    types and timestamps, and one that names bob as its sender. *)
Definition offer_from_alice : SignalMessage :=
  {| Type_ := Offer; Payload := "{sdp}"; SenderID := "alice"; Timestamp := 1;
     RoomID := "site" |}.

Definition candidate_from_alice : SignalMessage :=
  {| Type_ := IceCandidate; Payload := "{sdp}"; SenderID := "alice"; Timestamp := 2;
     RoomID := "site" |}.

Definition offer_signed_bob : SignalMessage :=
  {| Type_ := Offer; Payload := "{sdp}"; SenderID := "bob"; Timestamp := 1;
     RoomID := "site" |}.

(** A frame that alice's client writes with a payload that is itself a
    message, one that names carol as its sender:
    {"type":0,"payload":"{}","senderId":"carol"}. *)
Definition dq : string := String (Ascii.ascii_of_nat 34) EmptyString.

Definition forged_envelope : string :=
  String.concat dq
    ["{"; "type"; ":0,"; "payload"; ":"; "{}"; ","; "senderId"; ":"; "carol"; "}"].

Definition forged_by_alice : SignalMessage :=
  {| Type_ := Offer; Payload := forged_envelope; SenderID := "carol"; Timestamp := 1;
     RoomID := "site" |}.

(** Two messages that differ at most in the sender id they carry. *)
Definition same_but_sender (m m' : SignalMessage) : Prop :=
  Type_ m = Type_ m' /\ Payload m = Payload m' /\
  Timestamp m = Timestamp m' /\ RoomID m = RoomID m'.

Inductive reachable : World -> Prop :=
| reachable_initial : reachable initial
| reachable_step w w' : reachable w -> step w w' -> reachable w'.

(** No room is empty. *)
Definition rooms_inhabited (w : World) : Prop :=
  forall r room, Rooms (hub w) !! r = Some room -> room <> ∅.

(** No [Send] channel holds more than its capacity, which is 256. *)
Definition buffers_bounded (w : World) : Prop :=
  forall p c, heap w !! p = Some c ->
    (length (buf (Send c)) <= cap (Send c))%nat /\ cap (Send c) = 256%nat.

(** The [Send] channel of every member of a room is open. *)
Definition members_open (w : World) : Prop :=
  forall r room id p c,
    Rooms (hub w) !! r = Some room -> room !! id = Some p -> heap w !! p = Some c ->
    chan_closed (Send c) = false.

(** [n] turns of the loop of [WritePump] on one client, the writes
    succeeding. *)
Fixpoint WritePump_turns (n : nat) (c : Client) : Client :=
  match n with
  | O => c
  | S n' =>
      match WritePump false c with
      | Wrote c' => WritePump_turns n' c'
      | Returned c' => c'
      | Waiting => c
      end
  end.

(** The world after [n] broadcasts of [message], the room's clients taken
    in the order [order] each time, no [WritePump] running in between; the
    broadcasts end when the hub no longer loops. *)
Fixpoint flood (n : nat) (message : SignalMessage) (order : list ptr) (w : World) : World :=
  match n with
  | O => w
  | S n' =>
      let w1 := flood n' message order w in
      match run_state w1 with
      | Looping =>
          {| hub := hub w1;
             heap := (Broadcast_loop message order (heap w1)).1;
             run_state := (Broadcast_loop message order (heap w1)).2 |}
      | _ => w1
      end
  end.

(** alice connects a second time, to the same room, while her first
    connection is still registered. *)
Definition alice_again : World :=
  {| hub := Run_Register alice 4%positive (hub three_clients);
     heap := <[4%positive := alice]> (heap three_clients);
     run_state := Looping |}.

End Hub.

(** * Properties *)

(** ** Facts on [JsMap] *)

Section JsMapFacts.

Context {V : Type}.
Implicit Types (m : JsMap.t V) (k : string) (v : V).

Lemma jsmap_get_set k k' v m :
  JsMap.get k' (JsMap.set k v m) = if decide (k' = k) then Some v else JsMap.get k' m.
Proof.
  induction m as [|[k0 v0] m IH]; simpl.
  - repeat case_decide; congruence.
  - repeat (case_decide; simpl); subst; try congruence.
Qed.

Lemma jsmap_get_delete k k' m :
  JsMap.get k' (JsMap.delete k m) = if decide (k' = k) then None else JsMap.get k' m.
Proof.
  induction m as [|[k0 v0] m IH]; simpl.
  - by case_decide.
  - repeat (case_decide; simpl); subst; try congruence.
Qed.

Lemma jsmap_get_Some_elem k v m : JsMap.get k m = Some v -> (k, v) ∈ m.
Proof.
  induction m as [|[k0 v0] m IH]; simpl; [done|].
  case_decide; intros Hget.
  - injection Hget as ->. subst. left.
  - right. auto.
Qed.

Lemma jsmap_get_None k m : JsMap.get k m = None <-> k ∉ JsMap.keys m.
Proof.
  induction m as [|[k0 v0] m IH]; simpl.
  - split; [intros _; apply not_elem_of_nil | done].
  - rewrite not_elem_of_cons. case_decide; subst.
    + split; [done | intros [? _]; done].
    + rewrite IH. tauto.
Qed.

Lemma jsmap_elem_get k v m : NoDup (JsMap.keys m) -> (k, v) ∈ m -> JsMap.get k m = Some v.
Proof.
  induction m as [|[k0 v0] m IH]; simpl; intros Hnd Hin.
  - by apply elem_of_nil in Hin.
  - apply NoDup_cons in Hnd as [Hk0 Hnd].
    apply elem_of_cons in Hin as [Heq|Hin].
    + injection Heq as -> ->. by rewrite decide_True.
    + rewrite decide_False; [by apply IH|].
      intros ->. apply Hk0. apply (list_elem_of_fmap_2 fst) in Hin. exact Hin.
Qed.

Lemma jsmap_keys_set_present k v m :
  k ∈ JsMap.keys m -> JsMap.keys (JsMap.set k v m) = JsMap.keys m.
Proof.
  induction m as [|[k0 v0] m IH]; simpl; intros Hin.
  - by apply elem_of_nil in Hin.
  - case_decide; subst; simpl; [done|].
    apply elem_of_cons in Hin as [?|Hin]; [done|].
    f_equal. by apply IH.
Qed.

Lemma jsmap_keys_set_absent k v m :
  k ∉ JsMap.keys m -> JsMap.keys (JsMap.set k v m) = JsMap.keys m ++ [k].
Proof.
  induction m as [|[k0 v0] m IH]; simpl; intros Hin; [done|].
  apply not_elem_of_cons in Hin as [? Hin].
  rewrite decide_False by done. simpl. f_equal. by apply IH.
Qed.

Lemma jsmap_keys_delete k m :
  JsMap.keys (JsMap.delete k m) = filter (fun k' => k' ≠ k) (JsMap.keys m).
Proof.
  induction m as [|[k0 v0] m IH]; simpl; [done|].
  rewrite filter_cons. simpl. case_decide; subst.
  - rewrite decide_False by (intros H; by apply H). done.
  - rewrite decide_True by congruence. simpl. by f_equal.
Qed.

Lemma jsmap_NoDup_set k v m : NoDup (JsMap.keys m) -> NoDup (JsMap.keys (JsMap.set k v m)).
Proof.
  intros Hnd. destruct (decide (k ∈ JsMap.keys m)) as [Hin|Hin].
  - by rewrite jsmap_keys_set_present.
  - rewrite jsmap_keys_set_absent by done.
    apply NoDup_app. split; [done|]. split; [|apply NoDup_singleton].
    intros x Hx Hx'. apply list_elem_of_singleton in Hx'. by subst.
Qed.

Lemma jsmap_NoDup_delete k m : NoDup (JsMap.keys m) -> NoDup (JsMap.keys (JsMap.delete k m)).
Proof. intros Hnd. rewrite jsmap_keys_delete. by apply NoDup_filter. Qed.

Lemma jsmap_delete_absent k m : k ∉ JsMap.keys m -> JsMap.delete k m = m.
Proof.
  induction m as [|[k0 v0] m IH]; simpl; intros Hin; [done|].
  apply not_elem_of_cons in Hin as [? Hin].
  rewrite decide_False by done. f_equal. by apply IH.
Qed.

End JsMapFacts.

(** ** The content cache *)

Section CacheFacts.

Import ContentCache.

Lemma blob_size_nonneg content : 0 <= blob_size content.
Proof. unfold blob_size. lia. Qed.

Lemma blob_size_falsy content : truthy content = false -> blob_size content = 0.
Proof. by destruct content. Qed.

Lemma truthy_nonempty content : truthy content = true <-> content <> "".
Proof. destruct content; simpl; split; congruence. Qed.

Lemma sum_sizes_nonneg m : 0 <= sum_sizes m.
Proof.
  induction m as [|[k v] m IH]; simpl; [lia|].
  pose proof (blob_size_nonneg v). lia.
Qed.

Lemma sum_sizes_set k v m :
  sum_sizes (JsMap.set k v m)
  = sum_sizes m - from_option blob_size 0 (JsMap.get k m) + blob_size v.
Proof.
  induction m as [|[k0 v0] m IH]; simpl; [lia|].
  case_decide; simpl; lia.
Qed.

Lemma sum_sizes_delete k m :
  NoDup (JsMap.keys m) ->
  sum_sizes (JsMap.delete k m) = sum_sizes m - from_option blob_size 0 (JsMap.get k m).
Proof.
  induction m as [|[k0 v0] m IH]; simpl; intros Hnd; [lia|].
  apply NoDup_cons in Hnd as [Hk0 Hnd].
  case_decide; subst; simpl.
  - rewrite jsmap_delete_absent by done. lia.
  - rewrite IH by done. lia.
Qed.

Lemma sum_sizes_falsy m :
  (forall k v, (k, v) ∈ m -> truthy v = false) -> sum_sizes m = 0.
Proof.
  induction m as [|[k0 v0] m IH]; simpl; intros Hall; [done|].
  rewrite IH by (intros; eapply Hall; by right).
  rewrite (blob_size_falsy v0); [lia|]. eapply Hall. left.
Qed.

Lemma wf_new C : wf (new C).
Proof. split; [constructor | done]. Qed.

(** What the loop of [evictLRU] does, in sizes: it frees [F] bytes, of the
    entries and of the counter alike, it only removes entries, and it stops
    early only with the required space freed. *)
Lemma evict_loop_sizes l req freed c c' log :
  wf c ->
  evict_loop l req freed c = (c', log) ->
  exists F, 0 <= F /\
    stored_size c' = stored_size c - F /\
    currentSize c' = currentSize c - F /\
    maxSize c' = maxSize c /\
    wf c' /\
    (forall k v, JsMap.get k (entries c') = Some v -> JsMap.get k (entries c) = Some v) /\
    (req <= freed + F \/ forall k, k ∈ l.*1 -> holds_content k c' = false).
Proof.
  revert freed c c' log.
  induction l as [|[url ts] l IH]; intros freed c c' log Hwf Hev; simpl in Hev.
  - injection Hev as <- <-. exists 0. repeat split; try lia; try apply Hwf; auto.
    right. intros k Hk. by apply elem_of_nil in Hk.
  - destruct (JsMap.get url (entries c)) as [content|] eqn:Hget.
    + destruct (truthy content) eqn:Htr.
      * set (c1 := {| maxSize := maxSize c; currentSize := currentSize c - blob_size content;
                      entries := JsMap.delete url (entries c);
                      accessTime := JsMap.delete url (accessTime c) |}) in *.
        assert (Hwf1 : wf c1).
        { destruct Hwf as [Hnd Hk]. split; simpl.
          - by apply jsmap_NoDup_delete.
          - by rewrite !jsmap_keys_delete, Hk. }
        assert (Hs1 : stored_size c1 = stored_size c - blob_size content).
        { unfold stored_size. simpl. rewrite sum_sizes_delete by apply Hwf.
          by rewrite Hget. }
        assert (Hsub1 : forall k v, JsMap.get k (entries c1) = Some v ->
                                    JsMap.get k (entries c) = Some v).
        { intros k v. simpl. rewrite jsmap_get_delete. by case_decide. }
        pose proof (blob_size_nonneg content) as Hnn.
        destruct (freed + blob_size content >=? req) eqn:Hge.
        -- injection Hev as <- <-. exists (blob_size content).
           repeat split; try done; try apply Hwf1. left. lia.
        -- destruct (evict_loop l req (freed + blob_size content) c1) as [c2 log2] eqn:Hrec.
           injection Hev as <- <-.
           destruct (IH _ _ _ _ Hwf1 Hrec) as (F & HF & Hst & Hcs & Hmx & Hwf2 & Hsub & Hend).
           exists (blob_size content + F).
           repeat split; try apply Hwf2; simpl in *; try lia; auto.
           destruct Hend as [Hend|Hend]; [left; lia|right].
           intros k Hk. simpl in Hk. apply elem_of_cons in Hk as [->|Hk]; auto.
           unfold holds_content. simpl.
           destruct (JsMap.get url (entries c2)) as [v|] eqn:Hv; [|done].
           apply Hsub in Hv. simpl in Hv. rewrite jsmap_get_delete in Hv.
           by rewrite decide_True in Hv.
      * destruct (IH _ _ _ _ Hwf Hev) as (F & HF & Hst & Hcs & Hmx & Hwf2 & Hsub & Hend).
        exists F. repeat split; try apply Hwf2; auto.
        destruct Hend as [Hend|Hend]; [by left|right].
        intros k Hk. simpl in Hk. apply elem_of_cons in Hk as [->|Hk]; auto.
        unfold holds_content. simpl.
        destruct (JsMap.get url (entries c')) as [v|] eqn:Hv; [|done].
        apply Hsub in Hv. congruence.
    + destruct (IH _ _ _ _ Hwf Hev) as (F & HF & Hst & Hcs & Hmx & Hwf2 & Hsub & Hend).
      exists F. repeat split; try apply Hwf2; auto.
      destruct Hend as [Hend|Hend]; [by left|right].
      intros k Hk. simpl in Hk. apply elem_of_cons in Hk as [->|Hk]; auto.
      unfold holds_content. simpl.
      destruct (JsMap.get url (entries c')) as [v|] eqn:Hv; [|done].
      apply Hsub in Hv. congruence.
Qed.

Lemma sort_insert_perm x l : sort_insert x l ≡ₚ x :: l.
Proof.
  induction l as [|y l IH]; simpl; [done|].
  destruct (x.2 <=? y.2); [done|].
  rewrite IH. apply Permutation_swap.
Qed.

Lemma sort_by_time_perm l : sort_by_time l ≡ₚ l.
Proof.
  induction l as [|x l IH]; simpl; [done|].
  by rewrite sort_insert_perm, IH.
Qed.

Lemma evictLRU_sizes req c c' log :
  wf c ->
  evictLRU req c = (c', log) ->
  exists F, 0 <= F /\
    stored_size c' = stored_size c - F /\
    currentSize c' = currentSize c - F /\
    maxSize c' = maxSize c /\
    wf c' /\
    (forall k v, JsMap.get k (entries c') = Some v -> JsMap.get k (entries c) = Some v) /\
    (req <= F \/ stored_size c' = 0).
Proof.
  intros Hwf Hev. unfold evictLRU in Hev.
  destruct (evict_loop_sizes _ _ _ _ _ _ Hwf Hev)
    as (F & HF & Hst & Hcs & Hmx & Hwf' & Hsub & Hend).
  exists F. repeat split; try apply Hwf'; auto.
  destruct Hend as [Hend|Hend]; [left; lia|right].
  apply sum_sizes_falsy. intros k v Hin.
  apply jsmap_elem_get in Hin; [|apply Hwf'].
  assert (Hk : k ∈ (sort_by_time (accessTime c)).*1).
  { rewrite sort_by_time_perm. destruct Hwf as [_ Hkeys].
    unfold JsMap.keys in Hkeys. rewrite Hkeys.
    apply Hsub in Hin. apply jsmap_get_Some_elem in Hin.
    by apply (list_elem_of_fmap_2 fst) in Hin. }
  apply Hend in Hk. unfold holds_content in Hk. by rewrite Hin in Hk.
Qed.

Lemma wf_insert url content now c :
  wf c ->
  wf {| maxSize := maxSize c; currentSize := currentSize c + blob_size content;
        entries := JsMap.set url content (entries c);
        accessTime := JsMap.set url now (accessTime c) |}.
Proof.
  intros [Hnd Hk]. split; simpl; [by apply jsmap_NoDup_set|].
  destruct (decide (url ∈ JsMap.keys (entries c))) as [Hin|Hin].
  - rewrite !jsmap_keys_set_present; [done..|]. by rewrite Hk.
  - rewrite !jsmap_keys_set_absent; [by rewrite Hk|done|]. by rewrite Hk.
Qed.

Lemma store_maxSize url content now c : maxSize (store url content now c) = maxSize c.
Proof.
  unfold store, store_insert, store_evict. simpl. destruct (_ >? _); [|done].
  unfold evictLRU. generalize (sort_by_time (accessTime c)) 0.
  intros l. revert c. induction l as [|[u ts] l IH]; intros c freed; simpl; [done|].
  destruct (JsMap.get u (entries c)) as [v|]; [|apply IH].
  destruct (truthy v); [|apply IH].
  destruct (_ >=? _); [done|].
  match goal with |- context [evict_loop l ?r ?f ?c1] =>
    specialize (IH c1 f); destruct (evict_loop l r f c1) end.
  exact IH.
Qed.

Lemma store_bounded url content now c :
  bounded c -> blob_size content <= maxSize c -> bounded (store url content now c).
Proof.
  intros (Hwf & Hcs & Hmx) Hsize.
  pose proof (blob_size_nonneg content) as Hnn.
  assert (Hold : forall m, 0 <= from_option blob_size 0 (JsMap.get url m)).
  { intros m. destruct (JsMap.get url m); simpl; [apply blob_size_nonneg|lia]. }
  unfold store, store_insert, store_evict.
  destruct (currentSize c + blob_size content >? maxSize c) eqn:Hov.
  - destruct (evictLRU (blob_size content) c) as [c1 log] eqn:Hev. simpl.
    destruct (evictLRU_sizes _ _ _ _ Hwf Hev) as (F & HF & Hst & Hc & Hm & Hwf1 & _ & Hend).
    split; [by apply wf_insert|].
    unfold stored_size in *. simpl. rewrite sum_sizes_set.
    specialize (Hold (entries c1)). lia.
  - split; [by apply wf_insert|].
    unfold stored_size in *. simpl. rewrite sum_sizes_set.
    specialize (Hold (entries c)). lia.
Qed.

Lemma get_wf url now c : wf c -> wf (get url now c).2.
Proof.
  intros Hwf. unfold get.
  destruct (JsMap.get url (entries c)) as [content|] eqn:Hget; [|done].
  destruct (truthy content); [|done].
  destruct Hwf as [Hnd Hk]. split; simpl; [done|].
  rewrite jsmap_keys_set_present; [done|]. rewrite Hk.
  apply jsmap_get_Some_elem in Hget. by apply (list_elem_of_fmap_2 fst) in Hget.
Qed.

Lemma get_sizes url now c :
  entries (get url now c).2 = entries c /\
  currentSize (get url now c).2 = currentSize c /\
  maxSize (get url now c).2 = maxSize c.
Proof.
  unfold get. destruct (JsMap.get url (entries c)) as [content|]; [|done].
  by destruct (truthy content).
Qed.

Lemma get_bounded url now c : bounded c -> bounded (get url now c).2.
Proof.
  intros (Hwf & Hcs & Hmx). destruct (get_sizes url now c) as (He & Hc & Hm).
  split; [by apply get_wf|]. unfold stored_size. rewrite He, Hc, Hm. done.
Qed.

Lemma apply_maxSize o c : maxSize (apply o c) = maxSize c.
Proof.
  destruct o as [url content now|url now]; unfold apply;
    [apply store_maxSize | apply (get_sizes url now c)].
Qed.

Lemma run_bounded ops c :
  bounded c -> sizes_within (maxSize c) ops -> bounded (run ops c).
Proof.
  revert c. induction ops as [|o ops IH]; intros c Hb Hs; simpl; [done|].
  apply Forall_cons in Hs as [Ho Hs].
  apply IH.
  - destruct o; simpl; [by apply store_bounded | by apply get_bounded].
  - by rewrite apply_maxSize.
Qed.

Lemma run_maxSize ops c : maxSize (run ops c) = maxSize c.
Proof.
  revert c. induction ops as [|o ops IH]; intros c; simpl; [done|].
  by rewrite IH, apply_maxSize.
Qed.

Lemma store_exact url content now c :
  exact c -> JsMap.get url (entries c) = None -> exact (store url content now c).
Proof.
  intros (Hwf & Hcs) Hfresh. unfold store, store_insert, store_evict.
  destruct (currentSize c + blob_size content >? maxSize c) eqn:Hov.
  - destruct (evictLRU (blob_size content) c) as [c1 log] eqn:Hev. simpl.
    destruct (evictLRU_sizes _ _ _ _ Hwf Hev) as (F & HF & Hst & Hc & Hm & Hwf1 & Hsub & _).
    split; [by apply wf_insert|].
    unfold stored_size in *. simpl. rewrite sum_sizes_set.
    destruct (JsMap.get url (entries c1)) as [v|] eqn:Hv.
    + apply Hsub in Hv. congruence.
    + simpl. lia.
  - split; [by apply wf_insert|].
    unfold stored_size in *. simpl. rewrite sum_sizes_set, Hfresh. simpl. lia.
Qed.

Lemma get_exact url now c : exact c -> exact (get url now c).2.
Proof.
  intros (Hwf & Hcs). destruct (get_sizes url now c) as (He & Hc & Hm).
  split; [by apply get_wf|]. unfold stored_size. by rewrite He, Hc.
Qed.

Lemma run_exact ops c : exact c -> fresh_stores ops c -> exact (run ops c).
Proof.
  revert c. induction ops as [|o ops IH]; intros c He Hf; simpl; [done|].
  destruct Hf as [Ho Hf]. apply IH; [|done].
  destruct o; simpl; [by apply store_exact | by apply get_exact].
Qed.

Lemma sort_insert_sorted x l :
  StronglySorted time_le l -> StronglySorted time_le (sort_insert x l).
Proof.
  induction l as [|y l IH]; intros Hs; simpl.
  - repeat constructor.
  - apply StronglySorted_cons in Hs as [Hy Hs].
    destruct (x.2 <=? y.2) eqn:Hle.
    + apply Z.leb_le in Hle. apply StronglySorted_cons. split.
      * constructor; [done|]. eapply Forall_impl; [exact Hy|].
        intros z Hz. unfold time_le in *. lia.
      * apply StronglySorted_cons. done.
    + apply Z.leb_gt in Hle. apply StronglySorted_cons. split; [|auto].
      rewrite sort_insert_perm. constructor; [|done]. unfold time_le. lia.
Qed.

Lemma sort_by_time_sorted l : StronglySorted time_le (sort_by_time l).
Proof.
  induction l as [|x l IH]; simpl; [constructor|]. by apply sort_insert_sorted.
Qed.

Lemma filter_sorted (f : string * Z -> bool) l :
  StronglySorted time_le l -> StronglySorted time_le (List.filter f l).
Proof.
  induction l as [|x l IH]; intros Hs; simpl; [constructor|].
  apply StronglySorted_cons in Hs as [Hx Hs].
  destruct (f x); [|auto].
  apply StronglySorted_cons. split; [|auto].
  apply Forall_forall. intros y Hy. apply list_elem_of_In, filter_In in Hy as [Hy _].
  rewrite Forall_forall in Hx. apply Hx. by apply list_elem_of_In.
Qed.

Lemma holds_content_delete url k c cs :
  holds_content k {| maxSize := maxSize c; currentSize := cs;
                     entries := JsMap.delete url (entries c);
                     accessTime := JsMap.delete url (accessTime c) |}
  = if decide (k = url) then false else holds_content k c.
Proof. unfold holds_content. simpl. rewrite jsmap_get_delete. by case_decide. Qed.

(** What the loop of [evictLRU] removes: a first part of the entries of
    [sortedEntries] that hold content, in their order, and at least the
    first of them. *)
Lemma evict_loop_log l req freed c c' log :
  NoDup l.*1 ->
  evict_loop l req freed c = (c', log) ->
  exists evicted kept,
    List.filter (fun kv => holds_content kv.1 c) l = evicted ++ kept /\
    log = evicted.*1 /\
    (forall k, JsMap.get k (entries c')
               = if decide (k ∈ log) then None else JsMap.get k (entries c)) /\
    (evicted = [] -> kept = []).
Proof.
  revert freed c c' log.
  induction l as [|[url ts] l IH]; intros freed c c' log Hnd Hev; simpl in Hev.
  - injection Hev as <- <-. exists [], []. repeat split; try done.
  - simpl in Hnd. apply NoDup_cons in Hnd as [Hurl Hnd].
    cbn [List.filter]. unfold holds_content at 1. cbn [fst].
    destruct (JsMap.get url (entries c)) as [content|] eqn:Hget.
    + destruct (truthy content) eqn:Htr.
      * set (c1 := {| maxSize := maxSize c; currentSize := currentSize c - blob_size content;
                      entries := JsMap.delete url (entries c);
                      accessTime := JsMap.delete url (accessTime c) |}) in *.
        assert (Hf : List.filter (fun kv => holds_content kv.1 c1) l
                     = List.filter (fun kv => holds_content kv.1 c) l).
        { apply filter_ext_in. intros [k tk] Hin. cbn [fst].
          unfold c1. rewrite holds_content_delete. rewrite decide_False; [done|].
          intros ->. apply Hurl. apply list_elem_of_In in Hin.
          by apply (list_elem_of_fmap_2 fst) in Hin. }
        destruct (freed + blob_size content >=? req).
        -- injection Hev as <- <-.
           exists [(url, ts)], (List.filter (fun kv => holds_content kv.1 c) l).
           repeat split; try done.
           intros k. simpl. rewrite jsmap_get_delete.
           destruct (decide (k = url)) as [->|Hne].
           ++ rewrite decide_True; [done|]. left.
           ++ rewrite decide_False; [done|]. by rewrite list_elem_of_singleton.
        -- destruct (evict_loop l req (freed + blob_size content) c1) as [c2 log2] eqn:Hrec.
           injection Hev as <- <-.
           destruct (IH _ _ _ _ Hnd Hrec) as (ev & kept & Hfil & -> & Hent & _).
           exists ((url, ts) :: ev), kept. rewrite <- Hf, Hfil.
           repeat split; try done.
           intros k. rewrite Hent. simpl. rewrite jsmap_get_delete.
           destruct (decide (k = url)) as [->|Hne].
           ++ rewrite (decide_True (P := url ∈ url :: ev.*1)); [|left].
              by case_decide.
           ++ destruct (decide (k ∈ ev.*1)) as [Hin|Hin].
              ** rewrite decide_True; [done|]. by right.
              ** rewrite decide_False; [done|]. rewrite not_elem_of_cons. done.
      * apply (IH _ _ _ _ Hnd Hev).
    + apply (IH _ _ _ _ Hnd Hev).
Qed.

Lemma accessTime_NoDup c : wf c -> NoDup (JsMap.keys (accessTime c)).
Proof. intros [Hnd Hk]. by rewrite Hk. Qed.

Lemma sorted_NoDup c : wf c -> NoDup (sort_by_time (accessTime c)).*1.
Proof.
  intros Hwf. rewrite sort_by_time_perm. by apply accessTime_NoDup.
Qed.

Lemma sorted_time c k tk :
  wf c -> (k, tk) ∈ sort_by_time (accessTime c) <-> JsMap.get k (accessTime c) = Some tk.
Proof.
  intros Hwf. rewrite sort_by_time_perm. split.
  - apply jsmap_elem_get. by apply accessTime_NoDup.
  - apply jsmap_get_Some_elem.
Qed.

(** [evictLRU] removes a first part of [eviction_order], never an empty one
    when there is something to remove. *)
Lemma evictLRU_log req c c' log :
  wf c ->
  evictLRU req c = (c', log) ->
  exists evicted kept,
    eviction_order c = evicted ++ kept /\
    log = evicted.*1 /\
    (forall k, JsMap.get k (entries c')
               = if decide (k ∈ log) then None else JsMap.get k (entries c)) /\
    (evicted = [] -> kept = []).
Proof.
  intros Hwf Hev. eapply evict_loop_log; [|exact Hev]. by apply sorted_NoDup.
Qed.

Lemma eviction_order_sorted c : StronglySorted time_le (eviction_order c).
Proof. apply filter_sorted, sort_by_time_sorted. Qed.

Lemma eviction_order_elem c k tk :
  wf c ->
  (k, tk) ∈ eviction_order c <->
  holds_content k c = true /\ JsMap.get k (accessTime c) = Some tk.
Proof.
  intros Hwf. unfold eviction_order.
  rewrite list_elem_of_In, filter_In, <- list_elem_of_In, sorted_time by done.
  simpl. tauto.
Qed.

Lemma eviction_order_NoDup c : wf c -> NoDup (eviction_order c).*1.
Proof.
  intros Hwf. unfold eviction_order.
  pose proof (sorted_NoDup c Hwf) as Hnd.
  induction (sort_by_time (accessTime c)) as [|[k tk] l IH]; simpl; [constructor|].
  simpl in Hnd. apply NoDup_cons in Hnd as [Hk Hnd].
  destruct (holds_content k c); [|auto].
  simpl. apply NoDup_cons. split; [|auto].
  intros Hin. apply Hk. apply list_elem_of_fmap in Hin as ([k' tk'] & -> & Hin).
  apply list_elem_of_In, filter_In in Hin as [Hin _].
  apply list_elem_of_In in Hin. by apply (list_elem_of_fmap_2 fst) in Hin.
Qed.

(** Where the capacity bound does hold, for calls that are awaited.  On a
    cache of capacity [C], after any sequence of [store] and [get] calls,
    each completed before the next is made, in which no stored content is
    larger than [C], the sizes of the entries present sum to at most [C],
    overwrites included; and where no call overwrites a url that is present,
    the recorded [currentSize] is at most [C] too. *)
Theorem stored_size_within_capacity (C : Z) (ops : list op) :
  0 <= C ->
  sizes_within C ops ->
  stored_size (run ops (new C)) <= C /\
  (fresh_stores ops (new C) -> currentSize (run ops (new C)) <= C).
Proof.
  intros HC Hs.
  assert (Hb : bounded (run ops (new C))).
  { apply run_bounded; [|done]. split; [apply wf_new|]. by cbn. }
  destruct Hb as (_ & _ & Hmx). rewrite run_maxSize in Hmx. simpl in Hmx.
  split; [done|]. intros Hf.
  assert (He : exact (run ops (new C))).
  { apply run_exact; [|done]. split; [apply wf_new|done]. }
  destruct He as [_ ->]. done.
Qed.

Lemma stored_size_within_capacity_witness :
  let ops := [Store "/a" "aa" 1; Store "/b" "bbb" 2; Get "/b" 3; Store "/a" "cc" 4] in
  stored_size (run ops (new 4)) <= 4 /\
  (fresh_stores ops (new 4) -> currentSize (run ops (new 4)) <= 4).
Proof.
  intros ops. apply (stored_size_within_capacity 4 ops).
  - lia.
  - repeat constructor; vm_compute; congruence.
Defined.

(** C1.  The stored size does not stay within the capacity.  One [store]
    of five bytes on an empty cache of capacity three finds nothing to evict
    and inserts all the same: five bytes are stored and recorded.  And on a
    cache of capacity four, after a url is stored twice with two bytes, a
    [store] of four bytes leaves the recorded size at six. *)
Theorem store_exceeds_capacity :
  let c := run [Store "/a" "hello" 1] (new 3) in
  let c' := run [Store "/u" "aa" 1; Store "/u" "bb" 2; Store "/v" "cccc" 3] (new 4) in
  (entries c = [("/a", "hello")] /\ stored_size c = 5 /\ currentSize c = 5 /\ maxSize c = 3) /\
  (stored_size c' = 4 /\ currentSize c' = 6 /\ maxSize c' = 4).
Proof. by vm_compute. Qed.

(** C9.  [store] on a url that is present adds the whole new size to
    [currentSize] and takes nothing off for the entry it replaces: after
    [store("/a", "xx")] and [store("/a", "yyy")] on a cache of capacity ten
    the counter says five, and three bytes are held. *)
Theorem store_overwrite_double_counts :
  let c := run [Store "/a" "xx" 1; Store "/a" "yyy" 2] (new 10) in
  entries c = [("/a", "yyy")] /\ stored_size c = 3 /\ currentSize c = 5.
Proof. by vm_compute. Qed.

Lemma store_wf url content now c : wf c -> wf (store url content now c).
Proof.
  intros Hwf. unfold store, store_insert, store_evict.
  destruct (_ >? _); [|by apply wf_insert].
  destruct (evictLRU (blob_size content) c) as [c1 log] eqn:Hev. simpl.
  destruct (evictLRU_sizes _ _ _ _ Hwf Hev) as (F & _ & _ & _ & _ & Hwf1 & _).
  by apply wf_insert.
Qed.

Lemma run_wf ops c : wf c -> wf (run ops c).
Proof.
  revert c. induction ops as [|o ops IH]; intros c Hwf; simpl; [done|].
  apply IH. destruct o; simpl; [by apply store_wf | by apply get_wf].
Qed.

Lemma store_entry url content now c :
  JsMap.get url (entries (store url content now c)) = Some content.
Proof.
  unfold store, store_insert, store_evict. simpl.
  rewrite jsmap_get_set. by rewrite decide_True.
Qed.

Lemma get_hit url content now c :
  JsMap.get url (entries c) = Some content ->
  truthy content = true ->
  get url now c
  = (Some content,
     {| maxSize := maxSize c; currentSize := currentSize c; entries := entries c;
        accessTime := JsMap.set url now (accessTime c) |}).
Proof. intros Hget Htr. unfold get. by rewrite Hget, Htr. Qed.

Lemma get_miss url now c : holds_content url c = false -> get url now c = (None, c).
Proof.
  unfold holds_content, get. destruct (JsMap.get url (entries c)); [|done].
  by intros ->.
Qed.

Lemma get_holds_content url now k c :
  holds_content k (get url now c).2 = holds_content k c.
Proof. unfold holds_content. by rewrite (proj1 (get_sizes url now c)). Qed.

Lemma get_accessTime url now k c :
  JsMap.get k (accessTime (get url now c).2)
  = if decide (k = url) then
      if holds_content url c then Some now else JsMap.get k (accessTime c)
    else JsMap.get k (accessTime c).
Proof.
  unfold get, holds_content.
  destruct (JsMap.get url (entries c)) as [content|]; [|by case_decide].
  destruct (truthy content); simpl; [|by case_decide].
  by rewrite jsmap_get_set.
Qed.

Lemma elem_before_or_after (a b : string) (l : list string) :
  a ∈ l -> b ∈ l -> a = b \/ evicted_before a b l \/ evicted_before b a l.
Proof.
  intros Ha Hb. apply list_elem_of_split in Ha as (l1 & l2 & ->).
  apply elem_of_app in Hb as [Hb|Hb].
  - right. right. apply list_elem_of_split in Hb as (m1 & m2 & ->).
    exists m1, m2, l2. by rewrite <- app_assoc.
  - apply elem_of_cons in Hb as [->|Hb]; [by left|].
    right. left. apply list_elem_of_split in Hb as (m1 & m2 & ->).
    by exists l1, m1, m2.
Qed.

(** The order in which [evictLRU] removes: by access time within the log,
    and before every entry with content that it leaves. *)
Lemma evictLRU_order req c c' log :
  wf c ->
  evictLRU req c = (c', log) ->
  (forall u v tu tv,
      evicted_before u v log ->
      JsMap.get u (accessTime c) = Some tu -> JsMap.get v (accessTime c) = Some tv ->
      tu <= tv) /\
  (forall u v tu tv,
      u ∈ log -> holds_content v c' = true ->
      JsMap.get u (accessTime c) = Some tu -> JsMap.get v (accessTime c) = Some tv ->
      tu <= tv) /\
  (forall a b ta tb,
      a ∈ log -> holds_content b c = true ->
      JsMap.get a (accessTime c) = Some ta -> JsMap.get b (accessTime c) = Some tb ->
      tb < ta ->
      evicted_before b a log).
Proof.
  intros Hwf Hev.
  destruct (evictLRU_log _ _ _ _ Hwf Hev) as (ev & kept & Hord & -> & Hent & _).
  pose proof (eviction_order_sorted c) as Hsorted. rewrite Hord in Hsorted.
  assert (Hin_ev : forall k tk, (k, tk) ∈ ev -> JsMap.get k (accessTime c) = Some tk).
  { intros k tk Hin. eapply (eviction_order_elem c k tk Hwf).
    rewrite Hord. apply elem_of_app. by left. }
  assert (H1 : forall u v tu tv,
      evicted_before u v ev.*1 ->
      JsMap.get u (accessTime c) = Some tu -> JsMap.get v (accessTime c) = Some tv ->
      tu <= tv).
  { intros u v tu tv (l1 & l2 & l3 & Hlog) Hu Hv.
    apply fmap_app_inv in Hlog as (e1 & e2 & -> & He2 & ->).
    symmetry in He2. apply fmap_cons_inv in He2 as ([u' tu'] & e3 & Hu' & He3 & ->).
    simpl in Hu'. subst u'. symmetry in He3.
    apply fmap_app_inv in He3 as (e4 & e5 & -> & He5 & ->).
    symmetry in He5. apply fmap_cons_inv in He5 as ([v' tv'] & e6 & Hv' & -> & ->).
    simpl in Hv'. subst v'.
    assert (tu' = tu) as ->.
    { specialize (Hin_ev u tu'). rewrite Hu in Hin_ev.
      assert (Some tu = Some tu') as [= ->]; [|done].
      apply Hin_ev. apply elem_of_app. right. left. }
    assert (tv' = tv) as ->.
    { specialize (Hin_ev v tv'). rewrite Hv in Hin_ev.
      assert (Some tv = Some tv') as [= ->]; [|done].
      apply Hin_ev. apply elem_of_app. right. right. apply elem_of_app. right. left. }
    apply StronglySorted_app_1_l, StronglySorted_app_1_r in Hsorted.
    apply StronglySorted_cons in Hsorted as [Hall _].
    rewrite Forall_forall in Hall.
    apply (Hall (v, tv)). apply elem_of_app. right. left. }
  assert (H2 : forall u v tu tv,
      u ∈ ev.*1 -> holds_content v c' = true ->
      JsMap.get u (accessTime c) = Some tu -> JsMap.get v (accessTime c) = Some tv ->
      tu <= tv).
  { intros u v tu tv Hu Hv Htu Htv.
    apply list_elem_of_fmap in Hu as ([u' tu'] & -> & Hu). simpl in *.
    rewrite (Hin_ev _ _ Hu) in Htu. injection Htu as ->.
    unfold holds_content in Hv. rewrite Hent in Hv.
    destruct (decide (v ∈ ev.*1)) as [|Hnotin]; [done|].
    assert (Hvin : (v, tv) ∈ eviction_order c).
    { by apply eviction_order_elem. }
    rewrite Hord in Hvin. apply elem_of_app in Hvin as [Hvin|Hvin].
    - exfalso. apply Hnotin. by apply (list_elem_of_fmap_2 fst) in Hvin.
    - apply (StronglySorted_app_1_elem_of _ _ _ _ _ Hsorted Hu Hvin). }
  split; [exact H1|]. split; [exact H2|].
  intros a b ta tb Ha Hb Hta Htb Hlt.
  destruct (decide (b ∈ ev.*1)) as [Hbin|Hbout].
  - destruct (elem_before_or_after a b _ Ha Hbin) as [->|[Hab|Hba]]; [| |done].
    + rewrite Hta in Htb. injection Htb as ->. lia.
    + pose proof (H1 _ _ _ _ Hab Hta Htb). lia.
  - assert (Hb' : holds_content b c' = true).
    { unfold holds_content in *. rewrite Hent. by rewrite decide_False. }
    pose proof (H2 _ _ _ _ Ha Hb' Hta Htb). lia.
Qed.

(** C7 (as amended).  When an insertion finds the cache over capacity,
    [store] inserts after [evictLRU]; [evictLRU] removes entries that hold
    non-empty content, least recent access first: the removals are in the
    order of the access times, and every entry with non-empty content that
    is left was accessed no earlier than any removed one.  In particular,
    after [get(a)] at time [ta] has found [a], [a] is removed only after
    every other entry with non-empty content whose last access is older
    than [ta].  (The cache [c0] below is any cache that calls of [store]
    and [get] build; [c] is the one [get(a)] leaves, which is [c0] itself
    when [a] is not found.) *)
Theorem eviction_least_recent_first
    (C : Z) (ops : list op) (a : string) (ta : Z) (url content : string) (now : Z)
    (c1 : t) (log : list string) :
  let c0 := run ops (new C) in
  let c := (get a ta c0).2 in
  currentSize c + blob_size content > maxSize c ->
  evictLRU (blob_size content) c = (c1, log) ->
  entries (store url content now c) = JsMap.set url content (entries c1) /\
  (forall u v tu tv,
      evicted_before u v log ->
      JsMap.get u (accessTime c) = Some tu -> JsMap.get v (accessTime c) = Some tv ->
      tu <= tv) /\
  (forall u v tu tv,
      u ∈ log -> holds_content v c1 = true ->
      JsMap.get u (accessTime c) = Some tu -> JsMap.get v (accessTime c) = Some tv ->
      tu <= tv) /\
  (holds_content a c0 = true ->
   forall b tb,
     b <> a -> holds_content b c0 = true ->
     JsMap.get b (accessTime c0) = Some tb -> tb < ta ->
     a ∈ log -> evicted_before b a log).
Proof.
  intros c0 c Hover Hev.
  assert (Hwf : wf c) by apply get_wf, run_wf, wf_new.
  destruct (evictLRU_order _ _ _ _ Hwf Hev) as (H1 & H2 & H3).
  split.
  { unfold store, store_insert, store_evict.
    apply Z.gt_lt, Z.gtb_lt in Hover. rewrite Hover, Hev. done. }
  split; [exact H1|]. split; [exact H2|].
  intros Ha b tb Hne Hb Htb Hlt Hin.
  apply (H3 a b ta tb); try done.
  - unfold c. by rewrite get_holds_content.
  - unfold c. rewrite get_accessTime, decide_True by done. by rewrite Ha.
  - unfold c. rewrite get_accessTime, decide_False by done. done.
Qed.

Lemma eviction_least_recent_first_witness :
  let c0 := run [Store "/a" "aa" 1; Store "/b" "bb" 2] (new 4) in
  let c := (get "/a" 3 c0).2 in
  entries (store "/c" "cc" 4 c) = [("/a", "aa"); ("/c", "cc")] /\
  (evictLRU 2 c).2 = ["/b"].
Proof.
  intros c0 c.
  destruct (eviction_least_recent_first 4 [Store "/a" "aa" 1; Store "/b" "bb" 2]
              "/a" 3 "/c" "cc" 4 (evictLRU 2 c).1 (evictLRU 2 c).2) as (Hst & _).
  - by vm_compute.
  - by vm_compute.
  - split; [etransitivity; [exact Hst|]|]; by vm_compute.
Defined.

(** C7, as stated, fails on an older entry whose content is empty:
    [evictLRU] passes over it.  After [store("/a", "xx")], [store("/b", "")]
    and [get("/a")] on a cache of capacity two, [store("/c", "yy")] evicts
    "/a", accessed at 3, and leaves "/b", last accessed at 2. *)
Lemma eviction_skips_older_empty_entry :
  let c := run [Store "/a" "xx" 1; Store "/b" "" 2; Get "/a" 3] (new 2) in
  JsMap.get "/a" (accessTime c) = Some 3 /\
  JsMap.get "/b" (accessTime c) = Some 2 /\
  currentSize c + blob_size "yy" > maxSize c /\
  (evictLRU (blob_size "yy") c).2 = ["/a"] /\
  JsMap.get "/a" (entries (store "/c" "yy" 4 c)) = None /\
  JsMap.get "/b" (entries (store "/c" "yy" 4 c)) = Some "".
Proof. by vm_compute. Qed.

(** C4 (as amended).  On every cache that calls of [store] and [get]
    have built, for every url and every non-empty content, [get(url)]
    right after the completed [store(url, content)] returns [content] and
    stamps the entry with the time of the [get]; the next eviction then
    starts with another entry, one accessed before that time, whenever an
    entry with non-empty content accessed before that time is present. *)
Theorem get_after_store (C : Z) (ops : list op) (url content : string) (t1 t2 : Z) :
  content <> "" ->
  let c := run ops (new C) in
  let c1 := store url content t1 c in
  let c2 := (get url t2 c1).2 in
  (get url t2 c1).1 = Some content /\
  JsMap.get url (accessTime c2) = Some t2 /\
  (forall v tv req c3 log,
      holds_content v c2 = true ->
      JsMap.get v (accessTime c2) = Some tv -> tv < t2 ->
      evictLRU req c2 = (c3, log) ->
      exists w tw rest,
        log = w :: rest /\ w <> url /\
        JsMap.get w (accessTime c2) = Some tw /\ tw <= tv).
Proof.
  intros Hne c c1 c2.
  assert (Hwf : wf c) by apply run_wf, wf_new.
  apply truthy_nonempty in Hne.
  pose proof (store_entry url content t1 c) as Hent. fold c1 in Hent.
  pose proof (get_hit url content t2 c1 Hent Hne) as Hget.
  assert (Hwf2 : wf c2) by (apply get_wf; by apply store_wf).
  assert (Ht2 : JsMap.get url (accessTime c2) = Some t2).
  { unfold c2. rewrite Hget. simpl. rewrite jsmap_get_set. by rewrite decide_True. }
  split; [by rewrite Hget|]. split; [done|].
  intros v tv req c3 log Hv Htv Hlt Hev.
  destruct (evictLRU_log _ _ _ _ Hwf2 Hev) as (ev & kept & Hord & -> & _ & Hfirst).
  assert (Hvin : (v, tv) ∈ eviction_order c2) by by apply eviction_order_elem.
  pose proof (eviction_order_sorted c2) as Hsorted.
  rewrite Hord in Hvin, Hsorted.
  destruct ev as [|[w tw] ev].
  { rewrite Hfirst in Hvin by done. by apply elem_of_nil in Hvin. }
  assert (Hw : JsMap.get w (accessTime c2) = Some tw).
  { eapply (eviction_order_elem c2 w tw Hwf2). rewrite Hord. left. }
  assert (Hle : tw <= tv).
  { simpl in Hvin, Hsorted. apply elem_of_cons in Hvin as [[= -> ->]|Hvin]; [lia|].
    apply StronglySorted_cons in Hsorted as [Hall _].
    rewrite Forall_forall in Hall. apply (Hall _ Hvin). }
  exists w, tw, ev.*1. repeat split; try done.
  intros ->. rewrite Ht2 in Hw. injection Hw as ->. lia.
Qed.

Lemma get_after_store_witness :
  let c := run [Store "/old" "oo" 1] (new 10) in
  (get "/a" 3 (store "/a" "hello" 2 c)).1 = Some "hello" /\
  JsMap.get "/a" (accessTime (get "/a" 3 (store "/a" "hello" 2 c)).2) = Some 3.
Proof.
  intros c.
  destruct (get_after_store 10 [Store "/old" "oo" 1] "/a" "hello" 2 3) as (Hr & Ht & _).
  - discriminate.
  - split; [exact Hr | exact Ht].
Defined.

(** A [get] made while [store] is still at its [await] comes too early:
    the eviction is done, the insertion is not. *)
Lemma get_before_store_completes :
  let c := run [Store "/old" "oooo" 1] (new 4) in
  (get "/a" 3 (store_evict "aa" c)).1 = None /\
  (get "/a" 3 (store "/a" "aa" 2 c)).1 = Some "aa".
Proof. by vm_compute. Qed.

(** C4, as stated, fails for the empty content: [get] takes the stored
    empty string for an absent entry and returns [null]. *)
Lemma get_after_store_empty_content :
  (get "/a" 2 (store "/a" "" 1 (new 10))).1 = None /\
  (get "/a" 2 (store "/a" "" 1 (new 10))).1 <> Some "".
Proof. split; [by vm_compute | discriminate]. Qed.

End CacheFacts.

(** ** The request resolver and the signaling handlers *)

Section ClientFacts.

Import DeployNetClient.

Variable env : Env.

Lemma validated_new C : ContentCache.validated (ContentCache.new C).
Proof. split; [apply wf_new | done]. Qed.

Lemma validated_get url now c :
  ContentCache.validated c -> ContentCache.validated (ContentCache.get url now c).2.
Proof.
  intros [Hwf Hall]. split; [by apply get_wf|].
  by rewrite (proj1 (get_sizes url now c)).
Qed.

Lemma validated_store url content now c :
  ContentCache.validated c -> ContentCache.truthy content = true ->
  ContentCache.validated (ContentCache.store url content now c).
Proof.
  intros [Hwf Hall] Htr. split; [by apply store_wf|].
  intros k v.
  unfold ContentCache.store, ContentCache.store_insert, ContentCache.store_evict.
  simpl. rewrite jsmap_get_set.
  case_decide; [by intros [= <-]|].
  destruct (_ >? _); [|apply Hall].
  destruct (ContentCache.evictLRU (ContentCache.blob_size content) c) as [c1 log] eqn:Hev.
  destruct (evictLRU_sizes _ _ _ _ Hwf Hev) as (F & _ & _ & _ & _ & _ & Hsub & _).
  simpl. intros Hv. apply Hsub in Hv. by apply Hall in Hv.
Qed.

Lemma requestFromPeers_loop_accepted replies url ps s content peerId effs :
  requestFromPeers_loop replies url ps s = (Accepted content peerId, effs) ->
  ContentCache.truthy content = true.
Proof.
  revert effs. induction ps as [|p ps IH]; intros effs; simpl; [done|].
  destruct (requestFromPeers_loop replies url ps s) as [r effs'].
  destruct (replies p) as [|[c|]|].
  - intros [= -> _]. by eapply IH.
  - simpl. destruct (ContentCache.truthy c) eqn:Htr.
    + by intros [= <- _ _].
    + intros [= -> _]. by eapply IH.
  - intros [= -> _]. by eapply IH.
  - done.
Qed.

Lemma requestFromPeers_accepted replies url s content peerId effs :
  requestFromPeers replies url s = (Accepted content peerId, effs) ->
  ContentCache.truthy content = true.
Proof.
  unfold requestFromPeers. case_decide; [done|].
  apply requestFromPeers_loop_accepted.
Qed.

Lemma interceptRequest_validated url now now' replies originalFetch s :
  ContentCache.validated (cache s) ->
  ContentCache.validated
    (cache (interceptRequest env url now now' replies originalFetch s).1.2).
Proof.
  intros Hval. unfold interceptRequest.
  pose proof (validated_get url now _ Hval) as Hval1.
  destruct (ContentCache.get url now (cache s)) as [[content|] cache1]; simpl in *; [done|].
  destruct (requestFromPeers replies url (set_cache cache1 s)) as [[c p| |] effs] eqn:Hp;
    simpl; [|done|done].
  apply validated_store; [done|]. by eapply requestFromPeers_accepted.
Qed.

Lemma cleanupPeerConnection_cache peerId s : cache (cleanupPeerConnection peerId s) = cache s.
Proof.
  unfold cleanupPeerConnection. simpl.
  destruct (JsMap.get peerId (peerConnections s)); simpl;
    match goal with |- context [JsMap.get ?k ?m] => destruct (JsMap.get k m) end; done.
Qed.

Lemma handleSignalingMessage_cache io message s :
  cache (handleSignalingMessage env io message s).1 = cache s.
Proof.
  assert (Hd : cache (handlePeerDiscovery env io message s).1 = cache s).
  { unfold handlePeerDiscovery. destruct (JSON_parse env (payload message)); [|done].
    destruct (_ <? _); [|done].
    unfold initiatePeerConnection. destruct (JsMap.has _ _); [done|].
    destruct (createOffer_result io); [done|]. cbn [fst].
    by rewrite cleanupPeerConnection_cache. }
  assert (Ho : cache (handleOffer env io message s).1 = cache s).
  { unfold handleOffer. by destruct (JSON_parse env (payload message)). }
  assert (Ha : cache (handleAnswer env message s).1 = cache s).
  { unfold handleAnswer, pc_call. destruct (JSON_parse env (payload message)); [|done].
    by destruct (JsMap.get _ _). }
  assert (Hi : cache (handleIceCandidate env message s).1 = cache s).
  { unfold handleIceCandidate. destruct (JSON_parse env (payload message)); [|done].
    by destruct (JsMap.get _ _). }
  unfold handleSignalingMessage, handlePeerRegistered.
  destruct (type message) as [|p|p]; [done| |done].
  do 3 (try destruct p as [p|p|]); done.
Qed.

Lemma step_validated e s :
  ContentCache.validated (cache s) -> ContentCache.validated (cache (step env e s).1).
Proof.
  intros Hval.
  destruct e as [io message|peerId|peerId|peerId m now|peerId|url now now' replies originalFetch
                |io registration|io candidate];
    unfold step; cbn [fst]; [| | | | | |done|done].
  - by rewrite handleSignalingMessage_cache.
  - done.
  - done.
  - destruct m as [url requester|]; cbn [handlePeerMessage fst]; [|done].
    unfold handleContentRequest.
    pose proof (validated_get url now _ Hval) as Hval1.
    destruct (ContentCache.get url now (cache s)) as [[content|] cache1]; done.
  - by rewrite cleanupPeerConnection_cache.
  - pose proof (interceptRequest_validated url now now' replies originalFetch s Hval) as H.
    by destruct (interceptRequest env url now now' replies originalFetch s) as [[r s'] effs].
Qed.

(** The client only ever stores content that passed [validateContent]. *)
Lemma reachable_validated s : reachable env s -> ContentCache.validated (cache s).
Proof.
  induction 1 as [| e s Hs IH]; [apply validated_new | by apply step_validated].
Qed.

(** C8.  In every state the client reaches, a request for a url that has
    an entry in the cache is answered from it: the response carries the
    cached content and the header X-DeployNet-Source: cache, nothing is sent
    to a peer, the origin is not fetched, and the entries and the recorded
    size of the cache stay as they are. *)
Theorem cached_url_served_from_cache
    (s : t) (url content : string) (now now' : Z)
    (replies : string -> reply) (originalFetch : string -> option Response) :
  reachable env s ->
  JsMap.get url (ContentCache.entries (cache s)) = Some content ->
  exists response s',
    interceptRequest env url now now' replies originalFetch s
    = (Resolved response FromCache, s', []) /\
    body response = content /\
    ("X-DeployNet-Source", "cache") ∈ headers response /\
    ContentCache.entries (cache s') = ContentCache.entries (cache s) /\
    ContentCache.currentSize (cache s') = ContentCache.currentSize (cache s).
Proof.
  intros Hreach Hget.
  destruct (reachable_validated s Hreach) as [_ Hall].
  pose proof (Hall _ _ Hget) as Htr.
  unfold interceptRequest. rewrite (get_hit url content now _ Hget Htr).
  eexists _, _. split; [reflexivity|]. simpl.
  repeat split; try done. right. left.
Qed.

(** A request answered from the cache leaves the entries and the recorded
    size alone. *)
Lemma interceptRequest_cache_tier url now now' replies originalFetch s response s' effs :
  interceptRequest env url now now' replies originalFetch s
  = (Resolved response FromCache, s', effs) ->
  ContentCache.entries (cache s') = ContentCache.entries (cache s) /\
  ContentCache.currentSize (cache s') = ContentCache.currentSize (cache s).
Proof.
  unfold interceptRequest.
  pose proof (get_sizes url now (cache s)) as (He & Hc & _).
  destruct (ContentCache.get url now (cache s)) as [[content|] cache1]; simpl in *.
  - by intros [= _ <- _].
  - destruct (requestFromPeers replies url (set_cache cache1 s)) as [[c p| |] effs'];
      [done| |done].
    by destruct (originalFetch url).
Qed.

(** A request that goes to the origin leaves the cache as it was, so the
    url is still not held. *)
Lemma interceptRequest_origin_cache url now now' replies originalFetch s response s' effs :
  interceptRequest env url now now' replies originalFetch s
  = (Resolved response FromOrigin, s', effs) ->
  cache s' = cache s /\ ContentCache.holds_content url (cache s') = false.
Proof.
  unfold interceptRequest.
  destruct (ContentCache.holds_content url (cache s)) eqn:Hh.
  - unfold ContentCache.holds_content in Hh.
    destruct (JsMap.get url (ContentCache.entries (cache s))) as [content|] eqn:Hget; [|done].
    by rewrite (get_hit url content now _ Hget Hh).
  - rewrite get_miss by done.
    destruct (requestFromPeers replies url (set_cache (cache s) s)) as [[c p| |] effs'];
      [done| |done].
    destruct (originalFetch url); [|done]. intros [= _ <- _]. done.
Qed.

(** C3.  On a client with an empty cache and no peers, a request for
    "/a.js" is resolved by the origin fetch, and the cache is still empty
    afterwards: the same request made again goes to the origin again. *)
Theorem origin_result_is_not_cached :
  let s := new "site" 5 100 "client-a" in
  let origin := fun _ : string => Some {| body := "hello"; status := 200; headers := [] |} in
  let '(resolution, s', effs) := interceptRequest env "/a.js" 1 2 (fun _ => TimedOut) origin s in
  resolution = Resolved {| body := "hello"; status := 200; headers := [] |} FromOrigin /\
  effs = [OriginalFetch "/a.js"] /\
  ContentCache.entries (cache s') = [] /\
  (interceptRequest env "/a.js" 3 4 (fun _ => TimedOut) origin s').2 = [OriginalFetch "/a.js"].
Proof. by vm_compute. Qed.

Lemma handleSignalingMessages_app pre post s :
  handleSignalingMessages env (pre ++ post) s
  = handleSignalingMessages env post (handleSignalingMessages env pre s).
Proof. unfold handleSignalingMessages. apply foldl_app. Qed.

(** C6 (as amended).  An IceCandidate whose sender has a peer connection
    is handed to that connection's [addIceCandidate] at once, whatever
    calls the connection has seen; an IceCandidate whose sender has none is
    dropped: the session goes on exactly as if it had not arrived. *)
Theorem ice_candidate_applied_at_once_or_dropped
    (pre post : list (Browser * SignalMessage)) (io : Browser) (m : SignalMessage)
    (candidate : string) (s : t) :
  type m = 2 ->
  JSON_parse env (payload m) = Some candidate ->
  let s1 := handleSignalingMessages env pre s in
  (forall pc,
      JsMap.get (senderId m) (peerConnections s1) = Some pc ->
      JsMap.get (senderId m) (peerConnections (handleSignalingMessage env io m s1).1)
      = Some (pc ++ [addIceCandidate candidate])) /\
  (JsMap.get (senderId m) (peerConnections s1) = None ->
   handleSignalingMessages env (pre ++ (io, m) :: post) s
   = handleSignalingMessages env (pre ++ post) s).
Proof.
  intros Hty Hparse s1. split.
  - intros pc Hpc. unfold handleSignalingMessage. rewrite Hty.
    unfold handleIceCandidate. rewrite Hparse, Hpc. simpl.
    rewrite jsmap_get_set. by rewrite decide_True.
  - intros Hnone. rewrite !handleSignalingMessages_app. fold s1.
    unfold handleSignalingMessages at 1. simpl.
    unfold handleSignalingMessage at 2. rewrite Hty.
    unfold handleIceCandidate. by rewrite Hparse, Hnone.
Qed.

End ClientFacts.

Section ClientExamples.

Import DeployNetClient.

Lemma cached_url_served_from_cache_witness :
  let s0 := new "site" 5 100 "client-a" in
  let s1 := (step plain_env (onSignalingMessage plain_browser (from_peer_b 3 "{}").2) s0).1 in
  let s2 := (step plain_env
               (onFetch "/a.js" 1 2 (fun _ => Replied (Some "hello")) (fun _ => None)) s1).1 in
  exists response s',
    interceptRequest plain_env "/a.js" 3 4 (fun _ => TimedOut) (fun _ => None) s2
    = (Resolved response FromCache, s', []) /\
    body response = "hello" /\
    ("X-DeployNet-Source", "cache") ∈ headers response /\
    ContentCache.entries (cache s') = ContentCache.entries (cache s2) /\
    ContentCache.currentSize (cache s') = ContentCache.currentSize (cache s2).
Proof.
  intros s0 s1 s2.
  apply (cached_url_served_from_cache plain_env s2 "/a.js" "hello").
  - apply reachable_step, reachable_step, reachable_new.
  - by vm_compute.
Defined.

(** C6, as stated, fails: of the sequence IceCandidate, Offer,
    IceCandidate, Answer from one peer, the first candidate finds no
    connection and is dropped; the connection the Offer creates gets a
    remote description and the second candidate, never the first. *)
Lemma early_ice_candidate_is_lost :
  let s := handleSignalingMessages plain_env
             [from_peer_b 2 "candidate-1"; from_peer_b 0 "offer";
              from_peer_b 2 "candidate-2"; from_peer_b 1 "answer"]
             (new "site" 5 100 "client-a") in
  JsMap.get "peer-b" (peerConnections s)
  = Some [setRemoteDescription "offer"; createAnswer; setLocalDescription "answer-sdp";
          addIceCandidate "candidate-2"; setRemoteDescription "answer"] /\
  s = handleSignalingMessages plain_env
        [from_peer_b 0 "offer"; from_peer_b 2 "candidate-2"; from_peer_b 1 "answer"]
        (new "site" 5 100 "client-a").
Proof. by vm_compute. Qed.

(** A candidate that arrives after the client's own offer and before the
    answer is applied to a connection that has no remote description. *)
Lemma ice_candidate_applied_without_remote_description :
  let s := handleSignalingMessages plain_env
             [from_peer_b 3 "{}"; from_peer_b 2 "candidate-1"]
             (new "site" 5 100 "client-a") in
  JsMap.get "peer-b" (peerConnections s)
  = Some [createDataChannel "deploy-peer-b"; createOffer; setLocalDescription "offer-sdp";
          addIceCandidate "candidate-1"].
Proof. by vm_compute. Qed.

Lemma ice_candidate_applied_at_once_or_dropped_witness :
  let s := new "site" 5 100 "client-a" in
  let s1 := handleSignalingMessages plain_env [from_peer_b 0 "offer"] s in
  JsMap.get "peer-b"
    (peerConnections
       (handleSignalingMessage plain_env plain_browser (from_peer_b 2 "candidate-2").2 s1).1)
  = Some ([setRemoteDescription "offer"; createAnswer; setLocalDescription "answer-sdp"]
          ++ [addIceCandidate "candidate-2"]).
Proof.
  intros s s1.
  apply (ice_candidate_applied_at_once_or_dropped plain_env
           [from_peer_b 0 "offer"] [from_peer_b 1 "answer"] plain_browser
           (from_peer_b 2 "candidate-2").2 "candidate-2" s).
  - reflexivity.
  - reflexivity.
  - by vm_compute.
Defined.

End ClientExamples.

(** ** The relay hub *)

Section HubFacts.

Import Hub.

Lemma Broadcast_one_Sent message c c' :
  Broadcast_one message c = Sent c' ->
  ID c <> SenderID message /\ chan_closed (Send c) = false /\
  enqueued (Payload message) c c'.
Proof.
  unfold Broadcast_one, enqueued.
  case_decide; [|done]. destruct (chan_closed (Send c)); [done|].
  case_decide; [|done]. by intros [= <-].
Qed.

(** The loop of the Broadcast case, over an order that names no client
    twice: a client of the heap is left as it is, or it is in the order and
    one send to it succeeded; no client appears or disappears. *)
Lemma Broadcast_loop_heap message order heap :
  NoDup order ->
  forall p,
    match heap !! p with
    | Some c =>
        (Broadcast_loop message order heap).1 !! p = Some c \/
        exists c', p ∈ order /\ Broadcast_one message c = Sent c' /\
                   (Broadcast_loop message order heap).1 !! p = Some c'
    | None => (Broadcast_loop message order heap).1 !! p = None
    end.
Proof.
  revert heap. induction order as [|p0 order IH]; intros heap Hnd p; simpl.
  - destruct (heap !! p); auto.
  - apply NoDup_cons in Hnd as [Hp0 Hnd].
    assert (Hsame : match heap !! p with
                    | Some c => heap !! p = Some c \/
                                exists c', p ∈ p0 :: order /\
                                  Broadcast_one message c = Sent c' /\ heap !! p = Some c'
                    | None => heap !! p = None
                    end).
    { destruct (heap !! p); auto. }
    assert (Hrec : match heap !! p with
                   | Some c =>
                       (Broadcast_loop message order heap).1 !! p = Some c \/
                       exists c', p ∈ p0 :: order /\ Broadcast_one message c = Sent c' /\
                                  (Broadcast_loop message order heap).1 !! p = Some c'
                   | None => (Broadcast_loop message order heap).1 !! p = None
                   end).
    { specialize (IH heap Hnd p). destruct (heap !! p); [|done].
      destruct IH as [?|(c' & ? & ? & ?)]; [by left|right].
      exists c'. split; [by right|done]. }
    destruct (heap !! p0) as [c0|] eqn:Hc0; [|exact Hrec].
    destruct (Broadcast_one message c0) as [|c0'| |] eqn:Hone;
      [exact Hrec| |exact Hsame|exact Hsame].
    specialize (IH (<[p0 := c0']> heap) Hnd p).
    destruct (decide (p = p0)) as [->|Hne].
    + rewrite lookup_insert_eq in IH. rewrite Hc0. right. exists c0'.
      split; [left|]. split; [done|].
      destruct IH as [?|(c' & Hin & _)]; done.
    + rewrite lookup_insert_ne in IH by done.
      destruct (heap !! p); [|done].
      destruct IH as [?|(c' & ? & ? & ?)]; [by left|right].
      exists c'. split; [by right|done].
Qed.

Lemma wf_room_order w r room :
  wf w -> Rooms (hub w) !! r = Some room -> NoDup (map_to_list room).*2.
Proof.
  intros Hwf Hroom. apply NoDup_fmap_2_strong; [|apply NoDup_map_to_list].
  intros [id1 p1] [id2 p2] Hin1 Hin2. simpl. intros <-.
  apply elem_of_map_to_list in Hin1, Hin2.
  destruct (Hwf _ _ _ _ Hroom Hin1) as (c1 & Hc1 & <- & _).
  destruct (Hwf _ _ _ _ Hroom Hin2) as (c2 & Hc2 & <- & _).
  congruence.
Qed.

(** What the Broadcast case of [Hub.Run] does to the clients. *)
Lemma Run_Broadcast_heap w w' message p c :
  wf w ->
  Run (fromBroadcast message) w w' ->
  heap w !! p = Some c ->
  hub w' = hub w /\
  (heap w' !! p = Some c \/
   exists c', heap w' !! p = Some c' /\
     registered_in w (RoomID message) p /\
     Client_RoomID c = RoomID message /\
     ID c <> SenderID message /\
     enqueued (Payload message) c c').
Proof.
  intros Hwf Hrun Hc. inversion Hrun as [| | |m room order w0 Hst Hroom Hperm|]; subst; simpl.
  - split; [done|].
    assert (Hnd : NoDup order).
    { rewrite Hperm. by eapply wf_room_order. }
    pose proof (Broadcast_loop_heap message order (heap w) Hnd p) as Hloop.
    rewrite Hc in Hloop. destruct Hloop as [?|(c' & Hin & Hone & Hc')]; [by left|right].
    exists c'. split; [done|].
    rewrite Hperm in Hin. apply list_elem_of_fmap in Hin as ([id p'] & -> & Hin).
    apply elem_of_map_to_list in Hin. simpl in *.
    destruct (Hwf _ _ _ _ Hroom Hin) as (c1 & Hc1 & _ & Hr).
    assert (c1 = c) as -> by congruence.
    apply Broadcast_one_Sent in Hone as (Hid & _ & Henq).
    split; [by exists room, id|]. done.
  - split; [done|by left].
Qed.

(** [wf] only reads the [ID] and the room id of the clients, which nothing
    changes. *)
Lemma wf_heap_change w w' :
  wf w ->
  hub w' = hub w ->
  (forall p c, heap w !! p = Some c ->
     exists c', heap w' !! p = Some c' /\ ID c' = ID c /\ Client_RoomID c' = Client_RoomID c) ->
  wf w'.
Proof.
  intros Hwf Hhub Hheap r room id p Hroom Hid. rewrite Hhub in Hroom.
  destruct (Hwf _ _ _ _ Hroom Hid) as (c & Hc & <- & <-).
  destruct (Hheap _ _ Hc) as (c' & Hc' & ? & ?). by exists c'.
Qed.

Lemma wf_Run_Register w p client :
  wf w -> heap w !! p = Some client ->
  wf {| hub := Run_Register client p (hub w); heap := heap w; run_state := Looping |}.
Proof.
  intros Hwf Hp r room id q. unfold Run_Register. simpl.
  set (rooms1 := match Rooms (hub w) !! Client_RoomID client with
                 | Some _ => Rooms (hub w)
                 | None => <[Client_RoomID client := ∅]> (Rooms (hub w))
                 end).
  destruct (decide (r = Client_RoomID client)) as [->|Hr].
  - rewrite lookup_insert_eq. intros [= <-].
    destruct (decide (id = ID client)) as [->|Hid].
    + rewrite lookup_insert_eq. intros [= <-]. by exists client.
    + rewrite lookup_insert_ne by done. unfold rooms1.
      destruct (Rooms (hub w) !! Client_RoomID client) as [room|] eqn:Hroom.
      * rewrite Hroom. simpl. by apply Hwf.
      * rewrite lookup_insert_eq. simpl. by rewrite lookup_empty.
  - rewrite lookup_insert_ne by done. unfold rooms1.
    destruct (Rooms (hub w) !! Client_RoomID client) eqn:Hroom.
    + by apply Hwf.
    + rewrite lookup_insert_ne by done. by apply Hwf.
Qed.

Lemma wf_Run_Unregister w client h' :
  wf w -> Run_Unregister client (hub w) = Some h' ->
  wf {| hub := h'; heap := heap w; run_state := run_state w |}.
Proof.
  intros Hwf. unfold Run_Unregister.
  destruct (Clients (hub w) !! ID client); [|done]. intros [= <-].
  intros r room id q. simpl.
  destruct (Rooms (hub w) !! Client_RoomID client) as [room0|] eqn:Hroom0; [|by apply Hwf].
  case_decide.
  - destruct (decide (r = Client_RoomID client)) as [->|Hr].
    + by rewrite lookup_delete_eq.
    + rewrite lookup_delete_ne by done. by apply Hwf.
  - destruct (decide (r = Client_RoomID client)) as [->|Hr].
    + rewrite lookup_insert_eq. intros [= <-].
      destruct (decide (id = ID client)) as [->|Hid].
      * by rewrite lookup_delete_eq.
      * rewrite lookup_delete_ne by done. by apply Hwf.
    + rewrite lookup_insert_ne by done. by apply Hwf.
Qed.

Lemma wf_Run ev w w' : wf w -> Run ev w w' -> wf w'.
Proof.
  intros Hwf Hrun.
  destruct Hrun as [p client w Hst Hp|p client h' w Hst Hp Hun|p client w Hst Hp Hun
                   |message room order w Hst Hroom Hperm|message w Hst Hroom].
  - by apply wf_Run_Register.
  - pose proof (wf_Run_Unregister _ _ _ Hwf Hun) as Hwf'.
    destruct (chan_closed (Send client)).
    + eapply wf_heap_change; [exact Hwf'|done|]. simpl. eauto.
    + eapply wf_heap_change; [exact Hwf'|done|]. simpl. intros q c Hq.
      destruct (decide (q = p)) as [->|Hne].
      * rewrite lookup_insert_eq. assert (c = client) as -> by congruence. by eexists.
      * rewrite lookup_insert_ne by done. eauto.
  - done.
  - eapply wf_heap_change; [exact Hwf|done|]. simpl. intros q c Hq.
    assert (Hrun : Run (fromBroadcast message) w
                     {| hub := hub w;
                        heap := (Broadcast_loop message order (heap w)).1;
                        run_state := (Broadcast_loop message order (heap w)).2 |})
      by by econstructor.
    destruct (Run_Broadcast_heap _ _ _ _ _ Hwf Hrun Hq) as [_ [H|(c' & H & _ & _ & _ & ->)]];
      simpl in H; eauto.
  - done.
Qed.

Lemma wf_step w w' : wf w -> step w w' -> wf w'.
Proof.
  intros Hwf Hstep.
  destruct Hstep as [id room generated p w w' Hfresh Hrun|p c r ev w w' Hp Hr Hrun
                    |p c err c' w Hp Hpump].
  - eapply wf_Run; [|exact Hrun].
    eapply wf_heap_change; [exact Hwf|done|]. simpl. intros q c Hq.
    exists c. rewrite lookup_insert_ne; [done|]. congruence.
  - by eapply wf_Run.
  - eapply wf_heap_change; [exact Hwf|done|]. simpl. intros q d Hq.
    destruct (decide (q = p)) as [->|Hne].
    + rewrite lookup_insert_eq. assert (d = c) as -> by congruence.
      exists c'. split; [done|]. unfold WritePump in Hpump.
      destruct (buf (Send c)); [destruct (chan_closed (Send c))|destruct err];
        simpl in Hpump; by simplify_eq.
    + rewrite lookup_insert_ne by done. eauto.
Qed.

(** Every world the server reaches is well formed. *)
Lemma reachable_wf w : reachable w -> wf w.
Proof.
  induction 1 as [|w w' _ IH Hstep]; [|by eapply wf_step].
  intros r room id p. simpl. by rewrite lookup_empty.
Qed.

Lemma three_clients_reachable : reachable three_clients.
Proof.
  assert (H1 : reachable one_client).
  { eapply reachable_step; [apply reachable_initial|].
    apply (step_serveWs "alice" "site" "" 1%positive initial one_client); [done|].
    by apply (Run_case_Register 1%positive alice). }
  assert (H2 : reachable two_clients).
  { eapply reachable_step; [exact H1|].
    apply (step_serveWs "bob" "site" "" 2%positive one_client two_clients); [done|].
    by apply (Run_case_Register 2%positive bob). }
  eapply reachable_step; [exact H2|].
  apply (step_serveWs "carol" "lobby" "" 3%positive two_clients three_clients); [done|].
  by apply (Run_case_Register 3%positive carol).
Qed.

(** C2.  When the hub takes a SignalMessage from its Broadcast channel,
    every client is left as it was, or it is registered in the room the
    message names, its own room id is that room, its id differs from the
    sender id of the message, and the payload of the message was added to
    its Send channel.  So the sender, and the clients of other rooms,
    receive nothing. *)
Theorem broadcast_delivery_confined
    (w w' : World) (message : SignalMessage) (p : ptr) (c c' : Client) :
  reachable w ->
  Run (fromBroadcast message) w w' ->
  heap w !! p = Some c ->
  heap w' !! p = Some c' ->
  c' = c \/
  (registered_in w (RoomID message) p /\
   Client_RoomID c = RoomID message /\
   ID c <> SenderID message /\
   enqueued (Payload message) c c').
Proof.
  intros Hwf%reachable_wf Hrun Hc Hc'.
  destruct (Run_Broadcast_heap _ _ _ _ _ Hwf Hrun Hc) as [_ [H|(c1 & H & Hrest)]].
  - left. congruence.
  - right. assert (c1 = c') as -> by congruence. exact Hrest.
Qed.

Lemma broadcast_delivery_confined_witness :
  let room := default ∅ (Rooms (hub three_clients) !! "site") in
  let order := (map_to_list room).*2 in
  let heap' := (Broadcast_loop offer_from_alice order (heap three_clients)).1 in
  exists bob',
    heap' !! 2%positive = Some bob' /\
    (bob' = bob \/
     (registered_in three_clients "site" 2%positive /\
      Client_RoomID bob = "site" /\
      ID bob <> "alice" /\
      enqueued "{sdp}" bob bob')).
Proof.
  intros room order heap'.
  assert (Hb : exists bob', heap' !! 2%positive = Some bob').
  { eexists. by vm_compute. }
  destruct Hb as [bob' Hb]. exists bob'. split; [exact Hb|].
  apply (broadcast_delivery_confined three_clients
           {| hub := hub three_clients; heap := heap';
              run_state := (Broadcast_loop offer_from_alice order (heap three_clients)).2 |}
           offer_from_alice 2%positive bob bob').
  - exact three_clients_reachable.
  - apply (Run_case_Broadcast offer_from_alice room order three_clients).
    + reflexivity.
    + by vm_compute.
    + reflexivity.
  - by vm_compute.
  - exact Hb.
Defined.

(** [ReadPump] puts on the Broadcast channel the message it read with
    the sender id replaced by the id of its own connection: two messages
    that differ only in the sender id they carry give the same broadcast,
    and in that broadcast every client that has the id of the connection is
    left as it was. *)
Theorem ReadPump_overwrites_sender (c : Client) (p : ptr) (m m' : SignalMessage) :
  same_but_sender m m' ->
  exists message,
    ReadPump c p (Unmarshalled m) = Some (fromBroadcast message) /\
    ReadPump c p (Unmarshalled m') = Some (fromBroadcast message) /\
    SenderID message = ID c /\
    same_but_sender message m /\
    (forall w w' q d d',
        reachable w -> Run (fromBroadcast message) w w' ->
        heap w !! q = Some d -> heap w' !! q = Some d' ->
        ID d = ID c -> d' = d).
Proof.
  intros (Hty & Hpl & Hts & Hroom).
  eexists. split; [reflexivity|]. split.
  { simpl. by rewrite Hty, Hpl, Hts, Hroom. }
  split; [done|]. split; [done|].
  intros w w' q d d' Hwf%reachable_wf Hrun Hd Hd' Hid.
  destruct (Run_Broadcast_heap _ _ _ _ _ Hwf Hrun Hd) as [_ [H|(d1 & _ & _ & _ & Hne & _)]].
  - congruence.
  - simpl in Hne. congruence.
Qed.

Lemma ReadPump_overwrites_sender_witness :
  exists message,
    ReadPump alice 1%positive (Unmarshalled offer_signed_bob) = Some (fromBroadcast message) /\
    ReadPump alice 1%positive (Unmarshalled offer_from_alice) = Some (fromBroadcast message) /\
    SenderID message = "alice".
Proof.
  destruct (ReadPump_overwrites_sender alice 1%positive offer_signed_bob offer_from_alice)
    as (message & H1 & H2 & H3 & _).
  - by repeat split.
  - by exists message.
Defined.

(** C10.  [ReadPump] does overwrite the sender id, and the broadcast skips
    the connection it came from; but what a recipient is sent is the
    payload as the client wrote it, and nothing of the id the hub has put
    in.  Whatever frame alice's connection sends to her room, with whatever
    it names as sender and whatever its payload holds, bob's connection is
    written that payload, byte for byte: a payload that is a message
    naming carol as its sender reaches bob as such. *)
Theorem forged_sender_id_is_delivered (written : SignalMessage) (ev : received) (w' : World) :
  RoomID written = "site" ->
  ReadPump alice 1%positive (Unmarshalled written) = Some ev ->
  Run ev three_clients w' ->
  exists message bob',
    ev = fromBroadcast message /\
    SenderID message = "alice" /\
    heap w' !! 2%positive = Some bob' /\
    buf (Send bob') = [Payload written] /\
    WritePump false bob' = Wrote (set_Conn [Payload written] bob).
Proof.
  assert (Hroom : Rooms (hub three_clients) !! "site"
                  = Some {[ "alice" := 1%positive; "bob" := 2%positive ]}).
  { by vm_compute. }
  assert (Horder : forall order,
             order ≡ₚ (map_to_list ({[ "alice" := 1%positive; "bob" := 2%positive ]}
                                     : gmap string ptr)).*2 ->
             order = [1%positive; 2%positive] \/ order = [2%positive; 1%positive]).
  { intros order Hperm.
    assert (Hl : (map_to_list ({[ "alice" := 1%positive; "bob" := 2%positive ]}
                               : gmap string ptr)).*2 ≡ₚ [1%positive; 2%positive]).
    { vm_compute. first [reflexivity | apply Permutation_swap]. }
    rewrite Hl in Hperm. symmetry in Hperm.
    by apply Permutation_length_2_inv in Hperm. }
  destruct written as [ty payload sender ts room]. simpl. intros -> [= <-] Hrun.
  eexists _, (set_Send {| buf := [payload]; cap := 256; chan_closed := false |} bob).
  split; [reflexivity|]. split; [reflexivity|].
  inversion Hrun as [| | |? room1 order1 ? _ Hroom1 Hperm1|? ? _ Hroom1]; subst;
    cbn [RoomID] in Hroom1; rewrite Hroom in Hroom1; [|done].
  injection Hroom1 as <-.
  destruct (Horder _ Hperm1) as [-> | ->]; by vm_compute.
Qed.

Lemma forged_sender_id_is_delivered_witness :
  let room := default ∅ (Rooms (hub three_clients) !! "site") in
  let order := (map_to_list room).*2 in
  let signed := {| Type_ := Offer; Payload := forged_envelope; SenderID := "alice";
                   Timestamp := 1; RoomID := "site" |} in
  let w' := {| hub := hub three_clients;
               heap := (Broadcast_loop signed order (heap three_clients)).1;
               run_state := (Broadcast_loop signed order (heap three_clients)).2 |} in
  exists message bob',
    fromBroadcast signed = fromBroadcast message /\
    SenderID message = "alice" /\
    heap w' !! 2%positive = Some bob' /\
    buf (Send bob') = [forged_envelope] /\
    WritePump false bob' = Wrote (set_Conn [forged_envelope] bob).
Proof.
  intros room order signed w'.
  apply (forged_sender_id_is_delivered forged_by_alice (fromBroadcast signed) w').
  - reflexivity.
  - reflexivity.
  - apply (Run_case_Broadcast signed room order three_clients).
    + reflexivity.
    + by vm_compute.
    + reflexivity.
Defined.

(** C5.  What the Broadcast case sends to a client is [message.Payload],
    not the message: in a room with alice and bob, two messages of alice
    with the same payload and different types and timestamps leave bob with
    the same bytes, the payload alone, which [WritePump] then writes to his
    connection. *)
Theorem broadcast_delivers_payload_only (w1 w2 : World) :
  Run (fromBroadcast offer_from_alice) three_clients w1 ->
  Run (fromBroadcast candidate_from_alice) three_clients w2 ->
  exists bob',
    heap w1 !! 2%positive = Some bob' /\
    heap w2 !! 2%positive = Some bob' /\
    buf (Send bob') = ["{sdp}"] /\
    WritePump false bob'
    = Wrote (set_Conn ["{sdp}"] bob).
Proof.
  assert (Hroom : Rooms (hub three_clients) !! "site"
                  = Some {[ "alice" := 1%positive; "bob" := 2%positive ]}).
  { by vm_compute. }
  assert (Horder : forall order,
             order ≡ₚ (map_to_list ({[ "alice" := 1%positive; "bob" := 2%positive ]}
                                     : gmap string ptr)).*2 ->
             order = [1%positive; 2%positive] \/ order = [2%positive; 1%positive]).
  { intros order Hperm.
    assert (Hl : (map_to_list ({[ "alice" := 1%positive; "bob" := 2%positive ]}
                               : gmap string ptr)).*2 ≡ₚ [1%positive; 2%positive]).
    { vm_compute. first [reflexivity | apply Permutation_swap]. }
    rewrite Hl in Hperm. symmetry in Hperm.
    by apply Permutation_length_2_inv in Hperm. }
  intros Hrun1 Hrun2.
  inversion Hrun1 as [| | |? room1 order1 ? _ Hroom1 Hperm1|? ? _ Hroom1]; subst;
    change (RoomID offer_from_alice) with "site" in Hroom1;
    rewrite Hroom in Hroom1; [|done].
  injection Hroom1 as <-.
  inversion Hrun2 as [| | |? room2 order2 ? _ Hroom2 Hperm2|? ? _ Hroom2]; subst;
    change (RoomID candidate_from_alice) with "site" in Hroom2;
    rewrite Hroom in Hroom2; [|done].
  injection Hroom2 as <-.
  exists (set_Send {| buf := ["{sdp}"]; cap := 256; chan_closed := false |} bob).
  destruct (Horder _ Hperm1) as [-> | ->], (Horder _ Hperm2) as [-> | ->];
    by vm_compute.
Qed.

Lemma broadcast_delivers_payload_only_witness :
  let room := default ∅ (Rooms (hub three_clients) !! "site") in
  let order := (map_to_list room).*2 in
  let after message :=
    {| hub := hub three_clients;
       heap := (Broadcast_loop message order (heap three_clients)).1;
       run_state := (Broadcast_loop message order (heap three_clients)).2 |} in
  exists bob',
    heap (after offer_from_alice) !! 2%positive = Some bob' /\
    heap (after candidate_from_alice) !! 2%positive = Some bob' /\
    buf (Send bob') = ["{sdp}"] /\
    WritePump false bob' = Wrote (set_Conn ["{sdp}"] bob).
Proof.
  intros room order after.
  apply (broadcast_delivers_payload_only (after offer_from_alice) (after candidate_from_alice)).
  - apply (Run_case_Broadcast offer_from_alice room order three_clients).
    + reflexivity.
    + by vm_compute.
    + reflexivity.
  - apply (Run_case_Broadcast candidate_from_alice room order three_clients).
    + reflexivity.
    + by vm_compute.
    + reflexivity.
Defined.

End HubFacts.

(** ** More on the content cache *)

Section CacheInvariants.

Import ContentCache.

Lemma store_counted url content now c : counted c -> counted (store url content now c).
Proof.
  intros (Hwf & Hcs). split; [by apply store_wf|].
  pose proof (blob_size_nonneg content) as Hnn.
  assert (Hold : forall m, 0 <= from_option blob_size 0 (JsMap.get url m)).
  { intros m. destruct (JsMap.get url m); simpl; [apply blob_size_nonneg|lia]. }
  unfold store, store_insert, store_evict.
  destruct (currentSize c + blob_size content >? maxSize c).
  - destruct (evictLRU (blob_size content) c) as [c1 log] eqn:Hev. simpl.
    destruct (evictLRU_sizes _ _ _ _ Hwf Hev) as (F & HF & Hst & Hc & _).
    unfold stored_size in *. simpl. rewrite sum_sizes_set.
    specialize (Hold (entries c1)). lia.
  - unfold stored_size in *. simpl. rewrite sum_sizes_set.
    specialize (Hold (entries c)). lia.
Qed.

Lemma get_counted url now c : counted c -> counted (get url now c).2.
Proof.
  intros (Hwf & Hcs). destruct (get_sizes url now c) as (He & Hc & _).
  split; [by apply get_wf|]. unfold stored_size. by rewrite He, Hc.
Qed.

Lemma run_counted ops c : counted c -> counted (run ops c).
Proof.
  revert c. induction ops as [|o ops IH]; intros c Hc; simpl; [done|].
  apply IH. destruct o; simpl; [by apply store_counted | by apply get_counted].
Qed.

(** X3.  Whatever is stored and read, overwrites and oversize contents
    included, the recorded [currentSize] never falls below the bytes the
    entries hold, and so never below zero. *)
Theorem currentSize_never_undercounts (C : Z) (ops : list op) :
  0 <= stored_size (run ops (new C)) <= currentSize (run ops (new C)).
Proof.
  split; [apply sum_sizes_nonneg|].
  apply run_counted. split; [apply wf_new|done].
Qed.

(** X4.  [evictLRU(requiredSpace)] only removes entries; it takes the same
    number of bytes off the entries and off [currentSize]; and when it
    returns it has freed at least [requiredSpace] bytes or no entry with
    content is left. *)
Theorem evictLRU_frees_required_or_everything (C : Z) (ops : list op) (requiredSpace : Z) :
  let c := run ops (new C) in
  let c' := (evictLRU requiredSpace c).1 in
  exists freed,
    0 <= freed /\
    stored_size c' = stored_size c - freed /\
    currentSize c' = currentSize c - freed /\
    (requiredSpace <= freed \/ stored_size c' = 0) /\
    (forall url content,
        JsMap.get url (entries c') = Some content ->
        JsMap.get url (entries c) = Some content).
Proof.
  intros c c'.
  assert (Hwf : wf c) by apply run_wf, wf_new.
  destruct (evictLRU requiredSpace c) as [c1 log] eqn:Hev.
  destruct (evictLRU_sizes _ _ _ _ Hwf Hev) as (F & HF & Hst & Hc & _ & _ & Hsub & Hend).
  exists F. subst c'. simpl. repeat split; try done.
Qed.

(** X5.  Once called, [evictLRU] removes the least recently accessed entry
    with content even when nothing needs to be freed: the test against
    [requiredSpace] comes after the first removal. *)
Theorem evictLRU_removes_oldest_first
    (C : Z) (ops : list op) (requiredSpace : Z) (v : string) :
  let c := run ops (new C) in
  holds_content v c = true ->
  exists w tw rest,
    (evictLRU requiredSpace c).2 = w :: rest /\
    holds_content w c = true /\
    JsMap.get w (accessTime c) = Some tw /\
    (forall u tu,
        holds_content u c = true -> JsMap.get u (accessTime c) = Some tu -> tw <= tu).
Proof.
  intros c Hv.
  assert (Hwf : wf c) by apply run_wf, wf_new.
  destruct (evictLRU requiredSpace c) as [c1 log] eqn:Hev.
  destruct (evictLRU_log _ _ _ _ Hwf Hev) as (ev & kept & Hord & -> & _ & Hfirst).
  pose proof (eviction_order_sorted c) as Hsorted. rewrite Hord in Hsorted.
  assert (Htv : exists tv, JsMap.get v (accessTime c) = Some tv).
  { destruct (JsMap.get v (accessTime c)) as [tv|] eqn:Hg; [by exists tv|].
    apply jsmap_get_None in Hg. rewrite (proj2 Hwf) in Hg.
    apply jsmap_get_None in Hg. unfold holds_content in Hv. by rewrite Hg in Hv. }
  destruct Htv as [tv Htv].
  assert (Hvin : (v, tv) ∈ ev ++ kept).
  { rewrite <- Hord. by apply eviction_order_elem. }
  destruct ev as [|[w tw] ev].
  { rewrite Hfirst in Hvin by done. by apply elem_of_nil in Hvin. }
  assert (Hw : (w, tw) ∈ eviction_order c) by (rewrite Hord; left).
  apply eviction_order_elem in Hw as [Hwh Hwt]; [|done].
  exists w, tw, ev.*1. repeat split; try done.
  intros u tu Hu Htu.
  assert (Huin : (u, tu) ∈ ((w, tw) :: ev) ++ kept).
  { rewrite <- Hord. by apply eviction_order_elem. }
  simpl in Huin, Hsorted. apply elem_of_cons in Huin as [[= -> ->]|Huin]; [lia|].
  apply StronglySorted_cons in Hsorted as [Hall _].
  rewrite Forall_forall in Hall. apply (Hall _ Huin).
Qed.

Lemma evictLRU_removes_oldest_first_witness :
  let c := run [Store "/a" "aa" 1; Store "/b" "bb" 2] (new 10) in
  exists w tw rest,
    (evictLRU 0 c).2 = w :: rest /\
    holds_content w c = true /\
    JsMap.get w (accessTime c) = Some tw /\
    (forall u tu,
        holds_content u c = true -> JsMap.get u (accessTime c) = Some tu -> tw <= tu).
Proof.
  intros c.
  apply (evictLRU_removes_oldest_first 10 [Store "/a" "aa" 1; Store "/b" "bb" 2] 0 "/b").
  by vm_compute.
Defined.

(** X6.  The two maps of the cache stay aligned: after any calls of
    [store] and [get], [entries] and [accessTime] hold the same urls in the
    same iteration order, each url once. *)
Theorem entries_and_accessTime_aligned (C : Z) (ops : list op) :
  let c := run ops (new C) in
  JsMap.keys (accessTime c) = JsMap.keys (entries c) /\
  NoDup (JsMap.keys (entries c)) /\
  (forall url, is_Some (JsMap.get url (entries c)) <-> is_Some (JsMap.get url (accessTime c))).
Proof.
  intros c.
  assert (Hwf : wf c) by apply run_wf, wf_new.
  destruct Hwf as [Hnd Hk]. split; [done|]. split; [done|].
  intros url. rewrite <- !not_eq_None_Some, !jsmap_get_None, Hk. done.
Qed.

End CacheInvariants.

(** ** The cache under calls of [store] that overlap *)

Section CacheOverlap.

Import ContentCache.

Lemma store_insert_exact url content now c :
  exact c -> JsMap.get url (entries c) = None -> exact (store_insert url content now c).
Proof.
  intros (Hwf & Hcs) Hfresh. split; [by apply wf_insert|].
  unfold stored_size in *. simpl. rewrite sum_sizes_set, Hfresh. simpl. lia.
Qed.

Lemma evictLRU_exact requiredSpace c : exact c -> exact (evictLRU requiredSpace c).1.
Proof.
  intros (Hwf & Hcs). destruct (evictLRU requiredSpace c) as [c1 log] eqn:Hev.
  destruct (evictLRU_sizes _ _ _ _ Hwf Hev) as (F & _ & Hst & Hc & _ & Hwf1 & _).
  split; [done|]. simpl. lia.
Qed.

Lemma turns_exact es st : exact st.1 -> fresh_inserts es st -> exact (turns es st).1.
Proof.
  revert st. induction es as [|e es IH]; intros [c pending] Hex Hf; simpl; [done|].
  destruct Hf as [He Hf]. apply IH; [|done]. simpl in *.
  destruct e as [url content now|now|url now]; simpl.
  - destruct (currentSize c + blob_size content >? maxSize c); simpl.
    + by apply evictLRU_exact.
    + by apply store_insert_exact.
  - destruct pending as [|[url content] rest]; simpl; [done|].
    by apply store_insert_exact.
  - by apply get_exact.
Qed.

(** X2.  Whatever the overlap of calls of [store] that are not awaited, as
    long as every [store] makes its insertion for a url that has no entry
    at the time of the insertion (for a [store] that had to evict, that is
    after its [await]), the recorded [currentSize] is the sum of the sizes
    of the entries present, through evictions too. *)
Theorem currentSize_exact_with_fresh_inserts (C : Z) (es : list turn) :
  fresh_inserts es (new C, []) ->
  currentSize (turns es (new C, [])).1 = stored_size (turns es (new C, [])).1.
Proof.
  intros Hf. apply (turns_exact es (new C, [])); [|done]. split; [apply wf_new|done].
Qed.

Lemma currentSize_exact_with_fresh_inserts_witness :
  let es := [CallStore "/x" "xxxx" 1; CallStore "/a" "aaa" 2; CallStore "/b" "bbb" 3;
             CallGet "/b" 4; ResumeStore 5] in
  currentSize (turns es (new 4, [])).1 = stored_size (turns es (new 4, [])).1.
Proof.
  intros es. apply (currentSize_exact_with_fresh_inserts 4 es).
  by vm_compute.
Defined.

(** The hypothesis is about the time of the insertion: a url that has no
    entry when two overlapping stores of it are called is counted twice. *)
Lemma overlapping_stores_double_count :
  let es := [CallStore "/x" "xxxx" 1; CallStore "/a" "aaa" 2; CallStore "/a" "aaa" 3;
             ResumeStore 4] in
  let c := (turns es (new 4, [])).1 in
  currentSize c = 6 /\ stored_size c = 3.
Proof. by vm_compute. Qed.

Lemma store_insert_fits url content now c :
  wf c -> stored_size c <= currentSize c ->
  wf (store_insert url content now c) /\
  stored_size (store_insert url content now c) <= currentSize (store_insert url content now c) /\
  stored_size (store_insert url content now c) <= stored_size c + blob_size content.
Proof.
  intros Hwf Hcs.
  assert (Hold : 0 <= from_option blob_size 0 (JsMap.get url (entries c))).
  { destruct (JsMap.get url (entries c)); simpl; [apply blob_size_nonneg|lia]. }
  split; [by apply wf_insert|].
  unfold stored_size in *. simpl. rewrite sum_sizes_set. lia.
Qed.

Lemma turn_apply_fits C e st :
  fits C st ->
  match e with
  | CallStore _ content _ => blob_size content <= C /\ st.2 = []
  | _ => True
  end ->
  fits C (turn_apply e st).
Proof.
  destruct st as [c pending]. intros (Hwf & Hmax & Hcs & Hfit) He. simpl in *.
  destruct e as [url content now|now|url now]; simpl.
  - destruct He as [Hsize ->]. simpl in *.
    destruct (currentSize c + blob_size content >? maxSize c) eqn:Hov; simpl.
    + destruct (evictLRU (blob_size content) c) as [c1 log] eqn:Hev. simpl.
      destruct (evictLRU_sizes _ _ _ _ Hwf Hev) as (F & HF & Hst & Hc & Hm & Hwf1 & _ & Hend).
      unfold fits. simpl. split_and!; [done|congruence|lia|].
      destruct Hend as [?|Hzero]; lia.
    + destruct (store_insert_fits url content now c Hwf Hcs) as (? & ? & ?).
      unfold fits. simpl. split_and!; [done|done|done|]. lia.
  - destruct pending as [|[url content] [|? ?]]; simpl; [done| |done].
    destruct (store_insert_fits url content now c Hwf Hcs) as (? & ? & ?).
    unfold fits. simpl. split_and!; [done|done|done|]. lia.
  - destruct (get_sizes url now c) as (Hen & Hc & Hm).
    unfold fits, stored_size in *. simpl. rewrite Hen, Hc, Hm.
    split_and!; [by apply get_wf|done|done|done].
Qed.

Lemma turns_fits C es st :
  fits C st -> turn_sizes_within C es -> awaited es st -> fits C (turns es st).
Proof.
  revert st. induction es as [|e es IH]; intros st Hfit Hsz Haw; simpl; [done|].
  apply Forall_cons in Hsz as [He Hsz]. destruct Haw as [Ha Haw].
  apply IH; [|done|done]. apply turn_apply_fits; [done|]. by destruct e.
Qed.

(** X1.  Where the capacity bound does hold.  On a cache of capacity [C],
    after any calls of [store] and [get] in which no stored content is
    larger than [C] and no [store] is called while another is suspended at
    its [await], the sizes of the entries present sum to at most [C],
    overwrites included, also while a [store] is suspended; and where every
    insertion is for a url without an entry, the recorded [currentSize] is
    at most [C] too. *)
Theorem awaited_stores_within_capacity (C : Z) (es : list turn) :
  0 <= C ->
  turn_sizes_within C es ->
  awaited es (new C, []) ->
  stored_size (turns es (new C, [])).1 <= C /\
  (fresh_inserts es (new C, []) -> currentSize (turns es (new C, [])).1 <= C).
Proof.
  intros HC Hsz Haw.
  assert (Hfit : fits C (turns es (new C, []))).
  { apply turns_fits; [|done|done]. split_and!; [apply wf_new|done|done|done]. }
  assert (Hst : stored_size (turns es (new C, [])).1 <= C).
  { destruct Hfit as (_ & _ & _ & Hfit).
    destruct (turns es (new C, [])).2 as [|[url content] [|? ?]]; [done| |done].
    pose proof (blob_size_nonneg content). lia. }
  split; [done|]. intros Hf.
  destruct (turns_exact es (new C, [])) as [_ ->]; [split; [apply wf_new|done]|done|done].
Qed.

Lemma awaited_stores_within_capacity_witness :
  let es := [CallStore "/a" "aa" 1; CallStore "/b" "bbb" 2; ResumeStore 3; CallGet "/b" 4;
             CallStore "/a" "cc" 5; ResumeStore 6] in
  stored_size (turns es (new 4, [])).1 <= 4 /\
  (fresh_inserts es (new 4, []) -> currentSize (turns es (new 4, [])).1 <= 4).
Proof.
  intros es. apply (awaited_stores_within_capacity 4 es).
  - lia.
  - repeat constructor; by vm_compute.
  - vm_compute. by repeat split.
Defined.

(** The bound needs the stores not to overlap: three contents that fit,
    the second store suspended while the third is called, leave 6 bytes on
    capacity 4. *)
Lemma overlapping_stores_exceed_capacity :
  let es := [CallStore "/x" "xxxx" 1; CallStore "/a" "aaa" 2; CallStore "/b" "bbb" 3;
             ResumeStore 4] in
  turn_sizes_within 4 es /\ fresh_inserts es (new 4, []) /\
  stored_size (turns es (new 4, [])).1 = 6.
Proof.
  split; [repeat constructor; by vm_compute|]. split; [|by vm_compute].
  vm_compute. by repeat split.
Qed.

End CacheOverlap.

(** ** More on the request resolver and the signaling handlers *)

Section ResolverFacts.

Import DeployNetClient.

Variable env : Env.

Lemma sendToPeer_effects peerId data s e :
  e ∈ sendToPeer peerId data s ->
  e = ChannelSend peerId data /\ JsMap.get peerId (dataChannels s) = Some open.
Proof.
  unfold sendToPeer. destruct (JsMap.get peerId (dataChannels s)) as [[]|];
    try (intros H; by apply elem_of_nil in H).
  by intros ->%list_elem_of_singleton.
Qed.

Lemma sendToPeer_length peerId data s : (length (sendToPeer peerId data s) <= 1)%nat.
Proof.
  unfold sendToPeer. destruct (JsMap.get peerId (dataChannels s)) as [[]|]; simpl; lia.
Qed.

Lemma requestFromPeers_loop_effects replies url ps s :
  (length (requestFromPeers_loop replies url ps s).2 <= length ps)%nat /\
  (forall e, e ∈ (requestFromPeers_loop replies url ps s).2 ->
     exists peerId,
       e = ChannelSend peerId (contentRequest url (clientId s)) /\
       peerId ∈ ps /\ JsMap.get peerId (dataChannels s) = Some open) /\
  (forall content peerId,
     (requestFromPeers_loop replies url ps s).1 = Accepted content peerId ->
     peerId ∈ ps /\ replies peerId = Replied (Some content) /\
     ContentCache.truthy content = true).
Proof.
  induction ps as [|p ps (IHlen & IHeff & IHacc)]; simpl.
  - split; [lia|]. split; [intros e H; by apply elem_of_nil in H|done].
  - pose proof (sendToPeer_length p (contentRequest url (clientId s)) s) as Hlen.
    assert (Hsent : forall e, e ∈ sendToPeer p (contentRequest url (clientId s)) s ->
              exists peerId,
                e = ChannelSend peerId (contentRequest url (clientId s)) /\
                peerId ∈ p :: ps /\ JsMap.get peerId (dataChannels s) = Some open).
    { intros e [-> Hopen]%sendToPeer_effects. exists p. split; [done|]. split; [left|done]. }
    destruct (requestFromPeers_loop replies url ps s) as [r effs]. simpl in *.
    assert (Hcont : (length (sendToPeer p (contentRequest url (clientId s)) s ++ effs)
                     <= S (length ps))%nat /\
              (forall e, e ∈ sendToPeer p (contentRequest url (clientId s)) s ++ effs ->
                 exists peerId,
                   e = ChannelSend peerId (contentRequest url (clientId s)) /\
                   peerId ∈ p :: ps /\ JsMap.get peerId (dataChannels s) = Some open) /\
              (forall content peerId,
                 r = Accepted content peerId ->
                 peerId ∈ p :: ps /\ replies peerId = Replied (Some content) /\
                 ContentCache.truthy content = true)).
    { split; [rewrite length_app; lia|]. split.
      - intros e [He|He]%elem_of_app; [by apply Hsent|].
        destruct (IHeff e He) as (q & ? & ? & ?). exists q. split; [done|]. split; [by right|done].
      - intros content q Hr. destruct (IHacc content q Hr) as (? & ? & ?).
        split; [by right|done]. }
    destruct (replies p) as [|[c|]|] eqn:Hrep; simpl; try exact Hcont.
    + destruct (ContentCache.truthy c) eqn:Htr; simpl; [|exact Hcont].
      split; [lia|]. split; [exact Hsent|].
      intros content q [= <- <-]. split; [left|done].
    + split; [lia|]. split; [exact Hsent|done].
Qed.


Lemma set_cache_same s : set_cache (cache s) s = s.
Proof. by destruct s. Qed.

(** X8.  With no peer in the registry, a request that misses the cache
    goes straight to the origin: nothing is sent to a peer, the origin is
    fetched once, its answer (or its failure) is what the caller gets, and
    the client is left as it was. *)
Theorem no_peers_miss_goes_to_origin
    (url : string) (now now' : Z) (replies : string -> reply)
    (originalFetch : string -> option Response) (s : t) :
  peers s = [] ->
  ContentCache.holds_content url (cache s) = false ->
  interceptRequest env url now now' replies originalFetch s
  = (match originalFetch url with
     | Some response => Resolved response FromOrigin
     | None => Rejected
     end, s, [OriginalFetch url]).
Proof.
  intros Hpeers Hmiss. unfold interceptRequest. rewrite get_miss by done.
  rewrite set_cache_same. unfold requestFromPeers. rewrite Hpeers. done.
Qed.

(** X9.  Content that a peer delivered is in the cache afterwards: the
    next request for the same url is answered from the cache with the same
    body, and nothing is sent out for it. *)
Theorem peer_content_is_cached_for_next_request
    (url : string) (now now' : Z) (replies : string -> reply)
    (originalFetch : string -> option Response) (s : t)
    (response : Response) (s' : t) (effs : list effect)
    (now2 now2' : Z) (replies2 : string -> reply)
    (originalFetch2 : string -> option Response) :
  interceptRequest env url now now' replies originalFetch s
  = (Resolved response FromPeer, s', effs) ->
  exists response2 s'',
    interceptRequest env url now2 now2' replies2 originalFetch2 s'
    = (Resolved response2 FromCache, s'', []) /\
    body response2 = body response.
Proof.
  unfold interceptRequest at 1.
  destruct (ContentCache.get url now (cache s)) as [[content|] cache1]; [done|].
  destruct (requestFromPeers replies url (set_cache cache1 s)) as [[c p| |] effs'] eqn:Hreq;
    [| by destruct (originalFetch url) | done].
  intros [= <- <- <-].
  assert (Htr : ContentCache.truthy c = true) by by eapply requestFromPeers_accepted.
  unfold interceptRequest. cbn [cache set_cache].
  rewrite (get_hit url c now2 _ (store_entry url c now' _) Htr).
  by eexists _, _.
Qed.

(** X10.  [interceptRequest] fetches the origin at most once, as the last
    thing it does, and only when no tier before it answered: a request
    answered by the cache or by a peer, or stuck on a peer, never reaches
    the origin. *)
Theorem origin_fetched_last_and_once
    (url : string) (now now' : Z) (replies : string -> reply)
    (originalFetch : string -> option Response) (s : t) :
  let r := interceptRequest env url now now' replies originalFetch s in
  exists sends,
    (forall e, e ∈ sends -> exists peerId m, e = ChannelSend peerId m) /\
    match r.1.1 with
    | Resolved _ FromOrigin | Rejected => r.2 = sends ++ [OriginalFetch url]
    | Resolved _ FromCache => sends = [] /\ r.2 = []
    | Resolved _ FromPeer | Pending => r.2 = sends
    end.
Proof.
  intros r. subst r. unfold interceptRequest.
  destruct (ContentCache.get url now (cache s)) as [[content|] cache1]; simpl.
  { exists []. split; [intros e H; by apply elem_of_nil in H|done]. }
  assert (Heff : forall e, e ∈ (requestFromPeers replies url (set_cache cache1 s)).2 ->
            exists peerId m, e = ChannelSend peerId m).
  { unfold requestFromPeers. case_decide; [intros e H'; by apply elem_of_nil in H'|].
    intros e He.
    destruct (requestFromPeers_loop_effects replies url
                (selectOptimalPeers 3 (set_cache cache1 s)) (set_cache cache1 s))
      as (_ & Hl & _).
    destruct (Hl e He) as (q & -> & _). by eexists _, _. }
  destruct (requestFromPeers replies url (set_cache cache1 s)) as [res effs]. simpl in *.
  exists effs. split; [exact Heff|].
  destruct res as [c p| |]; simpl; [done| |done].
  by destruct (originalFetch url).
Qed.

(** X11.  [handleContentRequest] answers a peer only with what the cache
    holds: it sends at most one message, a contentResponse in the client's
    name carrying the non-empty cached content of the url, and only on an
    open channel to the peer that asked; the entries of the cache are not
    changed. *)
Theorem handleContentRequest_sends_held_content (peerId url : string) (now : Z) (s : t) :
  let r := handleContentRequest peerId url now s in
  ContentCache.entries (cache r.1) = ContentCache.entries (cache s) /\
  (length r.2 <= 1)%nat /\
  (forall e, e ∈ r.2 ->
     exists content,
       e = ChannelSend peerId (contentResponse url content (clientId s)) /\
       JsMap.get url (ContentCache.entries (cache s)) = Some content /\
       content <> "" /\
       JsMap.get peerId (dataChannels s) = Some open).
Proof.
  intros r. subst r. unfold handleContentRequest.
  pose proof (get_sizes url now (cache s)) as (He & _ & _).
  unfold ContentCache.get in *.
  destruct (JsMap.get url (ContentCache.entries (cache s))) as [content|] eqn:Hget.
  - destruct (ContentCache.truthy content) eqn:Htr; simpl.
    + split; [done|]. split; [apply sendToPeer_length|].
      intros e [-> Hopen]%sendToPeer_effects. exists content.
      repeat split; try done. by apply truthy_nonempty.
    + split; [done|]. split; [lia|]. intros e H; by apply elem_of_nil in H.
  - simpl. split; [done|]. split; [lia|]. intros e H; by apply elem_of_nil in H.
Qed.

End ResolverFacts.

Section ResolverExamples.

Import DeployNetClient.

Lemma no_peers_miss_goes_to_origin_witness :
  interceptRequest plain_env "/a.js" 1 2 (fun _ => Replied (Some "never asked"))
    (fun _ => None) (new "site" 5 100 "client-a")
  = (Rejected, new "site" 5 100 "client-a", [OriginalFetch "/a.js"]).
Proof.
  apply (no_peers_miss_goes_to_origin plain_env "/a.js" 1 2
           (fun _ => Replied (Some "never asked")) (fun _ => None)
           (new "site" 5 100 "client-a")); reflexivity.
Defined.

Lemma peer_content_is_cached_for_next_request_witness :
  let s0 := new "site" 5 100 "client-a" in
  let s1 := (step plain_env (onSignalingMessage plain_browser (from_peer_b 3 "{}").2) s0).1 in
  let first := interceptRequest plain_env "/a.js" 1 2 (fun _ => Replied (Some "hello"))
                 (fun _ => None) s1 in
  exists response2 s'',
    interceptRequest plain_env "/a.js" 3 4 (fun _ => TimedOut) (fun _ => None) first.1.2
    = (Resolved response2 FromCache, s'', []) /\
    body response2 = "hello".
Proof.
  intros s0 s1 first.
  apply (peer_content_is_cached_for_next_request plain_env "/a.js" 1 2
           (fun _ => Replied (Some "hello")) (fun _ => None) s1
           (createResponseFromPeer plain_env "hello" "peer-b" "/a.js") first.1.2 first.2).
  by vm_compute.
Defined.

End ResolverExamples.

Section SignalingFacts.

Import DeployNetClient.

Variable env : Env.

Lemma cleanupPeerConnection_tables (peerId : string) (s : t) :
  let s' := cleanupPeerConnection peerId s in
  JsMap.get peerId (peerConnections s') = None /\
  JsMap.get peerId (dataChannels s') = None /\
  JsMap.get peerId (peers s') = None /\
  (forall q, q <> peerId ->
     JsMap.get q (peerConnections s') = JsMap.get q (peerConnections s) /\
     JsMap.get q (dataChannels s') = JsMap.get q (dataChannels s) /\
     JsMap.get q (peers s') = JsMap.get q (peers s)) /\
  cache s' = cache s.
Proof.
  intros s'. subst s'. unfold cleanupPeerConnection.
  destruct (JsMap.get peerId (peerConnections s)) as [pc|] eqn:Hpc;
    cbn [dataChannels set_peerConnections];
    destruct (JsMap.get peerId (dataChannels s)) as [ch|] eqn:Hch; simpl;
    (split_and!;
     [ rewrite ?jsmap_get_delete, ?decide_True by done; done
     | rewrite ?jsmap_get_delete, ?decide_True by done; done
     | rewrite ?jsmap_get_delete, ?decide_True by done; done
     | intros q Hq; rewrite ?jsmap_get_delete, ?decide_False by done; done
     | done ]).
Qed.

(** X12.  [cleanupPeerConnection] purges the peer from the three tables,
    connections, channels and registry, touches no other peer in any of
    them, and leaves the cache alone. *)
Theorem cleanupPeerConnection_purges (peerId : string) (s : t) :
  let s' := cleanupPeerConnection peerId s in
  JsMap.get peerId (peerConnections s') = None /\
  JsMap.get peerId (dataChannels s') = None /\
  JsMap.get peerId (peers s') = None /\
  (forall q, q <> peerId ->
     JsMap.get q (peerConnections s') = JsMap.get q (peerConnections s) /\
     JsMap.get q (dataChannels s') = JsMap.get q (dataChannels s) /\
     JsMap.get q (peers s') = JsMap.get q (peers s)) /\
  cache s' = cache s.
Proof. apply cleanupPeerConnection_tables. Qed.

Lemma initiatePeerConnection_effects io peerId s e :
  e ∈ (initiatePeerConnection env io peerId s).2 ->
  JsMap.get peerId (peerConnections s) = None /\
  exists offer,
    createOffer_result io = Some offer /\
    e = SignalingSend {| type := 0; payload := JSON_stringify env offer;
                         senderId := clientId s; timestamp := toISOString io;
                         roomId := siteId s |}.
Proof.
  unfold initiatePeerConnection, JsMap.has.
  destruct (JsMap.get peerId (peerConnections s)); simpl;
    [intros H; by apply elem_of_nil in H|].
  destruct (createOffer_result io) as [offer|]; simpl;
    [|intros H; by apply elem_of_nil in H].
  intros ->%list_elem_of_singleton. split; [done|]. by exists offer.
Qed.

Lemma handlePeerDiscovery_effects (io : Browser) (m : SignalMessage) (s : t) (e : effect) :
  e ∈ (handlePeerDiscovery env io m s).2 ->
  JsMap.get (senderId m) (peerConnections s) = None /\
  Z.of_nat (JsMap.size (peerConnections s)) < maxPeers s /\
  exists offer,
    createOffer_result io = Some offer /\
    e = SignalingSend {| type := 0; payload := JSON_stringify env offer;
                         senderId := clientId s; timestamp := toISOString io;
                         roomId := siteId s |}.
Proof.
  unfold handlePeerDiscovery.
  destruct (JSON_parse env (payload m)) as [peerInfo|];
    [|intros H; by apply elem_of_nil in H].
  cbn [peerConnections set_peers maxPeers].
  destruct (_ <? _) eqn:Hlt; [|intros H; by apply elem_of_nil in H].
  intros (Hnone & offer & Hoffer & ->)%initiatePeerConnection_effects.
  apply Z.ltb_lt in Hlt. split; [done|]. split; [done|]. by exists offer.
Qed.

(** X13.  The client sends an Offer on a discovery only to a peer it has no
    connection for, and only while its connection table is below
    [maxPeers]: whatever [handlePeerDiscovery] sends is one Offer in the
    client's name for the client's room. *)
Theorem offer_only_below_maxPeers (io : Browser) (m : SignalMessage) (s : t) (e : effect) :
  e ∈ (handlePeerDiscovery env io m s).2 ->
  JsMap.get (senderId m) (peerConnections s) = None /\
  Z.of_nat (JsMap.size (peerConnections s)) < maxPeers s /\
  exists offer,
    createOffer_result io = Some offer /\
    e = SignalingSend {| type := 0; payload := JSON_stringify env offer;
                         senderId := clientId s; timestamp := toISOString io;
                         roomId := siteId s |}.
Proof. apply handlePeerDiscovery_effects. Qed.

(** X14.  When [createOffer] fails, [initiatePeerConnection] cleans up, and
    the cleanup also deletes the peer from the registry: a peer just
    discovered is forgotten again, and nothing is sent. *)
Theorem failed_offer_forgets_peer (io : Browser) (m : SignalMessage) (peerInfo : string) (s : t) :
  JSON_parse env (payload m) = Some peerInfo ->
  JsMap.get (senderId m) (peerConnections s) = None ->
  Z.of_nat (JsMap.size (peerConnections s)) < maxPeers s ->
  createOffer_result io = None ->
  let r := handlePeerDiscovery env io m s in
  r.2 = [] /\
  JsMap.get (senderId m) (peers r.1) = None /\
  JsMap.get (senderId m) (peerConnections r.1) = None.
Proof.
  intros Hparse Hnone Hlt Hfail r. subst r. unfold handlePeerDiscovery.
  rewrite Hparse. cbn [peerConnections set_peers maxPeers].
  apply Z.ltb_lt in Hlt. rewrite Hlt.
  unfold initiatePeerConnection, JsMap.has. cbn [peerConnections set_peers].
  rewrite Hnone, Hfail. cbn [fst snd].
  split; [done|].
  match goal with |- context [cleanupPeerConnection ?k ?st] =>
    destruct (cleanupPeerConnection_tables k st) as (Hpc & _ & Hp & _) end.
  by split.
Qed.

Lemma handleSignalingMessage_dispatch io m s :
  handleSignalingMessage env io m s
  = if decide (type m = 0) then handleOffer env io m s
    else if decide (type m = 1) then handleAnswer env m s
    else if decide (type m = 2) then handleIceCandidate env m s
    else if decide (type m = 3) then handlePeerDiscovery env io m s
    else if decide (type m = 6) then handlePeerRegistered env io m s
    else (s, []).
Proof.
  unfold handleSignalingMessage.
  destruct (type m) as [|p|p]; [done| |done].
  do 3 (try destruct p as [p|p|]); done.
Qed.

(** X15.  A signaling message whose type is none of 0, 1, 2, 3 and 6 is
    ignored: the client is unchanged and nothing is sent. *)
Theorem unknown_signal_type_ignored (io : Browser) (m : SignalMessage) (s : t) :
  type m ∉ [0; 1; 2; 3; 6] ->
  handleSignalingMessage env io m s = (s, []).
Proof.
  intros H. rewrite !not_elem_of_cons in H. destruct H as (? & ? & ? & ? & ? & _).
  rewrite handleSignalingMessage_dispatch. by rewrite !decide_False.
Qed.

Lemma negotiation_keeps_peers io m s :
  type m ∈ [0; 1; 2] -> peers (handleSignalingMessage env io m s).1 = peers s.
Proof.
  intros H. rewrite handleSignalingMessage_dispatch.
  repeat apply elem_of_cons in H as [->|H]; [| | |by apply elem_of_nil in H]; simpl.
  - unfold handleOffer. by destruct (JSON_parse env (payload m)).
  - unfold handleAnswer, pc_call. destruct (JSON_parse env (payload m)); [|done].
    by destruct (JsMap.get _ _).
  - unfold handleIceCandidate. destruct (JSON_parse env (payload m)); [|done].
    by destruct (JsMap.get _ _).
Qed.

(** X16.  Offer, Answer and IceCandidate messages never add their sender to
    the peer registry: a client that has only answered offers has
    connections and an empty registry, which is all [requestFromPeers]
    looks at, so it sends no content request and returns null. *)
Theorem negotiation_never_registers_peer
    (ms : list (Browser * SignalMessage)) (replies : string -> reply) (url : string) (s : t) :
  Forall (fun m => type m.2 ∈ [0; 1; 2]) ms ->
  peers s = [] ->
  let s' := handleSignalingMessages env ms s in
  peers s' = [] /\ requestFromPeers replies url s' = (Exhausted, []).
Proof.
  intros Hms Hpeers s'.
  assert (Hp : peers s' = []).
  { subst s'. revert s Hpeers. induction Hms as [|[io m] ms Hm _ IH]; intros s Hpeers; [done|].
    simpl. apply IH. simpl in Hm. by rewrite negotiation_keeps_peers. }
  split; [done|]. unfold requestFromPeers. by rewrite Hp.
Qed.

Lemma cleanupPeerConnection_identity peerId s :
  clientId (cleanupPeerConnection peerId s) = clientId s /\
  siteId (cleanupPeerConnection peerId s) = siteId s.
Proof.
  unfold cleanupPeerConnection.
  destruct (JsMap.get peerId (peerConnections s));
    cbn [dataChannels set_peerConnections];
    by destruct (JsMap.get peerId (dataChannels s)).
Qed.

Lemma signaling_handler_identity io m s :
  let r := handleSignalingMessage env io m s in
  clientId r.1 = clientId s /\ siteId r.1 = siteId s /\
  (forall msg, SignalingSend msg ∈ r.2 ->
     senderId msg = clientId s /\ roomId msg = siteId s /\ (type msg = 0 \/ type msg = 1)).
Proof.
  assert (Hd : let r := handlePeerDiscovery env io m s in
               clientId r.1 = clientId s /\ siteId r.1 = siteId s /\
               (forall msg, SignalingSend msg ∈ r.2 ->
                  senderId msg = clientId s /\ roomId msg = siteId s /\
                  (type msg = 0 \/ type msg = 1))).
  { intros r. split; [|split].
    - subst r. unfold handlePeerDiscovery. destruct (JSON_parse env (payload m)); [|done].
      destruct (_ <? _); [|done].
      unfold initiatePeerConnection. destruct (JsMap.has _ _); [done|].
      destruct (createOffer_result io); [done|]. cbn [fst].
      by rewrite (proj1 (cleanupPeerConnection_identity _ _)).
    - subst r. unfold handlePeerDiscovery. destruct (JSON_parse env (payload m)); [|done].
      destruct (_ <? _); [|done].
      unfold initiatePeerConnection. destruct (JsMap.has _ _); [done|].
      destruct (createOffer_result io); [done|]. cbn [fst].
      by rewrite (proj2 (cleanupPeerConnection_identity _ _)).
    - intros msg (_ & _ & offer & _ & [= ->])%handlePeerDiscovery_effects. simpl. auto. }
  intros r. subst r. rewrite handleSignalingMessage_dispatch.
  repeat case_decide; try exact Hd.
  - unfold handleOffer. destruct (JSON_parse env (payload m)); simpl.
    + repeat split; try done; apply list_elem_of_singleton in H0; by simplify_eq/=; auto.
    + repeat split; try done; by apply elem_of_nil in H0.
  - unfold handleAnswer, pc_call. destruct (JSON_parse env (payload m)); simpl.
    + destruct (JsMap.get _ _); simpl; repeat split; try done; by apply elem_of_nil in H1.
    + repeat split; try done; by apply elem_of_nil in H1.
  - unfold handleIceCandidate. destruct (JSON_parse env (payload m)); simpl.
    + destruct (JsMap.get _ _); simpl; repeat split; try done; by apply elem_of_nil in H2.
    + repeat split; try done; by apply elem_of_nil in H2.
  - simpl. repeat split; try done; by apply elem_of_nil in H4.
Qed.

Lemma interceptRequest_sends_no_signal url now now' replies originalFetch s msg :
  SignalingSend msg ∉ (interceptRequest env url now now' replies originalFetch s).2.
Proof.
  unfold interceptRequest.
  destruct (ContentCache.get url now (cache s)) as [[content|] cache1]; simpl;
    [apply not_elem_of_nil|].
  assert (Heff : SignalingSend msg ∉ (requestFromPeers replies url (set_cache cache1 s)).2).
  { unfold requestFromPeers. case_decide; [apply not_elem_of_nil|].
    intros He.
    destruct (requestFromPeers_loop_effects replies url
                (selectOptimalPeers 3 (set_cache cache1 s)) (set_cache cache1 s))
      as (_ & Hl & _).
    by destruct (Hl _ He) as (q & ? & _). }
  destruct (requestFromPeers replies url (set_cache cache1 s)) as [[c p| |] effs];
    simpl in *; try done.
  rewrite elem_of_app, list_elem_of_singleton. by intros [?|?].
Qed.

Lemma interceptRequest_identity url now now' replies originalFetch s :
  clientId (interceptRequest env url now now' replies originalFetch s).1.2 = clientId s /\
  siteId (interceptRequest env url now now' replies originalFetch s).1.2 = siteId s.
Proof.
  unfold interceptRequest.
  destruct (ContentCache.get url now (cache s)) as [[content|] cache1]; simpl; [done|].
  by destruct (requestFromPeers replies url (set_cache cache1 s)) as [[c p| |] effs].
Qed.

(** X17.  Whatever happens to it, the client keeps its id and its site id,
    and every message it puts on the signaling channel, from any of the
    four places that send on it (the Register message of
    [registerWithNetwork], the Offer, the Answer, and the IceCandidate of
    the [onicecandidate] callback), has one of the types 0, 1, 2 and 6 and
    names the client as sender and its site as room. *)
Theorem signaling_sends_carry_client_identity (e : event) (s : t) :
  let r := step env e s in
  clientId r.1 = clientId s /\ siteId r.1 = siteId s /\
  (forall msg, SignalingSend msg ∈ r.2 ->
     senderId msg = clientId s /\ roomId msg = siteId s /\ type msg ∈ [0; 1; 2; 6]).
Proof.
  intros r. subst r.
  destruct e as [io message|peerId|peerId|peerId m now|peerId|url now now' replies originalFetch
                |io registration|io candidate];
    unfold step.
  - destruct (signaling_handler_identity io message s) as (Hc & Hs & Hm).
    split_and!; try done. intros msg Hin. destruct (Hm msg Hin) as (? & ? & Hty).
    split_and!; try done. rewrite !elem_of_cons. tauto.
  - simpl. split_and!; try done. intros msg H; by apply elem_of_nil in H.
  - simpl. split_and!; try done. intros msg H; by apply elem_of_nil in H.
  - destruct m as [url requester|]; cbn [handlePeerMessage].
    + unfold handleContentRequest.
      destruct (ContentCache.get url now (cache s)) as [[content|] cache1]; simpl.
      * split_and!; try done. intros msg [? _]%sendToPeer_effects. done.
      * split_and!; try done. intros msg H; by apply elem_of_nil in H.
    + simpl. split_and!; try done. intros msg H; by apply elem_of_nil in H.
  - cbn [fst snd]. destruct (cleanupPeerConnection_identity peerId s) as [-> ->].
    split_and!; try done. intros msg H; by apply elem_of_nil in H.
  - pose proof (interceptRequest_identity url now now' replies originalFetch s) as [Hc Hs].
    pose proof (interceptRequest_sends_no_signal url now now' replies originalFetch s) as Hn.
    destruct (interceptRequest env url now now' replies originalFetch s) as [[res s'] effs].
    simpl in *. split_and!; try done. intros msg Hin. by apply Hn in Hin.
  - cbn [fst snd]. split_and!; try done. unfold registerWithNetwork.
    intros msg [= ->]%list_elem_of_singleton. simpl. split_and!; try done.
    rewrite !elem_of_cons. tauto.
  - cbn [fst snd]. split_and!; try done. unfold onicecandidate.
    destruct candidate as [c|]; [|intros msg H; by apply elem_of_nil in H].
    intros msg [= ->]%list_elem_of_singleton. simpl. split_and!; try done.
    rewrite !elem_of_cons. tauto.
Qed.

End SignalingFacts.

Section SignalingExamples.

Import DeployNetClient.

Lemma offer_only_below_maxPeers_witness :
  let s := new "site" 5 100 "client-a" in
  JsMap.get "peer-b" (peerConnections s) = None /\
  Z.of_nat (JsMap.size (peerConnections s)) < maxPeers s /\
  exists offer,
    createOffer_result plain_browser = Some offer /\
    SignalingSend {| type := 0; payload := "offer-sdp"; senderId := "client-a";
                     timestamp := "2024-01-01T00:00:00.000Z"; roomId := "site" |}
    = SignalingSend {| type := 0; payload := JSON_stringify plain_env offer;
                       senderId := clientId s; timestamp := toISOString plain_browser;
                       roomId := siteId s |}.
Proof.
  intros s.
  apply (offer_only_below_maxPeers plain_env plain_browser (from_peer_b 3 "{}").2 s).
  vm_compute. left.
Defined.

Lemma failed_offer_forgets_peer_witness :
  let io := {| createAnswer_result := "answer-sdp"; createOffer_result := None;
               toISOString := "2024-01-01T00:00:00.000Z" |} in
  let r := handlePeerDiscovery plain_env io (from_peer_b 3 "{}").2
             (new "site" 5 100 "client-a") in
  r.2 = [] /\
  JsMap.get "peer-b" (peers r.1) = None /\
  JsMap.get "peer-b" (peerConnections r.1) = None.
Proof.
  intros io r.
  apply (failed_offer_forgets_peer plain_env io (from_peer_b 3 "{}").2 "{}"
           (new "site" 5 100 "client-a")); by vm_compute.
Defined.

Lemma unknown_signal_type_ignored_witness :
  handleSignalingMessage plain_env plain_browser (from_peer_b 4 "{}").2
    (new "site" 5 100 "client-a")
  = (new "site" 5 100 "client-a", []).
Proof.
  apply (unknown_signal_type_ignored plain_env plain_browser (from_peer_b 4 "{}").2).
  simpl. rewrite !not_elem_of_cons. split_and!; try done. apply not_elem_of_nil.
Defined.

Lemma negotiation_never_registers_peer_witness :
  let s' := handleSignalingMessages plain_env
              [from_peer_b 0 "offer"; from_peer_b 2 "candidate"]
              (new "site" 5 100 "client-a") in
  peers s' = [] /\ requestFromPeers (fun _ => Replied (Some "hello")) "/a.js" s' = (Exhausted, []).
Proof.
  apply (negotiation_never_registers_peer plain_env
           [from_peer_b 0 "offer"; from_peer_b 2 "candidate"]
           (fun _ => Replied (Some "hello")) "/a.js" (new "site" 5 100 "client-a")).
  - repeat constructor.
  - reflexivity.
Defined.

Lemma signaling_sends_carry_client_identity_witness :
  let s := new "site" 5 100 "client-a" in
  let r := step plain_env (onIceCandidate plain_browser (Some "candidate")) s in
  clientId r.1 = "client-a" /\ siteId r.1 = "site" /\
  (forall msg, SignalingSend msg ∈ r.2 ->
     senderId msg = "client-a" /\ roomId msg = "site" /\ type msg ∈ [0; 1; 2; 6]).
Proof.
  intros s r.
  apply (signaling_sends_carry_client_identity plain_env
           (onIceCandidate plain_browser (Some "candidate")) s).
Defined.

End SignalingExamples.

(** ** The event emitter *)

Section EmitterFacts.

Import EventEmitter.

Lemma listeners_addListener event event' h st :
  listeners event' (addListener event h st)
  = if decide (event' = event) then listeners event st ++ [h] else listeners event' st.
Proof.
  unfold listeners, addListener, JsMap.has.
  destruct st as [m|]; simpl.
  - destruct (JsMap.get event m) as [hs|] eqn:Hget.
    + rewrite jsmap_get_set, Hget. case_decide; reflexivity.
    + rewrite !jsmap_get_set. rewrite (decide_True (P := event = event)) by done.
      simpl. case_decide; reflexivity.
  - rewrite !(decide_True (P := event = event)) by done. simpl.
    case_decide; reflexivity.
Qed.

Lemma listeners_removeListener event event' h st :
  listeners event' (removeListener event h st)
  = if decide (event' = event) then remove_first h (listeners event st)
    else listeners event' st.
Proof.
  unfold listeners, removeListener.
  destruct st as [m|]; simpl; [|by case_decide].
  destruct (JsMap.get event m) as [hs|] eqn:Hget.
  - rewrite jsmap_get_set. case_decide; by subst.
  - case_decide; [subst; by rewrite Hget|done].
Qed.

Lemma remove_first_absent h l : h ∉ l -> remove_first h l = l.
Proof.
  induction l as [|x l IH]; simpl; [done|].
  intros [Hx Hl]%not_elem_of_cons. rewrite decide_False by done. f_equal. auto.
Qed.

Lemma remove_first_app_absent h pre l : h ∉ pre -> remove_first h (pre ++ l) = pre ++ remove_first h l.
Proof.
  induction pre as [|x pre IH]; simpl; [done|].
  intros [Hx Hl]%not_elem_of_cons. rewrite decide_False by done. f_equal. auto.
Qed.

Lemma remove_first_other x h l : x <> h -> x ∈ remove_first h l <-> x ∈ l.
Proof.
  intros Hne. induction l as [|y l IH]; simpl; [done|].
  case_decide; subst.
  - rewrite elem_of_cons. split; [by right|]. by intros [?|?].
  - rewrite !elem_of_cons, IH. done.
Qed.

Lemma remove_first_subset x h l : x ∈ remove_first h l -> x ∈ l.
Proof.
  induction l as [|y l IH]; simpl; [done|].
  case_decide; [by right|]. rewrite !elem_of_cons. intros [?|?]; [by left|right; auto].
Qed.

(** X18.  Removing a listener right after adding it gives back the
    listeners there were, when the handler was not already registered for
    the event (a handler registered before loses its earlier place
    instead); listeners of other events are not touched. *)
Theorem addListener_removeListener (event : string) (h : handler) (st : t) :
  h ∉ listeners event st ->
  forall event',
    listeners event' (removeListener event h (addListener event h st))
    = listeners event' st.
Proof.
  intros Hnotin event'.
  rewrite listeners_removeListener, !listeners_addListener.
  repeat case_decide; try done.
  rewrite remove_first_app_absent by done. simpl. rewrite decide_True by done.
  subst. by rewrite app_nil_r.
Qed.

Lemma addListener_removeListener_witness :
  listeners "peerMessage"
    (removeListener "peerMessage" 2%nat
       (addListener "peerMessage" 2%nat (addListener "peerMessage" 1%nat None)))
  = listeners "peerMessage" (addListener "peerMessage" 1%nat None).
Proof.
  apply (addListener_removeListener "peerMessage" 2%nat
           (addListener "peerMessage" 1%nat None)).
  vm_compute. intros H. apply list_elem_of_singleton in H. discriminate.
Defined.

Lemma emit_loop_no_removal removes k n l :
  (forall h, h ∈ l -> removes h = false) ->
  (k + n = length l)%nat ->
  emit_loop removes (seq k n) l = (drop k l, l).
Proof.
  intros Hno. revert k. induction n as [|n IH]; intros k Hlen; simpl.
  - by rewrite drop_ge by lia.
  - destruct (l !! k) as [h|] eqn:Hk.
    + rewrite Hno by by eapply list_elem_of_lookup_2.
      rewrite IH by lia. by rewrite (drop_S _ _ _ Hk).
    + apply lookup_ge_None in Hk. lia.
Qed.

Lemma listeners_emit event event' removes st :
  event' <> event -> listeners event' (emit event removes st).2 = listeners event' st.
Proof.
  intros Hne. unfold emit, listeners. destruct st as [m|]; [|done].
  destruct (JsMap.get event m) as [hs|]; [|done].
  destruct (emit_loop removes (seq 0 (length hs)) hs). simpl.
  rewrite jsmap_get_set. by rewrite decide_False.
Qed.

(** X19.  When no handler removes itself, [emit] calls every listener of
    the event once, in the order of registration, and leaves the listeners
    as they are; on an event without listeners, and before any
    [addListener], it calls nothing. *)
Theorem emit_calls_every_listener (event : string) (removes : handler -> bool) (st : t) :
  (forall h, h ∈ listeners event st -> removes h = false) ->
  (emit event removes st).1 = listeners event st /\
  forall event', listeners event' (emit event removes st).2 = listeners event' st.
Proof.
  intros Hno. split.
  - unfold emit, listeners in *. destruct st as [m|]; [|done].
    destruct (JsMap.get event m) as [hs|]; [|done]. simpl in *.
    by rewrite (emit_loop_no_removal removes 0 (length hs) hs Hno).
  - intros event'. destruct (decide (event' = event)) as [->|Hne];
      [|by apply listeners_emit].
    unfold emit, listeners in *. destruct st as [m|]; [|done].
    destruct (JsMap.get event m) as [hs|] eqn:Hget; [|simpl; by rewrite Hget]. simpl in *.
    rewrite (emit_loop_no_removal removes 0 (length hs) hs Hno) by done. simpl.
    rewrite jsmap_get_set. by rewrite decide_True.
Qed.

Lemma emit_calls_every_listener_witness :
  let st := addListener "peerMessage" 2%nat (addListener "peerMessage" 1%nat None) in
  (emit "peerMessage" (fun _ => false) st).1 = [1%nat; 2%nat] /\
  forall event',
    listeners event' (emit "peerMessage" (fun _ => false) st).2 = listeners event' st.
Proof.
  intros st. apply (emit_calls_every_listener "peerMessage" (fun _ => false) st). done.
Defined.

Lemma drop_remove_first_subset x h k l :
  x ∈ drop k (remove_first h l) -> x ∈ drop k l.
Proof.
  revert k. induction l as [|y l IH]; intros k; simpl; [done|].
  case_decide.
  - destruct k as [|k]; simpl; [by right|].
    intros Hx. apply (list_elem_of_lookup_1) in Hx as [i Hi].
    rewrite lookup_drop in Hi. apply (list_elem_of_lookup_2 _ (S i)).
    rewrite lookup_drop. by replace (k + S i)%nat with (S k + i)%nat by lia.
  - destruct k as [|k]; simpl.
    + rewrite !elem_of_cons. intros [?|Hx]; [by left|right].
      by apply (IH 0%nat).
    + apply IH.
Qed.

(** What [emit_loop] calls from index [k] on was at index [k] or later in
    the array; what it does not call stays in the array; and nothing
    enters the array. *)
Lemma emit_loop_calls removes k indices l :
  Forall (fun j => k <= j)%nat indices ->
  (forall x, x ∈ (emit_loop removes indices l).1 -> x ∈ drop k l) /\
  (forall x, x ∈ l -> x ∉ (emit_loop removes indices l).1 -> x ∈ (emit_loop removes indices l).2) /\
  (forall x, x ∈ (emit_loop removes indices l).2 -> x ∈ l).
Proof.
  intros Hk. revert l. induction Hk as [|j indices Hj _ IH]; intros l; simpl.
  { split_and!; [intros x H; by apply elem_of_nil in H|auto|auto]. }
  destruct (l !! j) as [h|] eqn:Hlj; [|apply IH].
  set (l' := if removes h then remove_first h l else l).
  destruct (IH l') as (IH1 & IH2 & IH3).
  assert (Hsub : forall x, x ∈ drop k l' -> x ∈ drop k l).
  { unfold l'. destruct (removes h); [intros x; apply drop_remove_first_subset|done]. }
  assert (Hsub' : forall x, x ∈ l' -> x ∈ l).
  { unfold l'. destruct (removes h); [intros x; apply remove_first_subset|done]. }
  destruct (emit_loop removes indices l') as [called final]. simpl in *.
  split; [|split].
  - intros x [->|Hx]%elem_of_cons; [|auto].
    apply (list_elem_of_lookup_2 _ (j - k)). rewrite lookup_drop.
    by replace (k + (j - k))%nat with j by lia.
  - intros x Hx Hnot. apply not_elem_of_cons in Hnot as [Hne Hnot].
    apply IH2; [|done]. unfold l'. destruct (removes h); [|done].
    by apply remove_first_other.
  - auto.
Qed.

Lemma emit_loop_app removes ks1 ks2 l :
  emit_loop removes (ks1 ++ ks2) l
  = let '(c1, l1) := emit_loop removes ks1 l in
    let '(c2, l2) := emit_loop removes ks2 l1 in
    (c1 ++ c2, l2).
Proof.
  revert l. induction ks1 as [|k ks1 IH]; intros l; simpl.
  - by destruct (emit_loop removes ks2 l).
  - destruct (l !! k) as [h|]; [|apply IH].
    rewrite IH.
    destruct (emit_loop removes ks1 _) as [c1 l1].
    by destruct (emit_loop removes ks2 l1).
Qed.

Lemma emit_loop_cons removes k rest l h :
  l !! k = Some h ->
  emit_loop removes (k :: rest) l
  = let '(called, final) :=
      emit_loop removes rest (if removes h then remove_first h l else l) in
    (h :: called, final).
Proof. intros H. simpl. by rewrite H. Qed.

Lemma emit_loop_quiet_prefix removes pre rest :
  (forall x, x ∈ pre -> removes x = false) ->
  emit_loop removes (seq 0 (length pre)) (pre ++ rest) = (pre, pre ++ rest).
Proof.
  intros Hq.
  assert (H : forall k n, (k + n = length pre)%nat ->
            emit_loop removes (seq k n) (pre ++ rest) = (drop k pre, pre ++ rest)).
  { intros k n. revert k. induction n as [|n IH]; intros k Hlen; simpl.
    - by rewrite drop_ge by lia.
    - destruct (pre !! k) as [h|] eqn:Hk; [|apply lookup_ge_None in Hk; lia].
      rewrite (lookup_app_l_Some _ _ _ _ Hk).
      rewrite Hq by by eapply list_elem_of_lookup_2.
      rewrite IH by lia. by rewrite (drop_S _ _ _ Hk). }
  by rewrite (H 0%nat (length pre)).
Qed.

(** X20.  A handler that removes itself while [emit] runs makes [emit]
    pass over the listener registered right after it: the array shifts
    under [forEach].  With the listeners [pre ++ h :: next :: post], all
    different, where [h] removes itself and no handler of [pre] does, [h]
    is called and removed, [next] is not called and stays registered. *)
Theorem emit_skips_listener_after_self_removal
    (event : string) (removes : handler -> bool) (st : t)
    (pre : list handler) (h next : handler) (post : list handler) :
  listeners event st = pre ++ h :: next :: post ->
  NoDup (listeners event st) ->
  removes h = true ->
  (forall x, x ∈ pre -> removes x = false) ->
  let r := emit event removes st in
  h ∈ r.1 /\ (next ∉ r.1) /\
  next ∈ listeners event r.2 /\ h ∉ listeners event r.2.
Proof.
  intros Hl Hnd Hh Hpre r. subst r.
  unfold emit, listeners in *. destruct st as [m|]; [|by destruct pre].
  destruct (JsMap.get event m) as [hs|] eqn:Hget; [|by destruct pre]. simpl in *. subst hs.
  apply NoDup_app in Hnd as (Hnd_pre & Hdisj & Hnd_rest).
  apply NoDup_cons in Hnd_rest as (Hh_rest & Hnd_rest).
  apply NoDup_cons in Hnd_rest as (Hnext_post & _).
  assert (Hh_pre : h ∉ pre) by (intros Hin; apply (Hdisj _ Hin); left).
  assert (Hnext_pre : next ∉ pre) by (intros Hin; apply (Hdisj _ Hin); right; left).
  assert (Hne : next <> h) by (intros ->; apply Hh_rest; left).
  rewrite length_app. cbn [length].
  replace (length pre + S (S (length post)))%nat
    with (length pre + (1 + S (length post)))%nat by lia.
  rewrite seq_app, emit_loop_app, emit_loop_quiet_prefix by done.
  cbn [Nat.add].
  change (seq (length pre) (S (S (length post))))
    with (length pre :: seq (S (length pre)) (S (length post))).
  rewrite (emit_loop_cons _ _ _ _ h) by by apply list_lookup_middle.
  rewrite Hh, remove_first_app_absent by done. cbn [remove_first].
  rewrite decide_True by done.
  destruct (emit_loop_calls removes (S (length pre)) (seq (S (length pre)) (S (length post)))
              (pre ++ next :: post)) as (Hcalled & Hkept & Hfinal).
  { apply Forall_forall. intros j Hj. apply list_elem_of_In, in_seq in Hj. lia. }
  destruct (emit_loop removes (seq (S (length pre)) (S (length post))) (pre ++ next :: post))
    as [called final]. simpl in *.
  assert (Hdrop : drop (S (length pre)) (pre ++ next :: post) = post).
  { rewrite drop_app_ge by lia. by replace (S (length pre) - length pre)%nat with 1%nat by lia. }
  rewrite Hdrop in Hcalled.
  assert (Hnext_called : next ∉ called) by (intros Hin; by apply Hcalled in Hin).
  rewrite jsmap_get_set, decide_True by done. simpl.
  split_and!.
  - apply elem_of_app. right. left.
  - rewrite elem_of_app, elem_of_cons. intros [?|[?|?]]; done.
  - apply Hkept; [|done]. apply elem_of_app. right. left.
  - intros Hin%Hfinal. apply elem_of_app in Hin as [?|Hin]; [done|].
    apply Hh_rest. apply elem_of_cons in Hin as [->|?]; [left|by right].
Qed.

Lemma emit_skips_listener_after_self_removal_witness :
  let st := addListener "peerMessage" 2%nat (addListener "peerMessage" 1%nat None) in
  let r := emit "peerMessage" (fun _ => true) st in
  1%nat ∈ r.1 /\ (2%nat ∉ r.1) /\
  2%nat ∈ listeners "peerMessage" r.2 /\ 1%nat ∉ listeners "peerMessage" r.2.
Proof.
  intros st.
  apply (emit_skips_listener_after_self_removal "peerMessage" (fun _ => true) st
           [] 1%nat 2%nat []).
  - reflexivity.
  - vm_compute. repeat constructor; rewrite ?elem_of_cons; try apply not_elem_of_nil.
    intros [?|?%elem_of_nil]; [discriminate|done].
  - reflexivity.
  - intros x H. by apply elem_of_nil in H.
Defined.

End EmitterFacts.

(** ** More on the relay hub *)

Section HubInvariants.

Import Hub.

(** X21.  In every state the server reaches, a client that a room holds is
    held under its own id, and the room is the one the client named when
    it connected. *)
Theorem rooms_hold_their_own_clients
    (w : World) (r : string) (room : gmap string ptr) (id : string) (p : ptr) :
  reachable w ->
  Rooms (hub w) !! r = Some room ->
  room !! id = Some p ->
  exists c, heap w !! p = Some c /\ ID c = id /\ Client_RoomID c = r.
Proof. intros Hr%reachable_wf. apply Hr. Qed.

Lemma rooms_hold_their_own_clients_witness :
  exists c, heap three_clients !! 2%positive = Some c /\ ID c = "bob" /\ Client_RoomID c = "site".
Proof.
  apply (rooms_hold_their_own_clients three_clients "site"
           {[ "alice" := 1%positive; "bob" := 2%positive ]} "bob" 2%positive).
  - exact three_clients_reachable.
  - by vm_compute.
  - by vm_compute.
Defined.

Lemma rooms_inhabited_Register w p client :
  rooms_inhabited w ->
  rooms_inhabited {| hub := Run_Register client p (hub w); heap := heap w;
                     run_state := Looping |}.
Proof.
  intros Hin r room. unfold Run_Register. simpl.
  destruct (decide (r = Client_RoomID client)) as [->|Hr].
  - rewrite lookup_insert_eq. intros [= <-]. apply insert_non_empty.
  - rewrite lookup_insert_ne by done.
    destruct (Rooms (hub w) !! Client_RoomID client); [apply Hin|].
    rewrite lookup_insert_ne by done. apply Hin.
Qed.

Lemma rooms_inhabited_Unregister w client h' :
  rooms_inhabited w -> Run_Unregister client (hub w) = Some h' ->
  forall r room, Rooms h' !! r = Some room -> room <> ∅.
Proof.
  intros Hin. unfold Run_Unregister.
  destruct (Clients (hub w) !! ID client); [|done]. intros [= <-] r room. simpl.
  destruct (Rooms (hub w) !! Client_RoomID client) as [room0|] eqn:Hroom0; [|apply Hin].
  case_decide as Hsize.
  - destruct (decide (r = Client_RoomID client)) as [->|Hr].
    + by rewrite lookup_delete_eq.
    + rewrite lookup_delete_ne by done. apply Hin.
  - destruct (decide (r = Client_RoomID client)) as [->|Hr].
    + rewrite lookup_insert_eq. intros [= <-] Hempty. apply Hsize.
      rewrite Hempty. apply map_size_empty.
    + rewrite lookup_insert_ne by done. apply Hin.
Qed.

Lemma rooms_inhabited_Run ev w w' : rooms_inhabited w -> Run ev w w' -> rooms_inhabited w'.
Proof.
  intros Hin Hrun.
  destruct Hrun as [p client w Hst Hp|p client h' w Hst Hp Hun|p client w Hst Hp Hun
                   |message room order w Hst Hroom Hperm|message w Hst Hroom]; try done.
  - by apply rooms_inhabited_Register.
  - pose proof (rooms_inhabited_Unregister _ _ _ Hin Hun) as H'.
    by destruct (chan_closed (Send client)).
Qed.

Lemma rooms_inhabited_step w w' : rooms_inhabited w -> step w w' -> rooms_inhabited w'.
Proof.
  intros Hin Hstep.
  destruct Hstep as [id room generated p w w' Hfresh Hrun|p c r ev w w' Hp Hr Hrun
                    |p c err c' w Hp Hpump]; [| |done].
  - eapply rooms_inhabited_Run; [|exact Hrun]. done.
  - by eapply rooms_inhabited_Run.
Qed.

(** X22.  A room exists only while it has a member: in every state the
    server reaches, no room of the hub is empty. *)
Theorem no_empty_room (w : World) (r : string) (room : gmap string ptr) :
  reachable w ->
  Rooms (hub w) !! r = Some room ->
  exists id p, room !! id = Some p.
Proof.
  intros Hreach Hroom.
  assert (Hin : rooms_inhabited w).
  { clear Hroom. induction Hreach as [|w w' _ IH Hstep]; [|by eapply rooms_inhabited_step].
    intros r' room'. simpl. by rewrite lookup_empty. }
  apply Hin in Hroom. by apply map_choose in Hroom as (id & p & ?); eauto.
Qed.

Lemma no_empty_room_witness :
  exists id p,
    ({[ "alice" := 1%positive; "bob" := 2%positive ]} : gmap string ptr) !! id = Some p.
Proof.
  apply (no_empty_room three_clients "site").
  - exact three_clients_reachable.
  - by vm_compute.
Defined.

Lemma Broadcast_one_room message c c' :
  Broadcast_one message c = Sent c' ->
  (length (buf (Send c)) < cap (Send c))%nat.
Proof.
  unfold Broadcast_one.
  case_decide; [|done]. destruct (chan_closed (Send c)); [done|].
  by case_decide.
Qed.

Lemma WritePump_client err c c' :
  pumped (WritePump err c) = Some c' ->
  ID c' = ID c /\ Client_RoomID c' = Client_RoomID c /\
  cap (Send c') = cap (Send c) /\ chan_closed (Send c') = chan_closed (Send c) /\
  (length (buf (Send c')) <= length (buf (Send c)))%nat.
Proof.
  unfold WritePump.
  destruct (buf (Send c)) as [|message rest] eqn:Hbuf.
  - destruct (chan_closed (Send c)) eqn:Hcl; simpl; [|done]. intros [= <-]. by rewrite Hbuf.
  - destruct err; intros [= <-]; simpl; split_and!; try done; lia.
Qed.

(** What [Run_Unregister] leaves in the rooms was there before, and is not
    the entry of the client's id in the client's room. *)
Lemma Run_Unregister_members client h h' r room id q :
  Run_Unregister client h = Some h' ->
  Rooms h' !! r = Some room -> room !! id = Some q ->
  (exists room0, Rooms h !! r = Some room0 /\ room0 !! id = Some q) /\
  ~ (r = Client_RoomID client /\ id = ID client).
Proof.
  unfold Run_Unregister.
  destruct (Clients h !! ID client); [|done]. intros [= <-]. simpl.
  destruct (Rooms h !! Client_RoomID client) as [room0|] eqn:Hroom0.
  - case_decide.
    + destruct (decide (r = Client_RoomID client)) as [->|Hr].
      * by rewrite lookup_delete_eq.
      * rewrite lookup_delete_ne by done. intros Hroom Hid.
        split; [by exists room|]. by intros [? _].
    + destruct (decide (r = Client_RoomID client)) as [->|Hr].
      * rewrite lookup_insert_eq. intros [= <-].
        destruct (decide (id = ID client)) as [->|Hid].
        -- by rewrite lookup_delete_eq.
        -- rewrite lookup_delete_ne by done. intros Hq.
           split; [by exists room0|]. by intros [_ ?].
      * rewrite lookup_insert_ne by done. intros Hroom Hid.
        split; [by exists room|]. by intros [? _].
  - intros Hroom Hid. split; [by exists room|]. intros [-> _]. congruence.
Qed.

Lemma members_open_Register w p client :
  members_open w -> heap w !! p = Some client -> chan_closed (Send client) = false ->
  members_open {| hub := Run_Register client p (hub w); heap := heap w;
                  run_state := Looping |}.
Proof.
  intros Hopen Hp Hclient r room id q c. unfold Run_Register. simpl.
  destruct (decide (r = Client_RoomID client)) as [->|Hr].
  - rewrite lookup_insert_eq. intros [= <-].
    destruct (decide (id = ID client)) as [->|Hid].
    + rewrite lookup_insert_eq. intros [= <-]. congruence.
    + rewrite lookup_insert_ne by done.
      destruct (Rooms (hub w) !! Client_RoomID client) as [room|] eqn:Hroom.
      * rewrite Hroom. simpl. intros. by eapply Hopen.
      * rewrite lookup_insert_eq. simpl. by rewrite lookup_empty.
  - rewrite lookup_insert_ne by done.
    destruct (Rooms (hub w) !! Client_RoomID client) eqn:Hroom.
    + by apply Hopen.
    + rewrite lookup_insert_ne by done. by apply Hopen.
Qed.

Lemma members_open_Run ev w w' :
  (forall p, ev <> fromRegister p) ->
  wf w -> members_open w -> Run ev w w' -> members_open w'.
Proof.
  intros Hev Hwf Hopen Hrun.
  destruct Hrun as [p client w Hst Hp|p client h' w Hst Hp Hun|p client w Hst Hp Hun
                   |message room0 order w Hst Hroom Hperm|message w Hst Hroom]; try done.
  - by destruct (Hev p).
  - assert (Hsub : forall r room id q c,
               Rooms h' !! r = Some room -> room !! id = Some q ->
               heap w !! q = Some c -> q <> p /\ chan_closed (Send c) = false).
    { intros r room id q c Hroom Hid Hq.
      destruct (Run_Unregister_members _ _ _ _ _ _ _ Hun Hroom Hid)
        as [(room0 & Hroom0 & Hid0) Hne].
      split; [|by eapply Hopen].
      intros ->. destruct (Hwf _ _ _ _ Hroom0 Hid0) as (c0 & Hc0 & <- & <-).
      apply Hne. split; congruence. }
    destruct (chan_closed (Send client)).
    + intros r room id q c Hroom Hid Hq. simpl in *. by eapply Hsub.
    + intros r room id q c Hroom Hid. simpl in *.
      destruct (decide (q = p)) as [->|Hqp].
      * destruct (Run_Unregister_members _ _ _ _ _ _ _ Hun Hroom Hid)
          as [(room0 & Hroom0 & Hid0) Hne].
        destruct (Hwf _ _ _ _ Hroom0 Hid0) as (c0 & Hc0 & <- & <-).
        destruct Hne. split; congruence.
      * rewrite lookup_insert_ne by done. intros Hq. by eapply Hsub.
  - intros r room id q c' Hroom' Hid. simpl in *.
    assert (Hnd : NoDup order).
    { rewrite Hperm. by eapply wf_room_order. }
    pose proof (Broadcast_loop_heap message order (heap w) Hnd q) as Hloop.
    destruct (heap w !! q) as [c|] eqn:Hc; [|congruence].
    destruct Hloop as [Hsame|(c1 & _ & Hone & Hc1)]; rewrite ?Hsame, ?Hc1; intros [= <-].
    + by eapply Hopen.
    + apply Broadcast_one_Sent in Hone as (_ & _ & ->). done.
Qed.

Lemma members_open_step w w' : wf w -> members_open w -> step w w' -> members_open w'.
Proof.
  intros Hwf Hopen Hstep.
  destruct Hstep as [id room generated p w w' Hfresh Hrun|p c r ev w w' Hp Hr Hrun
                    |p c err c' w Hp Hpump].
  - set (w0 := {| hub := hub w; heap := <[p := serveWs_client id room generated]> (heap w);
                  run_state := run_state w |}) in *.
    assert (Hopen0 : members_open w0).
    { intros r0 room0 id0 q c Hroom0 Hid0. simpl.
      destruct (Hwf _ _ _ _ Hroom0 Hid0) as (c0 & Hc0 & _).
      rewrite lookup_insert_ne by congruence. by eapply Hopen. }
    inversion Hrun as [p0 client w1 Hst Hc| | | |]; subst.
    apply (members_open_Register w0 p client Hopen0 Hc).
    unfold w0 in Hc. simpl in Hc. rewrite lookup_insert_eq in Hc. by injection Hc as <-.
  - eapply members_open_Run; [|exact Hwf|exact Hopen|exact Hrun].
    intros q ->. by destruct r.
  - intros r room id q d Hroom Hid. simpl in *.
    destruct (decide (q = p)) as [->|Hne].
    + rewrite lookup_insert_eq. intros [= <-].
      apply WritePump_client in Hpump as (_ & _ & _ & -> & _). by eapply Hopen.
    + rewrite lookup_insert_ne by done. by eapply Hopen.
Qed.

Lemma reachable_members_open w : reachable w -> members_open w.
Proof.
  induction 1 as [|w w' Hreach IH Hstep].
  - intros r room id p c. simpl. by rewrite lookup_empty.
  - eapply members_open_step; [|exact IH|exact Hstep]. by apply reachable_wf.
Qed.

Lemma buffers_bounded_Run ev w w' : wf w -> buffers_bounded w -> Run ev w w' -> buffers_bounded w'.
Proof.
  intros Hwf Hb Hrun.
  destruct Hrun as [p client w Hst Hp|p client h' w Hst Hp Hun|p client w Hst Hp Hun
                   |message room0 order w Hst Hroom Hperm|message w Hst Hroom]; try done.
  - destruct (chan_closed (Send client)); [done|].
    intros q c. simpl. destruct (decide (q = p)) as [->|Hne].
    + rewrite lookup_insert_eq. intros [= <-]. simpl. by apply Hb in Hp.
    + rewrite lookup_insert_ne by done. apply Hb.
  - intros q c'. simpl.
    assert (Hnd : NoDup order).
    { rewrite Hperm. by eapply wf_room_order. }
    pose proof (Broadcast_loop_heap message order (heap w) Hnd q) as Hloop.
    destruct (heap w !! q) as [c|] eqn:Hc; [|congruence].
    apply Hb in Hc as [Hlen Hcap].
    destruct Hloop as [Hsame|(c1 & _ & Hone & Hc1)]; rewrite ?Hsame, ?Hc1; intros [= <-].
    + done.
    + pose proof (Broadcast_one_room _ _ _ Hone) as Hroom'.
      apply Broadcast_one_Sent in Hone as (_ & _ & ->). simpl.
      rewrite length_app. simpl. split; [lia|done].
Qed.

Lemma buffers_bounded_step w w' : wf w -> buffers_bounded w -> step w w' -> buffers_bounded w'.
Proof.
  intros Hwf Hb Hstep.
  destruct Hstep as [id room generated p w w' Hfresh Hrun|p c r ev w w' Hp Hr Hrun
                    |p c err c' w Hp Hpump].
  - eapply buffers_bounded_Run; [| |exact Hrun].
    + eapply wf_heap_change; [exact Hwf|done|]. simpl. intros q c Hq.
      exists c. rewrite lookup_insert_ne; [done|]. congruence.
    + intros q c. simpl. destruct (decide (q = p)) as [->|Hne].
      * rewrite lookup_insert_eq. intros [= <-]. simpl. split; [lia|done].
      * rewrite lookup_insert_ne by done. apply Hb.
  - by eapply buffers_bounded_Run.
  - intros q d. simpl. destruct (decide (q = p)) as [->|Hne].
    + rewrite lookup_insert_eq. intros [= <-].
      apply WritePump_client in Hpump as (_ & _ & Hcap & _ & Hlen).
      apply Hb in Hp as [? ?]. split; [lia|congruence].
    + rewrite lookup_insert_ne by done. apply Hb.
Qed.

Lemma reachable_buffers_bounded w : reachable w -> buffers_bounded w.
Proof.
  induction 1 as [|w w' Hreach IH Hstep].
  - intros p c. simpl. by rewrite lookup_empty.
  - eapply buffers_bounded_step; [|exact IH|exact Hstep]. by apply reachable_wf.
Qed.

(** X23.  A client's send queue is made with room for 256 messages and
    never holds more: in every state the server reaches, each client's
    [Send] channel has capacity 256 and at most 256 messages waiting. *)
Theorem send_queue_within_capacity (w : World) (p : ptr) (c : Client) :
  reachable w ->
  heap w !! p = Some c ->
  cap (Send c) = 256%nat /\ (length (buf (Send c)) <= 256)%nat.
Proof.
  intros Hb%reachable_buffers_bounded Hc. apply Hb in Hc as [? ?]. split; [done|lia].
Qed.

Lemma send_queue_within_capacity_witness :
  cap (Send bob) = 256%nat /\ (length (buf (Send bob)) <= 256)%nat.
Proof.
  apply (send_queue_within_capacity three_clients 2%positive bob).
  - exact three_clients_reachable.
  - by vm_compute.
Defined.

(** The loop of the Broadcast case does not panic when every client of the
    order has an open channel. *)
Lemma Broadcast_loop_open message order heap :
  (forall p c, p ∈ order -> heap !! p = Some c -> chan_closed (Send c) = false) ->
  (Broadcast_loop message order heap).2 <> Panicked.
Proof.
  revert heap. induction order as [|p0 order IH]; intros heap Hopen; simpl; [done|].
  destruct (heap !! p0) as [c0|] eqn:Hc0.
  - destruct (Broadcast_one message c0) as [|c0'| |] eqn:Hone; simpl; try done.
    + apply IH. intros p c Hin. apply Hopen. by right.
    + apply IH. intros p c Hin. destruct (decide (p = p0)) as [->|Hne].
      * rewrite lookup_insert_eq. intros [= <-].
        by apply Broadcast_one_Sent in Hone as (_ & _ & ->).
      * rewrite lookup_insert_ne by done. apply Hopen. by right.
    + unfold Broadcast_one in Hone. case_decide; [|done].
      rewrite (Hopen p0 c0) in Hone; [|by left|done]. by case_decide.
  - apply IH. intros p c Hin. apply Hopen. by right.
Qed.

Lemma Run_Broadcast_open w w' message :
  wf w -> members_open w -> Run (fromBroadcast message) w w' -> run_state w' <> Panicked.
Proof.
  intros Hwf Hopen Hrun.
  inversion Hrun as [| | |m room order w0 Hst Hroom Hperm|m w0 Hst Hroom]; subst; simpl.
  - apply Broadcast_loop_open. intros p c Hin Hc.
    rewrite Hperm in Hin. apply list_elem_of_fmap in Hin as ([id p'] & -> & Hin).
    apply elem_of_map_to_list in Hin. by eapply Hopen.
  - congruence.
Qed.

(** X24.  The hub never sends on a closed channel: a client is taken out
    of its room before its [Send] channel is closed, so in every state the
    server reaches the channels of all room members are open and the
    Broadcast case cannot panic. *)
Theorem broadcast_never_panics (w w' : World) (message : SignalMessage) :
  reachable w ->
  Run (fromBroadcast message) w w' ->
  run_state w' <> Panicked /\
  forall r p c, registered_in w r p -> heap w !! p = Some c -> chan_closed (Send c) = false.
Proof.
  intros Hreach Hrun. split.
  - eapply Run_Broadcast_open; [by apply reachable_wf|by apply reachable_members_open|done].
  - intros r p c (room & id & Hroom & Hid) Hc.
    by eapply (reachable_members_open w Hreach).
Qed.

Lemma broadcast_never_panics_witness :
  let room := default ∅ (Rooms (hub three_clients) !! "site") in
  let order := (map_to_list room).*2 in
  let w' := {| hub := hub three_clients;
               heap := (Broadcast_loop offer_from_alice order (heap three_clients)).1;
               run_state := (Broadcast_loop offer_from_alice order (heap three_clients)).2 |} in
  run_state w' <> Panicked /\
  forall r p c, registered_in three_clients r p -> heap three_clients !! p = Some c ->
    chan_closed (Send c) = false.
Proof.
  intros room order w'.
  apply (broadcast_never_panics three_clients w' offer_from_alice).
  - exact three_clients_reachable.
  - apply (Run_case_Broadcast offer_from_alice room order three_clients).
    + reflexivity.
    + by vm_compute.
    + reflexivity.
Defined.

Lemma Broadcast_loop_delivers message order heap :
  NoDup order ->
  (forall p c, p ∈ order -> heap !! p = Some c -> ID c <> SenderID message ->
     chan_closed (Send c) = false /\ (length (buf (Send c)) < cap (Send c))%nat) ->
  (Broadcast_loop message order heap).2 = Looping /\
  forall p c, p ∈ order -> heap !! p = Some c -> ID c <> SenderID message ->
    exists c', (Broadcast_loop message order heap).1 !! p = Some c' /\
               enqueued (Payload message) c c'.
Proof.
  revert heap. induction order as [|p0 order IH]; intros heap Hnd Hroom; simpl.
  { split; [done|]. intros p c Hin. by apply elem_of_nil in Hin. }
  apply NoDup_cons in Hnd as [Hp0 Hnd].
  assert (Hrest : forall p, p ∈ order -> p <> p0) by (intros p Hin ->; done).
  destruct (heap !! p0) as [c0|] eqn:Hc0.
  - unfold Broadcast_one. case_decide as Hid.
    + destruct (Hroom p0 c0) as [Hcl Hlen]; [by left|done|done|].
      rewrite Hcl. rewrite decide_True by done.
      set (c0' := set_Send _ c0).
      destruct (IH (<[p0 := c0']> heap) Hnd) as [Hst Hall].
      { intros p c Hin. rewrite lookup_insert_ne by (symmetry; by apply Hrest).
        apply Hroom. by right. }
      split; [done|]. intros p c Hin Hc Hne.
      apply elem_of_cons in Hin as [->|Hin].
      * assert (c = c0) as -> by congruence. exists c0'. split; [|done].
        pose proof (Broadcast_loop_heap message order (<[p0 := c0']> heap) Hnd p0) as Hloop.
        rewrite lookup_insert_eq in Hloop.
        destruct Hloop as [?|(c' & ? & _)]; done.
      * apply Hall; [done| |done]. rewrite lookup_insert_ne by (symmetry; by apply Hrest).
        done.
    + destruct (IH heap Hnd) as [Hst Hall].
      { intros p c Hin. apply Hroom. by right. }
      split; [done|]. intros p c Hin Hc Hne.
      apply elem_of_cons in Hin as [->|Hin]; [|by apply Hall].
      assert (c = c0) as -> by congruence. by destruct Hid.
  - destruct (IH heap Hnd) as [Hst Hall].
    { intros p c Hin. apply Hroom. by right. }
    split; [done|]. intros p c Hin Hc Hne.
    apply elem_of_cons in Hin as [->|Hin]; [congruence|by apply Hall].
Qed.

(** X25.  A broadcast whose recipients all have room in their send queues
    reaches every member of the room other than the sender, whatever the
    order in which the room is walked, and leaves the hub looping. *)
Theorem broadcast_reaches_every_other_member (w w' : World) (message : SignalMessage) :
  reachable w ->
  Run (fromBroadcast message) w w' ->
  (forall p c, registered_in w (RoomID message) p -> heap w !! p = Some c ->
     ID c <> SenderID message -> (length (buf (Send c)) < 256)%nat) ->
  run_state w' = Looping /\
  forall p c, registered_in w (RoomID message) p -> heap w !! p = Some c ->
    ID c <> SenderID message ->
    exists c', heap w' !! p = Some c' /\ enqueued (Payload message) c c'.
Proof.
  intros Hreach Hrun Hfree.
  pose proof (reachable_wf _ Hreach) as Hwf.
  pose proof (reachable_members_open _ Hreach) as Hopen.
  pose proof (reachable_buffers_bounded _ Hreach) as Hb.
  inversion Hrun as [| | |m room order w0 Hst Hroom Hperm|m w0 Hst Hroom]; subst; simpl.
  - assert (Hmem : forall p, p ∈ order <-> registered_in w (RoomID message) p).
    { intros p. rewrite Hperm. split.
      - intros ([id p'] & -> & Hin%elem_of_map_to_list)%list_elem_of_fmap.
        by exists room, id.
      - intros (room' & id & Hroom' & Hid). assert (room' = room) as -> by congruence.
        apply list_elem_of_fmap. exists (id, p). split; [done|].
        by apply elem_of_map_to_list. }
    destruct (Broadcast_loop_delivers message order (heap w)) as [Hloop Hall].
    + rewrite Hperm. by eapply wf_room_order.
    + intros p c Hin%Hmem Hc Hne. split.
      * destruct Hin as (room' & id & Hroom' & Hid). by eapply Hopen.
      * destruct (Hb _ _ Hc) as [_ ->]. by apply (Hfree p c).
    + split; [done|]. intros p c Hin%Hmem. by apply Hall.
  - split; [done|]. intros p c (room & id & Hroom' & _). congruence.
Qed.

Lemma broadcast_reaches_every_other_member_witness :
  let room := default ∅ (Rooms (hub three_clients) !! "site") in
  let order := (map_to_list room).*2 in
  let w' := {| hub := hub three_clients;
               heap := (Broadcast_loop offer_from_alice order (heap three_clients)).1;
               run_state := (Broadcast_loop offer_from_alice order (heap three_clients)).2 |} in
  run_state w' = Looping /\
  forall p c, registered_in three_clients "site" p -> heap three_clients !! p = Some c ->
    ID c <> "alice" ->
    exists c', heap w' !! p = Some c' /\ enqueued "{sdp}" c c'.
Proof.
  intros room order w'.
  apply (broadcast_reaches_every_other_member three_clients w' offer_from_alice).
  - exact three_clients_reachable.
  - apply (Run_case_Broadcast offer_from_alice room order three_clients).
    + reflexivity.
    + by vm_compute.
    + reflexivity.
  - intros p c _ Hc _. unfold three_clients, two_clients, one_client in Hc. simpl in Hc.
    repeat (apply lookup_insert_Some in Hc as [[_ <-]|[_ Hc]]; [simpl; lia|]).
    by rewrite lookup_empty in Hc.
Defined.

Lemma Broadcast_loop_full message order heap p c :
  p ∈ order -> heap !! p = Some c -> Broadcast_one message c = Full ->
  (Broadcast_loop message order heap).2 <> Looping.
Proof.
  revert heap. induction order as [|p0 order IH]; intros heap Hin Hc Hfull; simpl.
  { by apply elem_of_nil in Hin. }
  destruct (decide (p0 = p)) as [->|Hne].
  - by rewrite Hc, Hfull.
  - apply elem_of_cons in Hin as [?|Hin]; [congruence|].
    destruct (heap !! p0) as [c0|]; [|by apply IH].
    destruct (Broadcast_one message c0) as [|c0'| |]; simpl; try done.
    + by apply IH.
    + apply IH; [done| |done]. by rewrite lookup_insert_ne.
Qed.

(** X26.  A full send queue stops the hub.  When a broadcast finds the
    queue of a room member other than the sender full, the hub's loop
    blocks in the send on its own Unregister channel: the member is not
    removed from the hub, its channel is left as it was, and the loop takes
    no further turn, whatever it is sent. *)
Theorem full_queue_stops_hub
    (w w' : World) (message : SignalMessage) (p : ptr) (c : Client) :
  reachable w ->
  Run (fromBroadcast message) w w' ->
  registered_in w (RoomID message) p ->
  heap w !! p = Some c ->
  ID c <> SenderID message ->
  length (buf (Send c)) = 256%nat ->
  run_state w' = Stuck /\
  hub w' = hub w /\
  heap w' !! p = Some c /\
  forall ev w'', ~ Run ev w' w''.
Proof.
  intros Hreach Hrun (room & id & Hroom & Hid) Hc Hne Hlen.
  pose proof (reachable_wf _ Hreach) as Hwf.
  pose proof (reachable_members_open _ Hreach) as Hopen.
  pose proof (reachable_buffers_bounded _ Hreach) as Hb.
  assert (Hfull : Broadcast_one message c = Full).
  { unfold Broadcast_one. rewrite decide_True by done.
    rewrite (Hopen _ _ _ _ _ Hroom Hid Hc).
    destruct (Hb _ _ Hc) as [_ Hcap]. rewrite decide_False by lia. done. }
  assert (Hstuck : run_state w' = Stuck /\ hub w' = hub w /\ heap w' !! p = Some c).
  { pose proof (Run_Broadcast_open _ _ _ Hwf Hopen Hrun) as Hnp.
    inversion Hrun as [| | |m room' order w0 Hst Hroom' Hperm|m w0 Hst Hroom']; subst;
      [|congruence].
    assert (room' = room) as -> by congruence. simpl in *.
    assert (Hin : p ∈ order).
    { rewrite Hperm. apply list_elem_of_fmap. exists (id, p). split; [done|].
      by apply elem_of_map_to_list. }
    split; [|split; [done|]].
    - pose proof (Broadcast_loop_full message order (heap w) p c Hin Hc Hfull).
      by destruct (Broadcast_loop message order (heap w)).2.
    - assert (Hnd : NoDup order).
      { rewrite Hperm. by eapply wf_room_order. }
      pose proof (Broadcast_loop_heap message order (heap w) Hnd p) as Hloop.
      rewrite Hc in Hloop. destruct Hloop as [?|(c' & _ & Hsent & _)]; [done|congruence]. }
  destruct Hstuck as (Hst' & ? & ?). split_and!; try done.
  intros ev w'' Hrun'. inversion Hrun'; congruence.
Qed.

(** Broadcasts of a registered client, one after the other, are steps of
    the server; they leave the hub and the sender as they are. *)
Lemma flood_reachable n message room order w p c :
  reachable w -> heap w !! p = Some c -> SenderID message = ID c ->
  Rooms (hub w) !! RoomID message = Some room -> order ≡ₚ (map_to_list room).*2 ->
  reachable (flood n message order w) /\
  hub (flood n message order w) = hub w /\
  heap (flood n message order w) !! p = Some c.
Proof.
  intros Hreach Hc Hsender Hroom Hperm. induction n as [|n (IHr & IHh & IHc)]; [done|].
  simpl. destruct (run_state (flood n message order w)) eqn:Hst; [|done|done].
  simpl. split_and!; [|done|].
  - eapply reachable_step; [exact IHr|].
    apply (step_ReadPump p c (Unmarshalled message) (fromBroadcast message)); [done| |].
    + simpl. rewrite <- Hsender. by destruct message.
    + apply (Run_case_Broadcast message room); [done| |done]. by rewrite IHh.
  - assert (Hnd : NoDup order).
    { rewrite Hperm. eapply (wf_room_order (flood n message order w));
        [by apply reachable_wf|by rewrite IHh]. }
    pose proof (Broadcast_loop_heap message order
                  (heap (flood n message order w)) Hnd p) as Hloop.
    rewrite IHc in Hloop. destruct Hloop as [?|(c' & _ & Hsent & _)]; [done|].
    apply Broadcast_one_Sent in Hsent as [Hne _]. by destruct Hne.
Qed.

Lemma full_queue_stops_hub_witness :
  let room := default ∅ (Rooms (hub three_clients) !! "site") in
  let order := (map_to_list room).*2 in
  let w := flood 256 offer_from_alice order three_clients in
  let w' := {| hub := hub w;
               heap := (Broadcast_loop offer_from_alice order (heap w)).1;
               run_state := (Broadcast_loop offer_from_alice order (heap w)).2 |} in
  let c := set_Send {| buf := repeat "{sdp}" 256; cap := 256; chan_closed := false |} bob in
  run_state w' = Stuck /\
  hub w' = hub w /\
  heap w' !! 2%positive = Some c /\
  forall ev w'', ~ Run ev w' w''.
Proof.
  intros room order w w' c.
  destruct (flood_reachable 256 offer_from_alice room order three_clients 1%positive alice)
    as (Hreach & Hhub & _);
    [exact three_clients_reachable|by vm_compute|done|by vm_compute|done|].
  apply (full_queue_stops_hub w w' offer_from_alice 2%positive c).
  - exact Hreach.
  - apply (Run_case_Broadcast offer_from_alice room order w).
    + by vm_compute.
    + by vm_compute.
    + reflexivity.
  - exists room, "bob". split; by vm_compute.
  - by vm_compute.
  - done.
  - by vm_compute.
Defined.

(** X27.  [WritePump] writes a client's queue to its connection in queue
    order: after [n] turns with successful writes the connection has
    received the first [n] queued messages, in order, after what it had
    received before, and the rest of the queue is still waiting; turns
    beyond the length of the queue change nothing. *)
Theorem WritePump_writes_in_queue_order (n : nat) (c : Client) :
  WritePump_turns n c
  = set_Conn (Conn c ++ take n (buf (Send c)))
      (set_Send {| buf := drop n (buf (Send c)); cap := cap (Send c);
                   chan_closed := chan_closed (Send c) |} c).
Proof.
  revert c. induction n as [|n IH]; intros [id conn [b cp cl] r].
  - unfold set_Conn, set_Send. simpl. by rewrite app_nil_r.
  - simpl. unfold WritePump. simpl. destruct b as [|message rest].
    + unfold set_Conn, set_Send. simpl. rewrite app_nil_r. by destruct cl.
    + rewrite IH. unfold set_Conn, set_Send. simpl. by rewrite <- app_assoc.
Qed.

(** X28.  The Unregister case goes by the client's id, not by the
    connection.  When a client has connected again under the same id and
    room, the end of its older connection removes the newer one from the
    room and from the table of clients, and leaves the newer connection's
    client as it is, its channel open. *)
Theorem unregister_removes_newer_connection
    (w w' : World) (old new : ptr) (c_old c_new : Client) :
  reachable w ->
  old <> new ->
  heap w !! old = Some c_old ->
  heap w !! new = Some c_new ->
  ID c_old = ID c_new ->
  Client_RoomID c_old = Client_RoomID c_new ->
  Clients (hub w) !! ID c_new = Some new ->
  registered_in w (Client_RoomID c_new) new ->
  Run (fromUnregister old) w w' ->
  ~ registered_in w' (Client_RoomID c_new) new /\
  Clients (hub w') !! ID c_new = None /\
  heap w' !! new = Some c_new.
Proof.
  intros Hwf%reachable_wf Hne Hold Hnew Hid Hr Hclients _ Hrun.
  inversion Hrun as [|p client h' w0 Hst Hp Hun|p client w0 Hst Hp Hun| |]; subst.
  - assert (client = c_old) as -> by congruence.
    assert (Hhub : ~ registered_in {| hub := h'; heap := heap w; run_state := Looping |}
                     (Client_RoomID c_new) new /\
                   Clients h' !! ID c_new = None).
    { split.
      - intros (room & id & Hroom & Hmem). simpl in Hroom.
        destruct (Run_Unregister_members _ _ _ _ _ _ _ Hun Hroom Hmem)
          as [(room0 & Hroom0 & Hmem0) Hnot].
        destruct (Hwf _ _ _ _ Hroom0 Hmem0) as (c & Hc & <- & _).
        apply Hnot. split; congruence.
      - unfold Run_Unregister in Hun.
        destruct (Clients (hub w) !! ID c_old); [|done]. injection Hun as <-. simpl.
        rewrite Hid. apply lookup_delete_eq. }
    destruct Hhub as [Hreg Hcl].
    destruct (chan_closed (Send c_old)); simpl; (split; [exact Hreg|split; [done|]]);
      [done|by rewrite lookup_insert_ne].
  - assert (client = c_old) as -> by congruence.
    unfold Run_Unregister in Hun. rewrite Hid, Hclients in Hun. done.
Qed.

Lemma alice_again_reachable : reachable alice_again.
Proof.
  eapply reachable_step; [exact three_clients_reachable|].
  apply (step_serveWs "alice" "site" "" 4%positive three_clients alice_again); [done|].
  by apply (Run_case_Register 4%positive alice).
Qed.

Lemma unregister_removes_newer_connection_witness :
  let w' := {| hub := default NewHub (Run_Unregister alice (hub alice_again));
               heap := <[1%positive := set_Send {| buf := []; cap := 256; chan_closed := true |}
                                         alice]> (heap alice_again);
               run_state := Looping |} in
  ~ registered_in w' "site" 4%positive /\
  Clients (hub w') !! "alice" = None /\
  heap w' !! 4%positive = Some alice.
Proof.
  intros w'.
  apply (unregister_removes_newer_connection alice_again w' 1%positive 4%positive alice alice).
  - exact alice_again_reachable.
  - done.
  - by vm_compute.
  - by vm_compute.
  - done.
  - done.
  - by vm_compute.
  - exists {[ "alice" := 4%positive; "bob" := 2%positive ]}, "alice". split; by vm_compute.
  - apply (Run_case_Unregister 1%positive alice
             (default NewHub (Run_Unregister alice (hub alice_again))) alice_again).
    + done.
    + by vm_compute.
    + by vm_compute.
Defined.

(** X29.  Registering a client under an id the hub does not know and
    unregistering it again restores the hub's tables: the room the client
    opened is removed again, and a room that had other members is left
    with exactly those. *)
Theorem register_then_unregister_restores_hub (h : Hub_) (client : Client) (p : ptr) :
  Clients h !! ID client = None ->
  (forall room, Rooms h !! Client_RoomID client = Some room ->
     room !! ID client = None /\ room <> ∅) ->
  Run_Unregister client (Run_Register client p h) = Some h.
Proof.
  intros Hclients Hroom. destruct h as [clients rooms]. simpl in *.
  unfold Run_Unregister, Run_Register. simpl.
  rewrite !lookup_insert_eq. f_equal. f_equal.
  - by apply delete_insert_id.
  - destruct (rooms !! Client_RoomID client) as [room|] eqn:Hr.
    + destruct (Hroom room eq_refl) as [Hid Hne]. rewrite Hr. simpl.
      rewrite delete_insert_id by done.
      rewrite decide_False by (by rewrite map_size_empty_iff).
      rewrite insert_insert_eq. by apply insert_id.
    + rewrite lookup_insert_eq. simpl.
      rewrite delete_insert_id by apply lookup_empty.
      rewrite decide_True by apply map_size_empty.
      rewrite !delete_insert_eq. by apply delete_id.
Qed.

Lemma register_then_unregister_restores_hub_witness :
  Run_Unregister bob (Run_Register bob 2%positive (hub one_client)) = Some (hub one_client).
Proof.
  apply (register_then_unregister_restores_hub (hub one_client) bob 2%positive).
  - by vm_compute.
  - intros room Hroom.
    assert (room = {[ "alice" := 1%positive ]}) as ->.
    { vm_compute in Hroom. injection Hroom as <-. by vm_compute. }
    split; [by vm_compute|]. apply insert_non_empty.
Defined.

End HubInvariants.
